(** * Rule versioning, changelog locking, schema downgrade and rule loading

    A shallow embedding of the version-lock reconciliation
    ([manage_versions], [versions_locked], [ChangelogMgmt.update_and_lock]
    in [detection_rules/packaging.py]), of the schema chain walk
    ([downgrade] in [detection_rules/schemas/__init__.py]) and of the rule
    loader ([load_rules] in [detection_rules/rule_loader.py]).

    Python dictionaries keyed by rule id are finite maps; dictionaries
    whose insertion order is observable (the new-rules mapping, whose keys
    are returned as a list, and the loader's ordered result) are
    association lists.  Objects that the code mutates in place (the rule
    objects, the version-lock dictionary, the files under [etc/]) are
    threaded explicitly, and a raised exception keeps the mutations made
    before it.  Console output ([click.echo], [print]) is left out. *)

From Stdlib Require Import ZArith NArith Ascii String Sorted.
From stdpp Require Import gmap strings list fin_maps.

Local Open Scope Z_scope.

(** ** Data model *)

(** One pending note of a rule's local changelog ([c['message']] is the
    only field the code reads). *)
Record ChangeNote := {
  message : string;
  note_detail : string;
}.

(** A rule object: [rule.id], [rule.name], [rule.path], the
    meaning-bearing part of [rule.contents] in canonical form,
    [rule.contents['version']] (absent until it is assigned) and the
    [rule.metadata] keys the code reads. *)
Record Rule := {
  rule_id : string;
  name : string;
  path : string;
  payload : string;
  contents_version : option Z;
  maturity : string;
  minimum_kibana_version : option string;
  changelog : option (list ChangeNote);
}.

(** An entry of [version.lock.json]. *)
Record LockEntry := {
  rule_name : string;
  version : Z;
  sha256 : string;
}.

(** An entry of [deprecated_rules.json]. *)
Record DeprecationEntry := {
  dep_rule_name : string;
  deprecation_date : string;
  stack_version : string;
}.

(** An entry of a rule's list in the global changelog. *)
Record ChangelogEntry := {
  changes : list ChangeNote;
  entry_minimum_kibana_version : string;
  rule_version : Z;
}.

#[global] Instance ChangeNote_eq_dec : EqDecision ChangeNote.
Proof. solve_decision. Defined.
#[global] Instance Rule_eq_dec : EqDecision Rule.
Proof. solve_decision. Defined.
#[global] Instance LockEntry_eq_dec : EqDecision LockEntry.
Proof. solve_decision. Defined.
#[global] Instance DeprecationEntry_eq_dec : EqDecision DeprecationEntry.
Proof. solve_decision. Defined.
#[global] Instance ChangelogEntry_eq_dec : EqDecision ChangelogEntry.
Proof. solve_decision. Defined.

(** The exceptions the modelled code raises. *)
Inductive Error :=
  | AssertionError (msg : string)
  | ValueError (msg : string)
  | KeyError (msg : string)
  | TypeError (msg : string)
  | ValidationError (msg : string)
  | IOError (msg : string).

#[global] Instance Error_eq_dec : EqDecision Error.
Proof. solve_decision. Defined.

(** A computation that returns or raises. *)
Definition Exc (A : Type) : Type := Error + A.

Definition raised {A} (r : Exc A) : bool :=
  match r with inl _ => true | inr _ => false end.

(** [rule.contents['version'] = v] *)
Definition set_version (rule : Rule) (v : Z) : Rule :=
  {| rule_id := rule_id rule; name := name rule; path := path rule;
     payload := payload rule; contents_version := Some v;
     maturity := maturity rule;
     minimum_kibana_version := minimum_kibana_version rule;
     changelog := changelog rule |}.

(** [rule.metadata['changelog'] = log], or the key removed for [None]. *)
Definition set_changelog (rule : Rule) (log : option (list ChangeNote)) : Rule :=
  {| rule_id := rule_id rule; name := name rule; path := path rule;
     payload := payload rule; contents_version := contents_version rule;
     maturity := maturity rule;
     minimum_kibana_version := minimum_kibana_version rule;
     changelog := log |}.

(** ** Insertion-ordered dictionaries *)

(** [d[k] = v] on a dictionary kept in insertion order: an existing key
    keeps its position and takes the new value, a new key goes last. *)
Fixpoint dict_set {V} (k : string) (v : V) (d : list (string * V)) : list (string * V) :=
  match d with
  | [] => [(k, v)]
  | (k', v') :: d' =>
      if decide (k = k') then (k, v) :: d' else (k', v') :: dict_set k v d'
  end.

Fixpoint dict_get {V} (k : string) (d : list (string * V)) : option V :=
  match d with
  | [] => None
  | (k', v') :: d' => if decide (k = k') then Some v' else dict_get k d'
  end.

(** [list(d)]: the keys in insertion order. *)
Definition dict_keys {V} (d : list (string * V)) : list string := d.*1.

(** [m.update(d)] for a finite map [m]. *)
Definition map_update {V} (m : gmap string V) (d : list (string * V)) : gmap string V :=
  foldl (fun acc kv => <[kv.1 := kv.2]> acc) m d.

(** ** The persisted artifacts and the memoised lock *)

(** The files under [etc/] that the code reads and writes, the log of
    [rule.save(as_rule=True)] calls (oldest first), and the object
    memoised by [load_versions]. *)
Record World := {
  version_lock_json : gmap string LockEntry;
  deprecated_rules_json : gmap string DeprecationEntry;
  changelog_files : gmap string (gmap string (list ChangelogEntry));
  saved_rules : list Rule;
  versions_cache : option (gmap string LockEntry);
}.

Definition CHANGELOG_FILE : string := "etc/rules-changelog.json".

Definition with_version_lock_json (w : World) (v : gmap string LockEntry) : World :=
  {| version_lock_json := v;
     deprecated_rules_json := deprecated_rules_json w;
     changelog_files := changelog_files w;
     saved_rules := saved_rules w;
     versions_cache := versions_cache w |}.

Definition with_deprecated_rules_json (w : World) (d : gmap string DeprecationEntry) : World :=
  {| version_lock_json := version_lock_json w;
     deprecated_rules_json := d;
     changelog_files := changelog_files w;
     saved_rules := saved_rules w;
     versions_cache := versions_cache w |}.

Definition with_changelog_file (w : World) (p : string)
    (c : gmap string (list ChangelogEntry)) : World :=
  {| version_lock_json := version_lock_json w;
     deprecated_rules_json := deprecated_rules_json w;
     changelog_files := <[p := c]> (changelog_files w);
     saved_rules := saved_rules w;
     versions_cache := versions_cache w |}.

Definition with_saved_rule (w : World) (r : Rule) : World :=
  {| version_lock_json := version_lock_json w;
     deprecated_rules_json := deprecated_rules_json w;
     changelog_files := changelog_files w;
     saved_rules := saved_rules w ++ [r];
     versions_cache := versions_cache w |}.

Definition with_versions_cache (w : World) (c : option (gmap string LockEntry)) : World :=
  {| version_lock_json := version_lock_json w;
     deprecated_rules_json := deprecated_rules_json w;
     changelog_files := changelog_files w;
     saved_rules := saved_rules w;
     versions_cache := c |}.

(** ** packaging.py *)

Section Packaging.

(** Modelled from the spec: [Rule.dict_hash] behind [rule.get_hash()]
    ([rule.py] is not among the sources).  The digest is a function of
    the rule's meaning-bearing fields alone; the version field and the
    changelog and metadata bookkeeping are excluded. *)
Variable dict_hash : string -> string.

(** Modelled from the spec: the note [rule.append_changelog_entry(msg)]
    appends to the rule's local log for a message. *)
Variable changelog_note : string -> ChangeNote.

(** Modelled from the spec: [rule.get_version()], the rule's current
    version number as the rule object reports it. *)
Variable get_version : World -> Rule -> Z.

(** [ChangelogEntry.Schema().load(...)] followed by [entry.dump()]
    ([schemas/changelog.py] is not among the sources): validation
    either rejects the entry or yields the dumped entry. *)
Variable ChangelogEntry_Schema : ChangelogEntry -> option ChangelogEntry.

(** [rule_loader.get_production_rules(include_deprecated=True)]. *)
Variable production_rules : list Rule.

(** [CurrentSchema.STACK_VERSION]. *)
Variable CurrentSchema_STACK_VERSION : string.

Definition get_hash (rule : Rule) : string := dict_hash (payload rule).

(** Modelled from the spec: [rule.append_changelog_entry(msg)] adds
    the note at the end of the local log, creating the log when the
    key is absent. *)
Definition append_changelog_entry (rule : Rule) (msg : string) : Rule :=
  set_changelog rule (Some (default [] (changelog rule) ++ [changelog_note msg])).

(** *** load_versions *)

(** [current_versions or load_etc_dump('version.lock.json')]: a
    dictionary argument that is not empty is returned itself, the same
    object.  Modelled from the spec: the [cached] decorator ([misc.py]
    is not among the sources) memoises the load, so a later call gets
    the object of the first call, with whatever was done to it. *)
Definition uses_cache (current_versions : option (gmap string LockEntry)) : bool :=
  match current_versions with
  | Some cv => bool_decide (cv = ∅)
  | None => true
  end.

Definition load_versions (current_versions : option (gmap string LockEntry)) (w : World)
    : gmap string LockEntry * World :=
  if uses_cache current_versions then
    match versions_cache w with
    | Some cv => (cv, w)
    | None => (version_lock_json w, with_versions_cache w (Some (version_lock_json w)))
    end
  else (default ∅ current_versions, w).

(** The dictionary [load_versions] returned was changed in place: when
    it is the memoised object, the memo holds the change. *)
Definition commit_versions (current_versions : option (gmap string LockEntry))
    (cv : gmap string LockEntry) (w : World) : World :=
  if uses_cache current_versions then with_versions_cache w (Some cv) else w.

(** Modelled from the spec: [load_versions(bypass_cache=True)] reads
    the durable lock file again. *)
Definition load_versions_bypass_cache (w : World) : gmap string LockEntry :=
  version_lock_json w.

(** *** versions_locked *)

Fixpoint versions_locked_loop (versions : gmap string LockEntry) (rules : list Rule) : bool :=
  match rules with
  | [] => true
  | rule :: rest =>
      match versions !! rule_id rule with
      | None => false
      | Some info =>
          if decide (get_hash rule ≠ sha256 info) then false
          else versions_locked_loop versions rest
      end
  end.

Definition versions_locked (rules : list Rule) (w : World) : bool :=
  let rules := match rules with [] => production_rules | _ => rules end in
  versions_locked_loop (load_versions_bypass_cache w) rules.

(** *** ChangelogMgmt *)

(** [cls.load_changelog()]: always the default path. *)
Definition load_changelog (w : World) : Exc (gmap string (list ChangelogEntry)) :=
  match changelog_files w !! CHANGELOG_FILE with
  | Some c => inr c
  | None => inl (IOError CHANGELOG_FILE)
  end.

Definition default_changes : list string := ["_version_locked_"; "_rule_created_"].

Definition substantive (log : list ChangeNote) : list ChangeNote :=
  filter (fun c => message c ∉ default_changes) log.

(** The state the per-rule loop of [update_and_lock] threads, with the
    exception that stopped it, if any. *)
Record Transfer := {
  t_rules : list Rule;
  t_changelog : gmap string (list ChangelogEntry);
  t_world : World;
  t_error : option Error;
}.

(** The body of [for rule in rules] in [update_and_lock]: the rule
    after the iteration, the global changelog, the world and the
    exception raised by the iteration, if any. *)
Definition transfer_rule (dry_run : bool) (rule : Rule)
    (cl : gmap string (list ChangelogEntry)) (w : World)
    : Rule * gmap string (list ChangelogEntry) * World * option Error :=
  let popped := if dry_run then rule else set_changelog rule None in
  match (if dry_run then changelog rule else Some (default [] (changelog rule))) with
  | None => (popped, cl, w, Some (TypeError "'NoneType' object is not iterable"))
  | Some rule_changelog =>
      match substantive rule_changelog with
      | [] => (set_changelog popped (Some rule_changelog), cl, w, None)
      | (_ :: _) as chg =>
          let global_entry := default [] (cl !! rule_id rule) in
          let cl1 := <[rule_id rule := global_entry]> cl in
          match minimum_kibana_version rule with
          | None => (popped, cl1, w, Some (KeyError "minimum_kibana_version"))
          | Some mkv =>
              match ChangelogEntry_Schema
                      {| changes := chg; entry_minimum_kibana_version := mkv;
                         rule_version := get_version w popped |} with
              | None => (popped, cl1, w, Some (ValidationError "ChangelogEntry"))
              | Some entry =>
                  let cl2 := <[rule_id rule := global_entry ++ [entry]]> cl1 in
                  if dry_run then (popped, cl2, w, None)
                  else
                    let locked :=
                      if decide (maturity popped = "deprecated") then popped
                      else append_changelog_entry popped "_version_locked_" in
                    (locked, cl2, with_saved_rule w locked, None)
              end
          end
      end
  end.

Fixpoint transfer_rules (dry_run : bool) (rules : list Rule)
    (cl : gmap string (list ChangelogEntry)) (w : World) : Transfer :=
  match rules with
  | [] => {| t_rules := []; t_changelog := cl; t_world := w; t_error := None |}
  | rule :: rest =>
      let '(rule', cl', w', err) := transfer_rule dry_run rule cl w in
      match err with
      | Some e => {| t_rules := rule' :: rest; t_changelog := cl'; t_world := w';
                     t_error := Some e |}
      | None =>
          let t := transfer_rules dry_run rest cl' w' in
          {| t_rules := rule' :: t_rules t; t_changelog := t_changelog t;
             t_world := t_world t; t_error := t_error t |}
      end
  end.

(** [ChangelogMgmt.update_and_lock(rules, save_path, dry_run)]: the rule
    objects and the world as the call leaves them, and whether it
    returned or raised. *)
Definition update_and_lock (rules : list Rule) (save_path : string) (dry_run : bool)
    (w : World) : list Rule * World * Exc unit :=
  match load_changelog w with
  | inl e => (rules, w, inl e)
  | inr cl =>
      let t := transfer_rules dry_run rules cl w in
      match t_error t with
      | Some e => (t_rules t, t_world t, inl e)
      | None =>
          if dry_run then (t_rules t, t_world t, inr tt)
          else if decide (save_path = CHANGELOG_FILE) then
            if versions_locked (t_rules t) (t_world t) then
              (t_rules t, with_changelog_file (t_world t) save_path (t_changelog t), inr tt)
            else
              (t_rules t, t_world t,
               inl (AssertionError
                      "Rule versions must be locked before locking the primary changelog"))
          else
            (t_rules t, with_changelog_file (t_world t) save_path (t_changelog t), inr tt)
      end
  end.

(** *** manage_versions *)

(** The state of the first loop of [manage_versions]: the lock
    dictionary (changed in place), the [new_rules] dictionary and the
    [changed_rules] list. *)
Record Versions := {
  current_versions : gmap string LockEntry;
  new_rules : list (string * LockEntry);
  changed_rules : list string;
}.

(** The body of [for rule in rules] (first loop). *)
Definition version_rule (exclude_version_update : bool) (rule : Rule) (st : Versions)
    : Rule * Versions :=
  match current_versions st !! rule_id rule with
  | None =>
      (set_version rule 1,
       {| current_versions := current_versions st;
          new_rules := dict_set (rule_id rule)
                         {| rule_name := name rule; version := 1; sha256 := get_hash rule |}
                         (new_rules st);
          changed_rules := changed_rules st |})
  | Some version_lock_info =>
      let version_ := version version_lock_info in
      let rule_hash := get_hash rule in
      if decide (rule_hash ≠ sha256 version_lock_info) then
        let rule' := set_version rule (version_ + 1) in
        let stored := if exclude_version_update then version_ else version_ + 1 in
        (rule',
         {| current_versions :=
              <[rule_id rule := {| rule_name := name rule; version := stored;
                                   sha256 := rule_hash |}]> (current_versions st);
            new_rules := new_rules st;
            changed_rules := changed_rules st ++ [rule_id rule] |})
      else (set_version rule version_, st)
  end.

Fixpoint version_rules (exclude_version_update : bool) (rules : list Rule) (st : Versions)
    : list Rule * Versions :=
  match rules with
  | [] => ([], st)
  | rule :: rest =>
      let '(rule', st') := version_rule exclude_version_update rule st in
      let '(rest', st'') := version_rules exclude_version_update rest st' in
      (rule' :: rest', st'')
  end.

(** The body of [for rule in deprecated_rules]. *)
Definition deprecate_rule (deprecation_date : string) (rule : Rule)
    (st : gmap string DeprecationEntry * list string)
    : gmap string DeprecationEntry * list string :=
  match st.1 !! rule_id rule with
  | Some _ => st
  | None =>
      (<[rule_id rule := {| dep_rule_name := name rule;
                            deprecation_date := deprecation_date;
                            stack_version := CurrentSchema_STACK_VERSION |}]> st.1,
       st.2 ++ [rule_id rule])
  end.

(** [rule_deprecations] and [newly_deprecated] after the second loop;
    without deprecated rules the registry file is not read.  Modelled
    from the spec: [load_etc_dump('deprecated_rules.json')] gives the
    persisted registry. *)
Definition manage_deprecations (deprecation_date : string) (deprecated_rules : list Rule)
    (w : World) : gmap string DeprecationEntry * list string :=
  match deprecated_rules with
  | [] => (∅, [])
  | _ => foldl (fun st rule => deprecate_rule deprecation_date rule st)
               (deprecated_rules_json w, []) deprecated_rules
  end.

(** What a call of [manage_versions] leaves behind: the rule objects,
    the lock dictionary it worked on, the world, and the returned triple
    [(changed_rules, list(new_rules), newly_deprecated)] or the exception. *)
Record Outcome := {
  out_rules : list Rule;
  out_versions : gmap string LockEntry;
  out_world : World;
  out_result : Exc (list string * list string * list string);
}.

Definition nonempty {A} (l : list A) : bool :=
  match l with [] => false | _ => true end.

(** [manage_versions(rules, deprecated_rules, current_versions,
    exclude_version_update, add_new, save_changes)]; [today] is
    [str(datetime.date.today())]. *)
Definition manage_versions (rules deprecated_rules : list Rule)
    (current_versions_arg : option (gmap string LockEntry))
    (exclude_version_update add_new save_changes : bool) (today : string)
    (w : World) : Outcome :=
  let '(cv0, w0) := load_versions current_versions_arg w in
  let '(rules1, st) :=
    version_rules exclude_version_update rules
      {| current_versions := cv0; new_rules := []; changed_rules := [] |} in
  let w1 := commit_versions current_versions_arg (current_versions st) w0 in
  let '(rule_deprecations, newly_deprecated) := manage_deprecations today deprecated_rules w1 in
  let result := (changed_rules st, dict_keys (new_rules st), newly_deprecated) in
  if nonempty (new_rules st) || nonempty (changed_rules st) || nonempty newly_deprecated then
    if save_changes then
      let '(cv2, w2) :=
        if nonempty (changed_rules st) || (nonempty (new_rules st) && add_new) then
          let cv2 := map_update (current_versions st) (if add_new then new_rules st else []) in
          (cv2, with_version_lock_json (commit_versions current_versions_arg cv2 w1) cv2)
        else (current_versions st, w1) in
      let w3 :=
        if nonempty newly_deprecated then with_deprecated_rules_json w2 rule_deprecations
        else w2 in
      let '(rules2, w4, locked) := update_and_lock rules1 CHANGELOG_FILE false w3 in
      {| out_rules := rules2; out_versions := cv2; out_world := w4;
         out_result := match locked with inl e => inl e | inr _ => inr result end |}
    else
      {| out_rules := rules1; out_versions := current_versions st; out_world := w1;
         out_result := inr result |}
  else
    {| out_rules := rules1; out_versions := current_versions st; out_world := w1;
       out_result := inr result |}.

End Packaging.

(** ** schemas/__init__.py *)

(** A component of a [Version] tuple: an integer or a string. *)
Inductive VersionPart :=
  | VInt (n : N)
  | VStr (s : string).

#[global] Instance VersionPart_eq_dec : EqDecision VersionPart.
Proof. solve_decision. Defined.

Section Schemas.

(** The schema classes ([ApiSchema78] ... [ApiSchema713] and their
    versioned variants; [schemas/v7_*.py] are not among the sources),
    with the attributes and methods [downgrade] uses. *)
Variable Schema : Type.
Variable STACK_VERSION : Schema -> string.
Variable versioned : Schema -> Schema.

(** The values of an API payload. *)
Variable Value : Type.

(** [current_schema.downgrade(target_schema, api_contents, role)]: one
    step of the chain, which may raise. *)
Variable schema_downgrade :
  Schema -> Schema -> gmap string Value -> option Value -> Exc (gmap string Value).

(** [Version(s)] of [semver.py] (not among the sources): the tuple of
    the components of a version string. *)
Variable Version : string -> list VersionPart.

Variable all_schemas : list Schema.

Definition CurrentSchema : option Schema := last all_schemas.

Definition available_versions : list string := STACK_VERSION <$> all_schemas.

Definition unable_to_downgrade (target_version_str : string) : Error :=
  ValueError (String.append "Unable to downgrade from "
               (String.append (default EmptyString (STACK_VERSION <$> CurrentSchema))
                  (String.append " to " target_version_str))).

(** [for target_schema in reversed(all_schemas)], from the schemas still
    to visit. *)
Fixpoint downgrade_loop (check_versioned : bool) (target_version : list VersionPart)
    (role : option Value) (schemas : list Schema) (current_schema : option Schema)
    (api_contents : gmap string Value) : Exc (gmap string Value) :=
  match schemas with
  | [] => inr api_contents
  | target_schema :: rest =>
      let target_schema := if check_versioned then versioned target_schema else target_schema in
      match (match current_schema with
             | Some cs => schema_downgrade cs target_schema api_contents role
             | None => inr api_contents
             end) with
      | inl e => inl e
      | inr api_contents' =>
          if decide (Version (STACK_VERSION target_schema) = target_version) then inr api_contents'
          else downgrade_loop check_versioned target_version role rest (Some target_schema)
                 api_contents'
      end
  end.

(** [downgrade(api_contents, target_version)] *)
Definition downgrade (api_contents : gmap string Value) (target_version : string)
    : Exc (gmap string Value) :=
  let target_version_str := target_version in
  let target_version := take 2 (Version target_version) in
  let versions := (fun schema_cls => Version (STACK_VERSION schema_cls)) <$> all_schemas in
  let role := api_contents !! "type"%string in
  let check_versioned := bool_decide (is_Some (api_contents !! "version"%string)) in
  if decide (target_version ∉ versions) then inl (unable_to_downgrade target_version_str)
  else downgrade_loop check_versioned target_version role (reverse all_schemas) None api_contents.

(** [get_schema(stack_version)] *)
Definition get_schema (stack_version : string) : option Schema :=
  find (fun schema => bool_decide (STACK_VERSION schema = stack_version)) all_schemas.

End Schemas.

(** A reading of version strings for the examples: the components
    between [.] and [-], a component of digits only being an integer. *)
Definition digit_of (c : ascii) : option N :=
  let n := N_of_ascii c in
  if ((48 <=? n) && (n <=? 57))%N then Some (n - 48)%N else None.

Fixpoint digits_value (s : string) (acc : N) : option N :=
  match s with
  | EmptyString => Some acc
  | String c rest =>
      match digit_of c with
      | Some d => digits_value rest (10 * acc + d)%N
      | None => None
      end
  end.

Definition version_part (s : string) : VersionPart :=
  match s with
  | EmptyString => VStr s
  | _ => match digits_value s 0%N with Some n => VInt n | None => VStr s end
  end.

Fixpoint split_version (s : string) (cur : string) : list string :=
  match s with
  | EmptyString => [cur]
  | String c rest =>
      if bool_decide (c = "."%char \/ c = "-"%char) then cur :: split_version rest EmptyString
      else split_version rest (String.append cur (String c EmptyString))
  end.

Definition read_version (s : string) : list VersionPart :=
  version_part <$> split_version s EmptyString.

(** ** rule_loader.py *)

(** [os.path.basename] for [/]-separated paths. *)
Fixpoint has_slash (s : string) : bool :=
  match s with
  | EmptyString => false
  | String c rest => bool_decide (c = "/"%char) || has_slash rest
  end.

Fixpoint basename (s : string) : string :=
  match s with
  | EmptyString => EmptyString
  | String c rest =>
      if bool_decide (c = "/"%char) || has_slash rest then basename rest else s
  end.

(** [re.match(FILE_PATTERN, s)] for
    [FILE_PATTERN = r'^([a-z0-9_])+\.(json|toml)$']; [$] also matches
    before a final line feed. *)
Definition name_char (c : ascii) : bool :=
  let n := N_of_ascii c in
  (((97 <=? n) && (n <=? 122)) || ((48 <=? n) && (n <=? 57)) || (n =? 95))%N.

Fixpoint skip_name_chars (s : string) : string :=
  match s with
  | EmptyString => EmptyString
  | String c rest => if name_char c then skip_name_chars rest else s
  end.

Definition line_feed : string := String (ascii_of_N 10) EmptyString.

Definition matches_FILE_PATTERN (s : string) : bool :=
  match s with
  | EmptyString => false
  | String c _ =>
      name_char c &&
      bool_decide (skip_name_chars s ∈
        [".json"%string; ".toml"%string;
         String.append ".json" line_feed; String.append ".toml" line_feed])
  end.

(** [sorted(rules, key=lambda r: r.name)]: stable, by string order. *)
Fixpoint insert_by_name (r : Rule) (l : list Rule) : list Rule :=
  match l with
  | [] => [r]
  | x :: l' =>
      if String.leb (name r) (name x) then r :: x :: l' else x :: insert_by_name r l'
  end.

Definition sorted_by_name (l : list Rule) : list Rule := foldr insert_by_name [] l.

Definition error_message (e : Error) : string :=
  match e with
  | AssertionError m | ValueError m | KeyError m | TypeError m
  | ValidationError m | IOError m => m
  end.

Section RuleLoader.

(** The parsed contents of a rule file. *)
Variable RuleContents : Type.

(** [Rule(rule_file, rule_contents)] ([rule.py] is not among the
    sources): the rule object, or the exception of a failed
    construction. *)
Variable Rule_init : string -> RuleContents -> Exc Rule.

(** [(parsed_query, rule.type, threshold field, threshold value)] of a
    rule, in one string; [None] when [rule.parsed_query] is [None];
    parsing may raise. *)
Variable duplicate_key : Rule -> Exc (option string).

(** [load_rule_files(verbose=verbose)]: the rule files on disk. *)
Variable load_rule_files : Exc (list (string * RuleContents)).

(** The local variables of [load_rules]; the error messages name the
    offending file only. *)
Record Loader := {
  failed : bool;
  loaded : list Rule;
  errors : list string;
  queries : list string;
  rule_ids : gset string;
  rule_names : gset string;
}.

Definition with_queries (st : Loader) (q : list string) : Loader :=
  {| failed := failed st; loaded := loaded st; errors := errors st; queries := q;
     rule_ids := rule_ids st; rule_names := rule_names st |}.

(** [rules.append(rule); rule_ids.add(rule.id); rule_names.add(rule.name)] *)
Definition add_rule (st : Loader) (rule : Rule) : Loader :=
  {| failed := failed st; loaded := loaded st ++ [rule]; errors := errors st;
     queries := queries st;
     rule_ids := rule_ids st ∪ {[rule_id rule]};
     rule_names := rule_names st ∪ {[name rule]} |}.

(** The [except] clause up to [if error]. *)
Definition record_failure (st : Loader) (rule_file : string) (e : Error) : Loader :=
  {| failed := true; loaded := loaded st;
     errors := errors st ++
       [String.append "Invalid rule file in "
          (String.append rule_file (String.append line_feed (error_message e)))];
     queries := queries st; rule_ids := rule_ids st; rule_names := rule_names st |}.

(** The [try] block for one file: the state it leaves and the exception
    it raised, if any. *)
Definition try_rule (rule_file : string) (rule_contents : RuleContents) (st : Loader)
    : Loader * option Error :=
  match Rule_init rule_file rule_contents with
  | inl e => (st, Some e)
  | inr rule =>
      if decide (rule_id rule ∈ rule_ids st) then
        (st, Some (KeyError (String.append (path rule) " has duplicate ID")))
      else if decide (name rule ∈ rule_names st) then
        (st, Some (KeyError (String.append (path rule) " has duplicate name")))
      else
        match duplicate_key rule with
        | inl e => (st, Some e)
        | inr key =>
            let '(st1, dup) :=
              match key with
              | None => (st, false)
              | Some k =>
                  if decide (k ∈ queries st) then (st, true)
                  else (with_queries st (queries st ++ [k]), false)
              end in
            if dup then
              (st1, Some (KeyError (String.append (path rule) " has duplicate query")))
            else if matches_FILE_PATTERN (basename (path rule)) then (add_rule st1 rule, None)
            else
              (st1, Some (ValueError
                            (String.append (path rule) " does not meet rule name standard")))
        end
  end.

(** [for rule_file, rule_contents in file_lookup.items()] *)
Fixpoint load_loop (error : bool) (files : list (string * RuleContents)) (st : Loader)
    : Exc Loader :=
  match files with
  | [] => inr st
  | (rule_file, rule_contents) :: rest =>
      match try_rule rule_file rule_contents st with
      | (st', None) => load_loop error rest st'
      | (st', Some e) =>
          if error then inl e else load_loop error rest (record_failure st' rule_file e)
      end
  end.

Definition empty_loader : Loader :=
  {| failed := false; loaded := []; errors := []; queries := [];
     rule_ids := ∅; rule_names := ∅ |}.

(** [OrderedDict([(rule.id, rule) for rule in ...])] *)
Definition ordered_dict (rules : list Rule) : list (string * Rule) :=
  foldl (fun d rule => dict_set (rule_id rule) rule d) [] rules.

(** [file_lookup or load_rule_files(verbose=verbose)]; an empty
    [file_lookup] stands for the default [None] as well, as [or] takes
    both to the files on disk. *)
Definition files_to_load (file_lookup : list (string * RuleContents))
    : Exc (list (string * RuleContents)) :=
  match file_lookup with
  | [] => load_rule_files
  | _ => inr file_lookup
  end.

(** [load_rules(file_lookup, verbose, error)] *)
Definition load_rules (file_lookup : list (string * RuleContents)) (error : bool)
    : Exc (list (string * Rule)) :=
  match files_to_load file_lookup with
  | inl e => inl e
  | inr files =>
      match load_loop error files empty_loader with
      | inl e => inl e
      | inr st => inr (ordered_dict (sorted_by_name (loaded st)))
      end
  end.

End RuleLoader.

(** ** packaging.py: packages and the rules' local changelogs *)

Section Packages.

Variable dict_hash : string -> string.
Variable changelog_note : string -> ChangeNote.
Variable get_version : World -> Rule -> Z.
Variable ChangelogEntry_Schema : ChangelogEntry -> option ChangelogEntry.
Variable production_rules : list Rule.
Variable CurrentSchema_STACK_VERSION : string.

(** [rule.metadata['updated_date'] = date]: the rule record does not
    carry that key, so the assignment is left to the rule object. *)
Variable set_updated_date : Rule -> string -> Rule.

(** The body of [for rule in rules] in
    [ChangelogMgmt.initialize_rule_changelogs]; [versions] is what
    [load_versions()] gave, [today] is [time.strftime('%Y/%m/%d')]. *)
Definition initialize_rule_changelog (versions : gmap string LockEntry)
    (force flush : bool) (today : string) (rule : Rule) (w : World) : Rule * World :=
  if nonempty (default [] (changelog rule)) && negb force then (rule, w)
  else
    let flushed := if flush then set_changelog rule None else rule in
    let logged :=
      match versions !! rule_id flushed with
      | Some info =>
          let locked := append_changelog_entry changelog_note flushed "_version_locked_" in
          if decide (maturity locked = "deprecated"%string) then
            append_changelog_entry changelog_note locked "_deprecated_"
          else if decide (get_hash dict_hash locked ≠ sha256 info) then
            append_changelog_entry changelog_note locked "some arbitrary change"
          else locked
      | None => append_changelog_entry changelog_note flushed "_rule_created_"
      end in
    let dated := set_updated_date logged today in
    (dated, with_saved_rule w dated).

Fixpoint initialize_rule_changelogs_loop (versions : gmap string LockEntry)
    (force flush : bool) (today : string) (rules : list Rule) (w : World)
    : list Rule * World :=
  match rules with
  | [] => ([], w)
  | rule :: rest =>
      let '(rule', w') := initialize_rule_changelog versions force flush today rule w in
      let '(rest', w'') := initialize_rule_changelogs_loop versions force flush today rest w' in
      (rule' :: rest', w'')
  end.

(** [ChangelogMgmt.initialize_rule_changelogs(rules, force, flush)]: the
    rule objects and the world as the call leaves them. *)
Definition initialize_rule_changelogs (rules : list Rule) (force flush : bool)
    (today : string) (w : World) : list Rule * World :=
  let '(versions, w0) := load_versions None w in
  initialize_rule_changelogs_loop versions force flush today rules w0.

(** A [Package] object. *)
Record Package := {
  pkg_rules : list Rule;
  pkg_name : string;
  pkg_deprecated_rules : list Rule;
  pkg_release : bool;
  pkg_registry_data : gmap string string;
  changed_rule_ids : list string;
  new_rules_ids : list string;
  removed_rule_ids : list string;
}.

(** Truth value of an optional integer: [None] and [0] are false. *)
Definition int_truthy (v : option Z) : bool :=
  match v with
  | Some n => negb (n =? 0)
  | None => false
  end.

(** [v or d] for an optional integer. *)
Definition int_or (v : option Z) (d : Z) : Z :=
  match v with
  | Some n => if n =? 0 then d else n
  | None => d
  end.

(** [[r for r in rules if (min_version or 0) <= r.contents['version']
    <= (max_version or r.contents['version'])]]; a rule without a
    version raises [KeyError]. *)
Fixpoint filter_versions (min_version max_version : option Z) (rules : list Rule)
    : Exc (list Rule) :=
  match rules with
  | [] => inr []
  | r :: rest =>
      match contents_version r with
      | None => inl (KeyError "version")
      | Some v =>
          match filter_versions min_version max_version rest with
          | inl e => inl e
          | inr rest' =>
              inr (if (int_or min_version 0 <=? v) && (v <=? int_or max_version v)
                   then r :: rest' else rest')
          end
      end
  end.

(** [Package.__init__]: the rules are copied, so the caller's rule
    objects stay as they are; [_add_versions] is [manage_versions] with
    its defaults [exclude_version_update=False] and [add_new=True]. *)
Definition Package_init (rules : list Rule) (name : string) (deprecated_rules : list Rule)
    (release : bool) (current_versions : option (gmap string LockEntry))
    (min_version max_version : option Z) (update_version_lock : bool)
    (registry_data : gmap string string) (today : string) (w : World)
    : World * Exc Package :=
  let o := manage_versions dict_hash changelog_note get_version ChangelogEntry_Schema
             production_rules CurrentSchema_STACK_VERSION
             rules deprecated_rules current_versions false true update_version_lock today w in
  match out_result o with
  | inl e => (out_world o, inl e)
  | inr (changed, new, removed) =>
      match (if int_truthy min_version || int_truthy max_version
             then filter_versions min_version max_version (out_rules o)
             else inr (out_rules o)) with
      | inl e => (out_world o, inl e)
      | inr kept =>
          (out_world o,
           inr {| pkg_rules := kept; pkg_name := name;
                  pkg_deprecated_rules := deprecated_rules; pkg_release := release;
                  pkg_registry_data := registry_data;
                  changed_rule_ids := changed; new_rules_ids := new;
                  removed_rule_ids := removed |})
      end
  end.

End Packages.

(** ** packaging.py: filter_rule *)

(** A hashable scalar of a flattened rule or of a package filter: a
    string or an integer (booleans are the integers 0 and 1, as they
    compare in Python; floats are left out). *)
Inductive Atom :=
  | AStr (s : string)
  | AInt (n : Z).

(** A value of a flattened rule: a scalar or a list of scalars. *)
Inductive FlatValue :=
  | Single (a : Atom)
  | Many (l : list Atom).

#[global] Instance Atom_eq_dec : EqDecision Atom.
Proof. solve_decision. Defined.
#[global] Instance FlatValue_eq_dec : EqDecision FlatValue.
Proof. solve_decision. Defined.

Section Filtering.

(** [str.lower]. *)
Variable str_lower : string -> string.

(** [rule.flattened_contents], [rule.unique_fields] ([None] and the
    empty list alike) and [rule.contents['index']] ([rule.py] is not
    among the sources). *)
Variable flattened_contents : Rule -> gmap string FlatValue.
Variable unique_fields : Rule -> list string.
Variable contents_index : Rule -> option FlatValue.

(** [v.lower() if isinstance(v, str) else v] *)
Definition lower_atom (a : Atom) : Atom :=
  match a with
  | AStr s => AStr (str_lower s)
  | AInt _ => a
  end.

(** The set [rule_values] of a rule's value. *)
Definition rule_values (rule_value : FlatValue) : list Atom :=
  match rule_value with
  | Single a => [lower_atom a]
  | Many l => lower_atom <$> l
  end.

(** [for key, values in config_filter.items()]: [false] when the loop
    returns [False]. *)
Fixpoint filter_keys (flat_rule : gmap string FlatValue)
    (config_filter : list (string * list Atom)) : bool :=
  match config_filter with
  | [] => true
  | (key, values) :: rest =>
      match flat_rule !! key with
      | None => false
      | Some rule_value =>
          let values := lower_atom <$> values in
          if existsb (fun a => bool_decide (a ∈ values)) (rule_values rule_value)
          then filter_keys flat_rule rest
          else false
      end
  end.

(** [for index, fields in exclude_fields.items()]: [true] when the loop
    returns [False]. *)
Fixpoint excluded_by_fields (rule : Rule) (exclude_fields : list (string * list string))
    : Exc bool :=
  match exclude_fields with
  | [] => inr false
  | (index, fields) :: rest =>
      match unique_fields rule with
      | [] => excluded_by_fields rule rest
      | _ :: _ =>
          match contents_index rule with
          | None => inl (KeyError "index")
          | Some rule_index =>
              if (bool_decide (rule_index = Single (AStr index))
                  || bool_decide (index = "any"%string))
                 && existsb (fun f => bool_decide (f ∈ fields)) (unique_fields rule)
              then inr true
              else excluded_by_fields rule rest
          end
      end
  end.

(** [filter_rule(rule, config_filter, exclude_fields)] *)
Definition filter_rule (rule : Rule) (config_filter : list (string * list Atom))
    (exclude_fields : list (string * list string)) : Exc bool :=
  if filter_keys (flattened_contents rule) config_filter then
    match excluded_by_fields rule exclude_fields with
    | inl e => inl e
    | inr excluded => inr (negb excluded)
    end
  else inr false.

End Filtering.

(** ** rule_loader.py: get_rule and get_production_rules *)

Section RuleLookup.

Variable RuleContents : Type.
Variable Rule_init : string -> RuleContents -> Exc Rule.
Variable duplicate_key : Rule -> Exc (option string).
Variable load_rule_files : Exc (list (string * RuleContents)).
Variable str_lower : string -> string.
Variable flattened_contents : Rule -> gmap string FlatValue.
Variable unique_fields : Rule -> list string.
Variable contents_index : Rule -> option FlatValue.

(** [get_rule(rule_id, rule_name, file_name)] *)
Definition get_rule (rule_id_arg rule_name_arg file_name : option string)
    : Exc (option Rule) :=
  match load_rules RuleContents Rule_init duplicate_key load_rule_files [] true with
  | inl e => inl e
  | inr rules_lookup =>
      match rule_id_arg with
      | Some i => inr (dict_get i rules_lookup)
      | None =>
          inr (find (fun rule => bool_decide (Some (name rule) = rule_name_arg)
                                 || bool_decide (Some (path rule) = file_name))
                    rules_lookup.*2)
      end
  end.

(** [list(filter(f, rules))] for a predicate that may raise. *)
Fixpoint filter_exc (f : Rule -> Exc bool) (rules : list Rule) : Exc (list Rule) :=
  match rules with
  | [] => inr []
  | r :: rest =>
      match f r with
      | inl e => inl e
      | inr keep =>
          match filter_exc f rest with
          | inl e => inl e
          | inr rest' => inr (if keep then r :: rest' else rest')
          end
      end
  end.

(** [get_production_rules(verbose, include_deprecated)] *)
Definition get_production_rules (include_deprecated : bool) : Exc (list Rule) :=
  let maturity := [AStr "production"] ++ (if include_deprecated then [AStr "deprecated"] else []) in
  match load_rules RuleContents Rule_init duplicate_key load_rule_files [] true with
  | inl e => inl e
  | inr rules_lookup =>
      filter_exc (fun rule => filter_rule str_lower flattened_contents unique_fields
                                contents_index rule [("maturity"%string, maturity)] [])
                 rules_lookup.*2
  end.

End RuleLookup.

(** ** schemas/registry_package.py *)

Section Registry.

(** The manifest classes, with their [format_version] and [__name__]. *)
Variable Manifest : Type.
Variable format_version : Manifest -> string.
Variable class_name : Manifest -> string.

(** [register_manifest(c)] on the module's [_manifests]. *)
Definition register_manifest (c : Manifest) (_manifests : gmap string Manifest)
    : gmap string Manifest * Exc unit :=
  match _manifests !! format_version c with
  | Some existing =>
      (_manifests,
       inl (ValueError (String.append "manifest format_version already exists in "
                          (class_name existing))))
  | None => (<[format_version c := c]> _manifests, inr tt)
  end.

(** [get_manifest(format_version)] *)
Definition get_manifest (v : string) (_manifests : gmap string Manifest) : option Manifest :=
  _manifests !! v.

End Registry.

(** ** eswrap.py *)

Section Events.

(** An event's [_source] and its [agent] object, with the lookups
    [source['agent']] and [agent['type']], [None] for a missing key. *)
Variable Source : Type.
Variable Agent : Type.
Variable source_agent : Source -> option Agent.
Variable agent_type : Agent -> option string.

(** [source['agent']['type']] *)
Definition source_type (source : Source) : Exc string :=
  match source_agent source with
  | None => inl (KeyError "agent")
  | Some agent =>
      match agent_type agent with
      | None => inl (KeyError "type")
      | Some t => inr t
      end
  end.

(** [for event in events['hits']['hits']] in
    [CollectEvents._group_events_by_type]; a hit is its [_source], if
    it has one. *)
Fixpoint group_events_loop (hits : list (option Source))
    (event_by_type : list (string * list Source)) : Exc (list (string * list Source)) :=
  match hits with
  | [] => inr event_by_type
  | hit :: rest =>
      match hit with
      | None => inl (KeyError "_source")
      | Some source =>
          match source_type source with
          | inl e => inl e
          | inr t =>
              group_events_loop rest
                (dict_set t (default [] (dict_get t event_by_type) ++ [source]) event_by_type)
          end
      end
  end.

Definition _group_events_by_type (hits : list (option Source))
    : Exc (list (string * list Source)) :=
  group_events_loop hits [].

End Events.

(** * Vocabulary of the statements *)

(** [relogged r r']: [r'] is [r] with another local changelog. *)
Definition relogged (r r' : Rule) : Prop := exists log, r' = set_changelog r log.

(** The parts of the world that only [manage_versions] itself writes. *)
Definition same_ledgers (w w' : World) : Prop :=
  version_lock_json w' = version_lock_json w /\
  deprecated_rules_json w' = deprecated_rules_json w /\
  versions_cache w' = versions_cache w.

(** What the loop state holds for one rule id: its lock entry, its
    pending new-rule entry, and whether it is listed as changed. *)
Definition view (j : string) (st : Versions) : option LockEntry * option LockEntry * bool :=
  (current_versions st !! j, dict_get j (new_rules st), bool_decide (j ∈ changed_rules st)).

(** The lock file is written when saving is asked for and a rule
    changed or a new rule is to be added. *)
Definition lock_written (add_new save_changes : bool) (st : Versions) : bool :=
  save_changes && (nonempty (changed_rules st) || (nonempty (new_rules st) && add_new)).

(** The sets of seen ids and names are those of the loaded rules, and
    no two loaded rules share an id or a name. *)
Definition loader_inv (st : Loader) : Prop :=
  NoDup (rule_id <$> loaded st) /\ NoDup (name <$> loaded st) /\
  (forall j, j ∈ rule_ids st <-> j ∈ rule_id <$> loaded st) /\
  (forall j, j ∈ rule_names st <-> j ∈ name <$> loaded st).

(** A rule whose version lies within the bounds of a package. *)
Definition version_in_bounds (min_version max_version : option Z) (r : Rule) : Prop :=
  exists v, contents_version r = Some v /\
    int_or min_version 0 <= v /\ v <= int_or max_version v.

(** A rule with a local changelog that is not empty. *)
Definition has_changelog (r : Rule) : Prop := nonempty (default [] (changelog r)) = true.

(** The order of [sorted(rules, key=lambda r: r.name)]. *)
Definition name_le (r1 r2 : Rule) : Prop := String.leb (name r1) (name r2) = true.

(** The loaded rules passed the checks of the [try] block: each was
    built from one of [files], its file name meets [FILE_PATTERN], its
    query key is recorded, and no two of them share a query key. *)
Definition loader_checked {RuleContents : Type}
    (Rule_init : string -> RuleContents -> Exc Rule)
    (duplicate_key : Rule -> Exc (option string))
    (files : list (string * RuleContents)) (st : Loader) : Prop :=
  (forall r, r ∈ loaded st ->
     matches_FILE_PATTERN (basename (path r)) = true /\
     (exists f c, (f, c) ∈ files /\ Rule_init f c = inr r) /\
     exists key, duplicate_key r = inr key /\ forall k, key = Some k -> k ∈ queries st) /\
  (forall r1 r2 k, r1 ∈ loaded st -> r2 ∈ loaded st ->
     duplicate_key r1 = inr (Some k) -> duplicate_key r2 = inr (Some k) -> r1 = r2).

(** The steps of a downgrade along a chain of schemas: from [cs] to the
    first schema of [chain], from there to the next, and so on, stopping
    at the first step that raises. *)
Fixpoint chain_steps {Schema Value : Type}
    (schema_downgrade :
       Schema -> Schema -> gmap string Value -> option Value -> Exc (gmap string Value))
    (role : option Value) (cs : Schema) (chain : list Schema)
    (api_contents : gmap string Value) : Exc (gmap string Value) :=
  match chain with
  | [] => inr api_contents
  | ts :: rest =>
      match schema_downgrade cs ts api_contents role with
      | inl e => inl e
      | inr api_contents' => chain_steps schema_downgrade role ts rest api_contents'
      end
  end.

(** The type under which a hit is grouped, or the [KeyError] of the
    key it lacks. *)
Definition event_type {Source Agent : Type} (source_agent : Source -> option Agent)
    (agent_type : Agent -> option string) (hit : option Source) : Exc string :=
  match hit with
  | None => inl (KeyError "_source")
  | Some source => source_type Source Agent source_agent agent_type source
  end.

(** The events of one agent type, in the order of the hits. *)
Definition events_of_type {Source Agent : Type} (source_agent : Source -> option Agent)
    (agent_type : Agent -> option string) (t : string) (sources : list Source)
    : list Source :=
  filter (fun s => source_type Source Agent source_agent agent_type s = inr t) sources.

Section Vocabulary.

Variable dict_hash : string -> string.

Local Abbreviation get_hash := (get_hash dict_hash).

(** A rule that the lock does not cover: no entry, or another hash. *)
Definition unlocked (versions : gmap string LockEntry) (r : Rule) : Prop :=
  match versions !! rule_id r with
  | None => True
  | Some info => get_hash r <> sha256 info
  end.

(** The rule object and the view of its id after one iteration, from
    the view before it. *)
Definition expected (exclude_version_update : bool) (r : Rule)
    (v : option LockEntry * option LockEntry * bool)
    : Rule * (option LockEntry * option LockEntry * bool) :=
  match v.1.1 with
  | None =>
      (set_version r 1,
       (None, Some {| rule_name := name r; version := 1; sha256 := get_hash r |}, v.2))
  | Some info =>
      if decide (get_hash r ≠ sha256 info) then
        (set_version r (version info + 1),
         (Some {| rule_name := name r;
                  version := if exclude_version_update then version info else version info + 1;
                  sha256 := get_hash r |},
          v.1.2, true))
      else (set_version r (version info), v)
  end.

(** A rule object that already carries what the lock dictionary gives
    it: version 1 without an entry, and otherwise the entry's hash and
    version. *)
Definition settled (cv : gmap string LockEntry) (r : Rule) : Prop :=
  match cv !! rule_id r with
  | None => contents_version r = Some 1
  | Some info => get_hash r = sha256 info /\ contents_version r = Some (version info)
  end.

(** The [new_rules] dictionary, from the ids the lock holds. *)
Fixpoint pending (known : gset string) (rules : list Rule) (n : list (string * LockEntry))
    : list (string * LockEntry) :=
  match rules with
  | [] => n
  | r :: rest =>
      pending known rest
        (if decide (rule_id r ∈ known) then n
         else dict_set (rule_id r)
                {| rule_name := name r; version := 1; sha256 := get_hash r |} n)
  end.

End Vocabulary.

(** * Scenario data *)

(** A stand-in digest, note builder and version reader for the
    scenarios; the theorems above hold for all of them. *)
Definition example_hash (s : string) : string := String.append "sha256:" s.

Definition example_note (m : string) : ChangeNote :=
  {| message := m; note_detail := "2021/06/01" |}.

Definition example_get_version (w : World) (r : Rule) : Z := default 1 (contents_version r).

Definition example_rule (i n p : string) (log : list string) : Rule :=
  {| rule_id := i; name := n; path := String.append "rules/" (String.append i ".toml");
     payload := p; contents_version := None; maturity := "production";
     minimum_kibana_version := Some "7.13.0"%string;
     changelog := Some (example_note <$> log) |}.

(** [a1] is locked at version 3 with hash H1 and now hashes to H2; [b1]
    is not in the lock; [c1] is locked at version 7 and unchanged. *)
Definition rule_a1 : Rule :=
  example_rule "a1" "Rule A" "H2" ["_version_locked_"; "tuned the query"]%string.
Definition rule_b1 : Rule := example_rule "b1" "Rule B" "HB" ["_rule_created_"]%string.
Definition rule_c1 : Rule := example_rule "c1" "Rule C" "HC" ["_version_locked_"]%string.
Definition rule_d1 : Rule :=
  {| rule_id := "d1"; name := "Rule D"; path := "rules/d1.toml"; payload := "HD";
     contents_version := None; maturity := "deprecated";
     minimum_kibana_version := Some "7.13.0"%string; changelog := None |}.

Definition info_a1 : LockEntry :=
  {| rule_name := "Rule A"; version := 3; sha256 := example_hash "H1" |}.
Definition info_c1 : LockEntry :=
  {| rule_name := "Rule C"; version := 7; sha256 := example_hash "HC" |}.

Definition example_lock : gmap string LockEntry :=
  {[ "a1"%string := info_a1; "c1"%string := info_c1 ]}.

Definition example_world : World :=
  {| version_lock_json := example_lock; deprecated_rules_json := ∅;
     changelog_files := {[ CHANGELOG_FILE := ∅ ]}; saved_rules := [];
     versions_cache := None |}.

Definition example_rules : list Rule := [rule_a1; rule_b1; rule_c1].

Definition example_manage_versions :=
  manage_versions example_hash example_note example_get_version Some [] "7.13.0".

Definition example_update_and_lock :=
  update_and_lock example_hash example_note example_get_version Some [].

(** The schema chain of the scenarios: the stack versions 7.8 to 7.13,
    each schema being its own versioned variant, and a step that notes
    the schema it reached. *)
Definition example_chain : list string :=
  ["7.8"; "7.9"; "7.10"; "7.11"; "7.12"; "7.13"]%string.

Definition example_step (cs ts : string) (p : gmap string string) (role : option string)
    : Exc (gmap string string) :=
  inr (<["downgraded_to"%string := ts]> p).

Definition example_downgrade :=
  downgrade string (fun s => s) (fun s => s) string example_step read_version example_chain.

Definition example_payload : gmap string string :=
  {[ "type"%string := "query"%string; "name"%string := "Rule A"%string ]}.

(** The loader of the scenarios: a file's contents are the rule itself,
    and the query key is the payload. *)
Definition example_init (rule_file : string) (rule_contents : Rule) : Exc Rule :=
  inr rule_contents.

Definition example_key (r : Rule) : Exc (option string) := inr (Some (payload r)).

Definition example_load_rules :=
  load_rules Rule example_init example_key (inr []).

Definition rule_a1_copy : Rule :=
  {| rule_id := "a1"; name := "Rule A again"; path := "rules/a1_copy.toml";
     payload := "H9"; contents_version := None; maturity := "production";
     minimum_kibana_version := Some "7.13.0"%string; changelog := None |}.

Definition example_files : list (string * Rule) :=
  [("rules/c1.toml"%string, rule_c1); ("rules/a1.toml"%string, rule_a1);
   ("rules/a1_copy.toml"%string, rule_a1_copy)].

(** The rule object of the scenarios keeps no [updated_date]. *)
Definition example_set_updated_date (r : Rule) (d : string) : Rule := r.

Definition example_initialize :=
  initialize_rule_changelogs example_hash example_note example_set_updated_date.

Definition example_Package_init :=
  Package_init example_hash example_note example_get_version Some [] "7.13.0".

(** Files that load: [c1] and [a1], given out of name order. *)
Definition example_files_ok : list (string * Rule) :=
  [("rules/c1.toml"%string, rule_c1); ("rules/a1.toml"%string, rule_a1)].

Definition example_loaded : list (string * Rule) :=
  [("a1"%string, rule_a1); ("c1"%string, rule_c1)].

Definition example_get_rule :=
  get_rule Rule example_init example_key (inr example_files_ok).

(** The flattened rule of the scenarios has the one field [maturity]. *)
Definition example_flattened (r : Rule) : gmap string FlatValue :=
  {[ "maturity"%string := Single (AStr (maturity r)) ]}.

Definition example_filter_rule :=
  filter_rule (fun s => s) example_flattened (fun _ => []) (fun _ => None).

Definition example_get_production_rules :=
  get_production_rules Rule example_init example_key (inr example_files_ok)
    (fun s => s) example_flattened (fun _ => []) (fun _ => None).

Definition example_get_schema := get_schema string (fun s => s) example_chain.

(** A manifest class of the scenarios: its format version and name. *)
Definition example_register :=
  register_manifest (string * string) fst snd.

(** The sources of the scenarios: an event number and the agent, which
    is its own type. *)
Definition example_source_type :=
  source_type (nat * option string) string snd Some.

Definition example_group :=
  _group_events_by_type (nat * option string) string snd Some.

Definition example_sources : list (nat * option string) :=
  [(1%nat, Some "auditbeat"%string); (2%nat, Some "winlogbeat"%string);
   (3%nat, Some "auditbeat"%string)].

(** * Properties *)

(** ** Insertion-ordered dictionaries *)

Lemma dict_get_set_eq {V} (k : string) (v : V) d : dict_get k (dict_set k v d) = Some v.
Proof.
  induction d as [|[k' v'] d IH]; simpl.
  - by rewrite decide_True.
  - destruct (decide (k = k')) as [->|Hne]; simpl.
    + by rewrite decide_True.
    + by rewrite decide_False.
Qed.

Lemma dict_get_set_ne {V} (k j : string) (v : V) d :
  k ≠ j -> dict_get j (dict_set k v d) = dict_get j d.
Proof.
  intros Hkj. induction d as [|[k' v'] d IH]; simpl.
  - by rewrite decide_False.
  - destruct (decide (k = k')) as [->|Hne]; simpl.
    + by rewrite !decide_False.
    + destruct (decide (j = k')); done.
Qed.

Lemma dict_get_keys {V} (k : string) (d : list (string * V)) :
  k ∈ dict_keys d <-> is_Some (dict_get k d).
Proof.
  unfold dict_keys. induction d as [|[k' v'] d IH]; simpl.
  - split; [intros H; inversion H | intros [? ?]; done].
  - rewrite elem_of_cons. destruct (decide (k = k')) as [->|Hne].
    + split; eauto.
    + rewrite IH. split; [intros [?|?]; done | by right].
Qed.

Lemma dict_get_None_keys {V} (k : string) (d : list (string * V)) :
  dict_get k d = None <-> k ∉ dict_keys d.
Proof. rewrite dict_get_keys, eq_None_not_Some. done. Qed.

Lemma dict_set_fresh {V} (k : string) (v : V) d :
  k ∉ dict_keys d -> dict_set k v d = d ++ [(k, v)].
Proof.
  unfold dict_keys. induction d as [|[k' v'] d IH]; simpl; [done|].
  rewrite not_elem_of_cons. intros [Hne Hnin].
  rewrite decide_False by done. by rewrite IH.
Qed.

Lemma dict_set_keys_NoDup {V} (k : string) (v : V) d :
  NoDup (dict_keys d) -> NoDup (dict_keys (dict_set k v d)).
Proof.
  unfold dict_keys. induction d as [|[k' v'] d IH]; simpl; intros Hnd.
  - apply NoDup_singleton.
  - apply NoDup_cons in Hnd as [Hnin Hnd].
    destruct (decide (k = k')) as [->|Hne]; simpl.
    + by apply NoDup_cons.
    + apply NoDup_cons. split; [|by apply IH].
      intros Hin. apply Hnin.
      apply (dict_get_keys k' d). apply (dict_get_keys k' (dict_set k v d)) in Hin.
      by rewrite dict_get_set_ne in Hin.
Qed.

Lemma map_update_lookup {V} (m : gmap string V) d (k : string) :
  NoDup (dict_keys d) ->
  map_update m d !! k = match dict_get k d with Some v => Some v | None => m !! k end.
Proof.
  unfold map_update, dict_keys. revert m.
  induction d as [|[k' v'] d IH]; intros m Hnd; simpl; [done|].
  apply NoDup_cons in Hnd as [Hnin Hnd]. rewrite IH by done.
  destruct (decide (k = k')) as [->|Hne].
  - assert (dict_get k' d = None) as -> by (by apply dict_get_None_keys).
    by rewrite lookup_insert_eq.
  - destruct (dict_get k d); [done|]. by rewrite lookup_insert_ne.
Qed.

(** ** Rule objects *)

Lemma set_changelog_id (r : Rule) : set_changelog r (changelog r) = r.
Proof. by destruct r. Qed.

Lemma relogged_refl r : relogged r r.
Proof. exists (changelog r). by rewrite set_changelog_id. Qed.

Lemma Forall2_relogged_refl rules : Forall2 relogged rules rules.
Proof. induction rules; constructor; [apply relogged_refl | done]. Qed.

Lemma relogged_set r log : relogged r (set_changelog r log).
Proof. by exists log. Qed.

Lemma relogged_trans r1 r2 r3 : relogged r1 r2 -> relogged r2 r3 -> relogged r1 r3.
Proof. intros [l1 ->] [l2 ->]. by exists l2. Qed.

Lemma relogged_fields r r' :
  relogged r r' ->
  rule_id r' = rule_id r /\ name r' = name r /\ payload r' = payload r /\
  contents_version r' = contents_version r /\ maturity r' = maturity r.
Proof. by intros [log ->]. Qed.

(** ** Changelog locking *)

Lemma same_ledgers_refl w : same_ledgers w w.
Proof. by repeat split. Qed.

Lemma same_ledgers_trans w1 w2 w3 :
  same_ledgers w1 w2 -> same_ledgers w2 w3 -> same_ledgers w1 w3.
Proof. intros (?&?&?) (?&?&?). repeat split; congruence. Qed.

Section ChangelogFacts.

Variable dict_hash : string -> string.
Variable changelog_note : string -> ChangeNote.
Variable get_version : World -> Rule -> Z.
Variable ChangelogEntry_Schema : ChangelogEntry -> option ChangelogEntry.
Variable production_rules : list Rule.

Local Abbreviation transfer_rule := (transfer_rule changelog_note get_version ChangelogEntry_Schema).
Local Abbreviation transfer_rules := (transfer_rules changelog_note get_version ChangelogEntry_Schema).
Local Abbreviation versions_locked := (versions_locked dict_hash production_rules).
Local Abbreviation update_and_lock :=
  (update_and_lock dict_hash changelog_note get_version ChangelogEntry_Schema production_rules).
Local Abbreviation unlocked := (unlocked dict_hash).

Lemma transfer_rule_frame dry_run r cl w r' cl' w' err :
  transfer_rule dry_run r cl w = (r', cl', w', err) ->
  relogged r r' /\ same_ledgers w w' /\ changelog_files w' = changelog_files w /\
  saved_rules w `prefix_of` saved_rules w'.
Proof.
  unfold transfer_rule. intros H.
  assert (relogged r (if dry_run then r else set_changelog r None)) as Hpop.
  { destruct dry_run; [apply relogged_refl | apply relogged_set]. }
  repeat case_match; simplify_eq; simpl;
    (split; [| split; [apply same_ledgers_refl || (by repeat split) |
                        split; [done | try done; by apply prefix_app_r]]]);
    try done;
    try (eapply relogged_trans; [exact Hpop|]; apply relogged_set);
    try (eapply relogged_trans; [exact Hpop|]; unfold append_changelog_entry; apply relogged_set).
Qed.

Lemma transfer_rules_frame dry_run rules cl w :
  let t := transfer_rules dry_run rules cl w in
  Forall2 relogged rules (t_rules t) /\ same_ledgers w (t_world t) /\
  changelog_files (t_world t) = changelog_files w /\
  saved_rules w `prefix_of` saved_rules (t_world t).
Proof.
  revert cl w. induction rules as [|r rules IH]; intros cl w; simpl.
  - repeat split; done.
  - destruct (transfer_rule dry_run r cl w) as [[[r' cl'] w'] err] eqn:Hstep.
    apply transfer_rule_frame in Hstep as (Hr & Hl & Hc & Hs).
    destruct err as [e|]; simpl.
    + repeat split; try apply Hl; try done.
      constructor; [done | apply Forall2_relogged_refl].
    + destruct (IH cl' w') as (Hrs & Hl' & Hc' & Hs').
      split; [by constructor|]. split; [by eapply same_ledgers_trans|].
      split; [congruence|]. by etrans.
Qed.

Lemma versions_locked_loop_relogged versions rules rules' :
  Forall2 relogged rules rules' ->
  versions_locked_loop dict_hash versions rules' = versions_locked_loop dict_hash versions rules.
Proof.
  induction 1 as [|r r' rules rules' Hr _ IH]; simpl; [done|].
  apply relogged_fields in Hr as (-> & _ & Hp & _). unfold get_hash. rewrite Hp.
  by rewrite IH.
Qed.

Lemma versions_locked_loop_false versions rules :
  versions_locked_loop dict_hash versions rules = false <->
  exists r, r ∈ rules /\ unlocked versions r.
Proof.
  unfold unlocked. induction rules as [|r rules IH]; simpl.
  - split; [done|]. intros (r & Hin & _). inversion Hin.
  - destruct (versions !! rule_id r) as [info|] eqn:Hlk.
    + destruct (decide (get_hash dict_hash r ≠ sha256 info)) as [Hne|Heq].
      * split; [|done]. intros _. exists r. rewrite Hlk. split; [left|done].
      * rewrite IH. split.
        -- intros (r0 & Hin & Hun). exists r0. split; [by right|done].
        -- intros (r0 & Hin & Hun). apply elem_of_cons in Hin as [->|Hin].
           ++ by rewrite Hlk in Hun.
           ++ by exists r0.
    + split; [|done]. intros _. exists r. rewrite Hlk. split; [left|done].
Qed.

Lemma update_and_lock_frame rules save_path dry_run w rules' w' res :
  update_and_lock rules save_path dry_run w = (rules', w', res) ->
  Forall2 relogged rules rules' /\ same_ledgers w w' /\
  saved_rules w `prefix_of` saved_rules w'.
Proof.
  unfold update_and_lock. intros H.
  destruct (load_changelog w) as [e|cl].
  { simplify_eq. split; [apply Forall2_relogged_refl|].
    split; [apply same_ledgers_refl | done]. }
  destruct (transfer_rules_frame dry_run rules cl w) as (Hrs & Hl & Hc & Hs).
  repeat case_match; simplify_eq; (split; [done|split; [|done]]); try done;
    destruct Hl as (?&?&?); by repeat split.
Qed.

End ChangelogFacts.

(** ** The version loop *)

Section VersionFacts.

Variable dict_hash : string -> string.

Local Abbreviation get_hash := (get_hash dict_hash).
Local Abbreviation version_rule := (version_rule dict_hash).
Local Abbreviation version_rules := (version_rules dict_hash).
Local Abbreviation expected := (expected dict_hash).

Lemma version_rule_view ex r st :
  ((version_rule ex r st).1, view (rule_id r) (version_rule ex r st).2)
  = expected ex r (view (rule_id r) st).
Proof.
  unfold version_rule, expected, view. simpl.
  destruct (current_versions st !! rule_id r) as [info|] eqn:Hlk; simpl.
  - destruct (decide (get_hash r ≠ sha256 info)); simpl.
    + rewrite lookup_insert_eq. do 3 f_equal.
      apply bool_decide_eq_true. apply elem_of_app. right. apply list_elem_of_singleton. done.
    + by rewrite Hlk.
  - by rewrite Hlk, dict_get_set_eq.
Qed.

Lemma version_rule_view_other ex r st j :
  j ≠ rule_id r -> view j (version_rule ex r st).2 = view j st.
Proof.
  intros Hne. unfold version_rule, view.
  destruct (current_versions st !! rule_id r) as [info|] eqn:Hlk; simpl.
  - destruct (decide (get_hash r ≠ sha256 info)); simpl; [|done].
    rewrite lookup_insert_ne by done. do 2 f_equal.
    apply bool_decide_ext. rewrite elem_of_app, list_elem_of_singleton. naive_solver.
  - by rewrite dict_get_set_ne.
Qed.

Lemma version_rules_cons ex r rules st :
  version_rules ex (r :: rules) st =
  ((version_rule ex r st).1 :: (version_rules ex rules (version_rule ex r st).2).1,
   (version_rules ex rules (version_rule ex r st).2).2).
Proof.
  simpl. destruct (version_rule ex r st) as [r' st']; simpl.
  by destruct (version_rules ex rules st').
Qed.

Lemma version_rules_view_other ex rules st j :
  j ∉ rule_id <$> rules -> view j (version_rules ex rules st).2 = view j st.
Proof.
  revert st. induction rules as [|r rules IH]; intros st Hnin; [done|].
  rewrite version_rules_cons. simpl.
  rewrite fmap_cons, not_elem_of_cons in Hnin. destruct Hnin as [Hne Hnin].
  rewrite IH by done. by apply version_rule_view_other.
Qed.

(** Under distinct ids, the loop treats the rule at every position as
    a single iteration on the initial state would. *)
Lemma version_rules_lookup ex rules st i r :
  NoDup (rule_id <$> rules) -> rules !! i = Some r ->
  exists r', (version_rules ex rules st).1 !! i = Some r' /\
    (r', view (rule_id r) (version_rules ex rules st).2) = expected ex r (view (rule_id r) st).
Proof.
  revert st i. induction rules as [|r0 rules IH]; intros st i Hnd Hi; [done|].
  rewrite fmap_cons in Hnd. apply NoDup_cons in Hnd as [Hnin Hnd].
  rewrite version_rules_cons. destruct i as [|i]; simpl in *.
  - simplify_eq. exists (version_rule ex r st).1. split; [done|].
    rewrite version_rules_view_other by done. apply version_rule_view.
  - destruct (IH (version_rule ex r0 st).2 i Hnd Hi) as (r' & Hr' & Hv).
    exists r'. split; [done|]. rewrite Hv. f_equal.
    apply version_rule_view_other. intros Heq. apply Hnin.
    rewrite <- Heq. apply list_elem_of_fmap. exists r. split; [done|].
    by eapply list_elem_of_lookup_2.
Qed.

Lemma version_rule_dom ex r st :
  dom (current_versions (version_rule ex r st).2) = dom (current_versions st).
Proof.
  unfold version_rule.
  destruct (current_versions st !! rule_id r) as [info|] eqn:Hlk; simpl; [|done].
  destruct (decide (get_hash r ≠ sha256 info)); simpl; [|done].
  rewrite dom_insert_L. apply elem_of_dom_2 in Hlk. set_solver.
Qed.

Lemma version_rules_dom ex rules st :
  dom (current_versions (version_rules ex rules st).2) = dom (current_versions st).
Proof.
  revert st. induction rules as [|r rules IH]; intros st; [done|].
  rewrite version_rules_cons. simpl. by rewrite IH, version_rule_dom.
Qed.

Lemma version_rules_new_keys_NoDup ex rules st :
  NoDup (dict_keys (new_rules st)) ->
  NoDup (dict_keys (new_rules (version_rules ex rules st).2)).
Proof.
  revert st. induction rules as [|r rules IH]; intros st Hnd; [done|].
  rewrite version_rules_cons. simpl. apply IH.
  unfold version_rule. repeat case_match; simpl; try done.
  by apply dict_set_keys_NoDup.
Qed.

(** The loop only assigns versions to the rule objects. *)
Lemma version_rules_versioned ex rules st :
  Forall2 (fun r r' => exists v, r' = set_version r v) rules (version_rules ex rules st).1.
Proof.
  revert st. induction rules as [|r rules IH]; intros st; [constructor|].
  rewrite version_rules_cons. simpl. constructor; [|apply IH].
  unfold version_rule. repeat case_match; simpl; eauto.
Qed.

End VersionFacts.

(** ** Reconciliation *)

Section ReconcileFacts.

Variable dict_hash : string -> string.
Variable changelog_note : string -> ChangeNote.
Variable get_version : World -> Rule -> Z.
Variable ChangelogEntry_Schema : ChangelogEntry -> option ChangelogEntry.
Variable production_rules : list Rule.
Variable CurrentSchema_STACK_VERSION : string.

Local Abbreviation get_hash := (get_hash dict_hash).
Local Abbreviation version_rules := (version_rules dict_hash).
Local Abbreviation manage_deprecations := (manage_deprecations CurrentSchema_STACK_VERSION).
Local Abbreviation update_and_lock :=
  (update_and_lock dict_hash changelog_note get_version ChangelogEntry_Schema production_rules).
Local Abbreviation manage_versions :=
  (manage_versions dict_hash changelog_note get_version ChangelogEntry_Schema
     production_rules CurrentSchema_STACK_VERSION).
Local Abbreviation settled := (settled dict_hash).
Local Abbreviation pending := (pending dict_hash).

Lemma load_versions_frame cva w :
  version_lock_json (load_versions cva w).2 = version_lock_json w /\
  deprecated_rules_json (load_versions cva w).2 = deprecated_rules_json w /\
  changelog_files (load_versions cva w).2 = changelog_files w /\
  saved_rules (load_versions cva w).2 = saved_rules w.
Proof. unfold load_versions. by repeat case_match. Qed.

Lemma commit_versions_frame cva cv w :
  version_lock_json (commit_versions cva cv w) = version_lock_json w /\
  deprecated_rules_json (commit_versions cva cv w) = deprecated_rules_json w /\
  changelog_files (commit_versions cva cv w) = changelog_files w /\
  saved_rules (commit_versions cva cv w) = saved_rules w.
Proof. unfold commit_versions. by case_match. Qed.

(** [manage_versions] in terms of its two loops. *)
Lemma manage_versions_parts rules deprecated cva ex add_new save today w :
  let o := manage_versions rules deprecated cva ex add_new save today w in
  let loop := version_rules ex rules
                {| current_versions := (load_versions cva w).1;
                   new_rules := []; changed_rules := [] |} in
  let dep := manage_deprecations today deprecated w in
  Forall2 relogged loop.1 (out_rules o) /\
  (save = false -> out_rules o = loop.1) /\
  (forall res, out_result o = inr res ->
     res = (changed_rules loop.2, dict_keys (new_rules loop.2), dep.2)) /\
  (save = false ->
     out_result o = inr (changed_rules loop.2, dict_keys (new_rules loop.2), dep.2)) /\
  out_versions o =
    (if lock_written add_new save loop.2
     then map_update (current_versions loop.2) (if add_new then new_rules loop.2 else [])
     else current_versions loop.2) /\
  version_lock_json (out_world o) =
    (if lock_written add_new save loop.2 then out_versions o else version_lock_json w) /\
  deprecated_rules_json (out_world o) =
    (if save && nonempty dep.2 then dep.1 else deprecated_rules_json w).
Proof.
  unfold manage_versions, lock_written. simpl.
  destruct (load_versions cva w) as [cv0 w0] eqn:Hload.
  pose proof (load_versions_frame cva w) as (Hf1 & Hf2 & _). rewrite Hload in Hf1, Hf2.
  simpl in *.
  destruct (version_rules ex rules _) as [rules1 st] eqn:Hloop. simpl.
  pose proof (commit_versions_frame cva (current_versions st) w0) as (Hc1 & Hc2 & _).
  assert (manage_deprecations today deprecated
            (commit_versions cva (current_versions st) w0)
          = manage_deprecations today deprecated w) as Hdep.
  { unfold manage_deprecations. by rewrite Hc2, Hf2. }
  rewrite Hdep. clear Hdep.
  destruct (manage_deprecations today deprecated w) as [deps newly] eqn:Hd. simpl.
  set (w1 := commit_versions cva (current_versions st) w0) in *.
  destruct save; simpl.
  - destruct (nonempty (changed_rules st) || nonempty (new_rules st) && add_new) eqn:Hw.
    + assert (nonempty (new_rules st) || nonempty (changed_rules st) || nonempty newly = true)
        as -> by (destruct (nonempty (new_rules st)), (nonempty (changed_rules st)),
                    add_new; done).
      destruct (update_and_lock rules1 CHANGELOG_FILE false _) as [[rules2 w4] res] eqn:Hu.
      apply update_and_lock_frame in Hu as (Hrel & (Hl1 & Hl2 & _) & _). simpl.
      pose proof (commit_versions_frame cva
        (map_update (current_versions st) (if add_new then new_rules st else [])) w1)
        as (_ & Hd2 & _).
      repeat split; try done.
      * intros r Hr. destruct res; by simplify_eq.
      * rewrite Hl1. by destruct (nonempty newly).
      * rewrite Hl2. destruct (nonempty newly); simpl; [done|].
        by rewrite Hd2, Hc2, Hf2.
    + destruct (nonempty (new_rules st) || nonempty (changed_rules st) || nonempty newly)
        eqn:Hany.
      * destruct (update_and_lock rules1 CHANGELOG_FILE false _) as [[rules2 w4] res] eqn:Hu.
        apply update_and_lock_frame in Hu as (Hrel & (Hl1 & Hl2 & _) & _). simpl.
        repeat split; try done.
        -- intros r Hr. destruct res; by simplify_eq.
        -- rewrite Hl1. destruct (nonempty newly); simpl; by rewrite Hc1, Hf1.
        -- rewrite Hl2. destruct (nonempty newly); simpl; [done|]. by rewrite Hc2, Hf2.
      * simpl. assert (nonempty newly = false) as ->
          by (destruct (nonempty (new_rules st)), (nonempty (changed_rules st)),
                (nonempty newly); done).
        repeat split; try done.
        -- apply Forall2_relogged_refl.
        -- intros r Hr. by simplify_eq.
        -- by rewrite Hc1, Hf1.
        -- by rewrite Hc2, Hf2.
  - pose proof (Forall2_relogged_refl rules1) as Hrefl.
    destruct (nonempty (new_rules st) || nonempty (changed_rules st) || nonempty newly);
      simpl; repeat split; try done;
      try (intros r Hr; by simplify_eq); try (by rewrite Hc1, Hf1); by rewrite Hc2, Hf2.
Qed.

Lemma nonempty_elem_of {A} (x : A) l : x ∈ l -> nonempty l = true.
Proof. destruct l; [intros H; inversion H | done]. Qed.

(** Under distinct ids, what a call leaves for the rule at a position:
    the rule object, the loop's view of its id, and its entry in the
    lock dictionary. *)
Lemma manage_versions_at rules deprecated cva ex add_new save today w i r :
  NoDup (rule_id <$> rules) -> rules !! i = Some r ->
  let o := manage_versions rules deprecated cva ex add_new save today w in
  let loop := version_rules ex rules
                {| current_versions := (load_versions cva w).1;
                   new_rules := []; changed_rules := [] |} in
  let e := expected dict_hash ex r ((load_versions cva w).1 !! rule_id r, None, false) in
  (exists r', out_rules o !! i = Some r' /\ relogged e.1 r') /\
  (save = false -> out_rules o !! i = Some e.1) /\
  view (rule_id r) loop.2 = e.2 /\
  out_versions o !! rule_id r =
    (if lock_written add_new save loop.2 && add_new
     then from_option Some e.2.1.1 e.2.1.2 else e.2.1.1).
Proof.
  intros Hnd Hi o loop e.
  destruct (manage_versions_parts rules deprecated cva ex add_new save today w)
    as (Hrel & Hnosave & _ & _ & Hout & _).
  fold o loop in Hrel, Hnosave, Hout.
  destruct (version_rules_lookup dict_hash ex rules
              {| current_versions := (load_versions cva w).1;
                 new_rules := []; changed_rules := [] |} i r Hnd Hi) as (r1 & Hr1 & Hview).
  fold loop in Hr1, Hview.
  assert ((r1, view (rule_id r) loop.2) = e) as He by (rewrite Hview; done).
  assert (e.1 = r1) as He1 by (by rewrite <- He).
  assert (e.2 = view (rule_id r) loop.2) as He2 by (by rewrite <- He).
  split; [|split; [|split]].
  - destruct (Forall2_lookup_l _ _ _ _ _ Hrel Hr1) as (r' & Hr' & Hrr).
    exists r'. by rewrite He1.
  - intros Hs. by rewrite Hnosave, He1.
  - done.
  - rewrite Hout, He2. unfold view. simpl.
    assert (NoDup (dict_keys (new_rules loop.2))) as Hkeys.
    { apply version_rules_new_keys_NoDup. simpl. constructor. }
    destruct (lock_written add_new save loop.2); simpl; [|done].
    destruct add_new; simpl.
    + rewrite map_update_lookup by done. by destruct (dict_get _ _).
    + done.
Qed.

(** C1: a rule that the lock holds with another hash gets the locked
    version plus one, its lock entry takes the new hash and the rule's
    name, and its id is returned as changed; the stored version number
    is bumped as well, except under [exclude_version_update], where it
    stays as it was.  When saving is asked for, the lock file holds the
    same entry.  Rule ids are taken to be distinct, as the rule set's
    invariant has it. *)
Theorem manage_versions_changed rules deprecated cva ex add_new save today w i r info :
  NoDup (rule_id <$> rules) ->
  rules !! i = Some r ->
  (load_versions cva w).1 !! rule_id r = Some info ->
  get_hash r ≠ sha256 info ->
  let o := manage_versions rules deprecated cva ex add_new save today w in
  let entry := {| rule_name := name r;
                  version := if ex then version info else version info + 1;
                  sha256 := get_hash r |} in
  (exists r', out_rules o !! i = Some r' /\ rule_id r' = rule_id r /\
     contents_version r' = Some (version info + 1)) /\
  out_versions o !! rule_id r = Some entry /\
  (forall c n d, out_result o = inr (c, n, d) -> rule_id r ∈ c) /\
  (save = false -> exists c n d, out_result o = inr (c, n, d) /\ rule_id r ∈ c) /\
  (save = true -> version_lock_json (out_world o) !! rule_id r = Some entry).
Proof.
  intros Hnd Hi Hinfo Hne o entry.
  destruct (manage_versions_at rules deprecated cva ex add_new save today w i r Hnd Hi)
    as ((r' & Hr' & Hrel) & _ & Hview & Hout).
  destruct (manage_versions_parts rules deprecated cva ex add_new save today w)
    as (_ & _ & Hres & Hnosave & _ & Hfile & _).
  fold o in Hr', Hout, Hres, Hnosave, Hfile.
  unfold expected in Hrel, Hview, Hout. simpl in Hrel, Hview, Hout.
  rewrite Hinfo in Hrel, Hview, Hout. rewrite decide_True in Hrel, Hview, Hout by done.
  simpl in Hrel, Hview, Hout.
  apply relogged_fields in Hrel as (Hid & _ & _ & Hver & _).
  unfold view in Hview. injection Hview as Hcur Hnew Hchg.
  apply bool_decide_eq_true in Hchg.
  assert (out_versions o !! rule_id r = Some entry) as Hout'.
  { rewrite Hout. by destruct (_ && _). }
  split; [by exists r'|]. split; [done|]. split; [|split].
  - intros c n d Hr. apply Hres in Hr. by simplify_eq.
  - intros Hs. eexists _, _, _. split; [by apply Hnosave|done].
  - intros ->. rewrite Hfile. unfold lock_written. simpl.
    by rewrite (nonempty_elem_of _ _ Hchg).
Qed.

(** C6: a rule that the lock holds with the same hash gets the locked
    version, is not returned as changed, and its lock entry stays as it
    was, in the dictionary and in the lock file.  Rule ids are taken to
    be distinct. *)
Theorem manage_versions_unchanged rules deprecated cva ex add_new save today w i r info :
  NoDup (rule_id <$> rules) ->
  rules !! i = Some r ->
  (load_versions cva w).1 !! rule_id r = Some info ->
  get_hash r = sha256 info ->
  let o := manage_versions rules deprecated cva ex add_new save today w in
  (exists r', out_rules o !! i = Some r' /\ rule_id r' = rule_id r /\
     contents_version r' = Some (version info)) /\
  out_versions o !! rule_id r = Some info /\
  (forall c n d, out_result o = inr (c, n, d) -> (rule_id r ∉ c) /\ (rule_id r ∉ n)) /\
  (version_lock_json (out_world o) !! rule_id r = Some info \/
   version_lock_json (out_world o) = version_lock_json w).
Proof.
  intros Hnd Hi Hinfo Heq o.
  destruct (manage_versions_at rules deprecated cva ex add_new save today w i r Hnd Hi)
    as ((r' & Hr' & Hrel) & _ & Hview & Hout).
  destruct (manage_versions_parts rules deprecated cva ex add_new save today w)
    as (_ & _ & Hres & _ & _ & Hfile & _).
  fold o in Hr', Hout, Hres, Hfile.
  unfold expected in Hrel, Hview, Hout. simpl in Hrel, Hview, Hout.
  rewrite Hinfo in Hrel, Hview, Hout. rewrite decide_False in Hrel, Hview, Hout by naive_solver.
  simpl in Hrel, Hview, Hout.
  apply relogged_fields in Hrel as (Hid & _ & _ & Hver & _).
  unfold view in Hview. injection Hview as Hcur Hnew Hchg.
  apply bool_decide_eq_false in Hchg.
  assert (out_versions o !! rule_id r = Some info) as Hout'.
  { rewrite Hout. by destruct (_ && _). }
  split; [by exists r'|]. split; [done|]. split.
  - intros c n d Hr. apply Hres in Hr. simplify_eq. split; [done|].
    by apply dict_get_None_keys.
  - rewrite Hfile. destruct (lock_written _ _ _); [by left | by right].
Qed.

(** C2, amended: a rule whose id the lock does not hold gets version 1
    and its id is returned among the new rules; the entry
    [{rule_name, version: 1, sha256}] made for it reaches the lock
    dictionary and the lock file only when [save_changes] and [add_new]
    are both set, and otherwise the lock dictionary keeps no entry for
    the rule.  Rule ids are taken to be distinct. *)
Theorem manage_versions_new rules deprecated cva ex add_new save today w i r :
  NoDup (rule_id <$> rules) ->
  rules !! i = Some r ->
  (load_versions cva w).1 !! rule_id r = None ->
  let o := manage_versions rules deprecated cva ex add_new save today w in
  let entry := {| rule_name := name r; version := 1; sha256 := get_hash r |} in
  (exists r', out_rules o !! i = Some r' /\ rule_id r' = rule_id r /\
     contents_version r' = Some 1) /\
  (forall c n d, out_result o = inr (c, n, d) -> rule_id r ∈ n /\ (rule_id r ∉ c)) /\
  (save = false -> exists c n d, out_result o = inr (c, n, d) /\ rule_id r ∈ n) /\
  (save && add_new = true ->
     out_versions o !! rule_id r = Some entry /\
     version_lock_json (out_world o) !! rule_id r = Some entry) /\
  (save && add_new = false -> out_versions o !! rule_id r = None).
Proof.
  intros Hnd Hi Hinfo o entry.
  destruct (manage_versions_at rules deprecated cva ex add_new save today w i r Hnd Hi)
    as ((r' & Hr' & Hrel) & _ & Hview & Hout).
  destruct (manage_versions_parts rules deprecated cva ex add_new save today w)
    as (_ & _ & Hres & Hnosave & _ & Hfile & _).
  fold o in Hr', Hout, Hres, Hnosave, Hfile.
  unfold expected in Hrel, Hview, Hout. simpl in Hrel, Hview, Hout.
  rewrite Hinfo in Hrel, Hview, Hout. simpl in Hrel, Hview, Hout.
  apply relogged_fields in Hrel as (Hid & _ & _ & Hver & _).
  unfold view in Hview. injection Hview as Hcur Hnew Hchg.
  apply bool_decide_eq_false in Hchg.
  assert (rule_id r ∈ dict_keys (new_rules (version_rules ex rules
            {| current_versions := (load_versions cva w).1;
               new_rules := []; changed_rules := [] |}).2)) as Hkey.
  { apply dict_get_keys. by rewrite Hnew. }
  assert (nonempty (new_rules (version_rules ex rules
            {| current_versions := (load_versions cva w).1;
               new_rules := []; changed_rules := [] |}).2) = true) as Hne.
  { destruct (new_rules _); [inversion Hkey | done]. }
  split; [by exists r'|]. split; [|split; [|split]].
  - intros c n d Hr. apply Hres in Hr. by simplify_eq.
  - intros Hs. eexists _, _, _. split; [by apply Hnosave|done].
  - intros [-> ->]%andb_true_iff.
    assert (lock_written true true (version_rules ex rules
              {| current_versions := (load_versions cva w).1;
                 new_rules := []; changed_rules := [] |}).2 = true) as Hw.
    { unfold lock_written. rewrite Hne. simpl. by rewrite orb_true_r. }
    rewrite Hw in Hout, Hfile. simpl in Hout. by rewrite Hfile.
  - intros Hsa. rewrite Hout.
    assert (lock_written add_new save (version_rules ex rules
              {| current_versions := (load_versions cva w).1;
                 new_rules := []; changed_rules := [] |}).2 && add_new = false) as ->; [|done].
    unfold lock_written. destruct save, add_new; simpl in *; try done.
    by rewrite andb_false_r.
Qed.

(** *** The deprecation registry *)

Lemma deprecate_rule_eq today r reg acc :
  deprecate_rule CurrentSchema_STACK_VERSION today r (reg, acc) =
  match reg !! rule_id r with
  | Some _ => (reg, acc)
  | None =>
      (<[rule_id r := {| dep_rule_name := name r; deprecation_date := today;
                         stack_version := CurrentSchema_STACK_VERSION |}]> reg,
       acc ++ [rule_id r])
  end.
Proof. done. Qed.

Lemma deprecate_fold today deprecated reg acc :
  let res := foldl (fun st rule => deprecate_rule CurrentSchema_STACK_VERSION today rule st)
               (reg, acc) deprecated in
  (forall j e, reg !! j = Some e -> res.1 !! j = Some e) /\
  (exists l, res.2 = acc ++ l /\ NoDup l /\
     forall j, j ∈ l <-> reg !! j = None /\ j ∈ rule_id <$> deprecated) /\
  (forall j e, reg !! j = None -> res.1 !! j = Some e ->
     deprecation_date e = today /\ stack_version e = CurrentSchema_STACK_VERSION /\
     exists r, r ∈ deprecated /\ rule_id r = j /\ dep_rule_name e = name r) /\
  (forall r, r ∈ deprecated -> is_Some (res.1 !! rule_id r)).
Proof.
  revert reg acc. induction deprecated as [|r0 rest IH]; intros reg acc; cbn [foldl].
  - simpl. split; [done|]. split.
    + exists []. rewrite app_nil_r. split; [done|]. split; [constructor|].
      intros j. split; [intros H; inversion H | intros [_ H]; inversion H].
    + split; [intros j e H1 H2; congruence | intros r H; inversion H].
  - rewrite deprecate_rule_eq.
    destruct (reg !! rule_id r0) as [e0|] eqn:Hlk.
    + destruct (IH reg acc) as (Hkeep & (l & Hl & Hnd & Hin) & Hnew & Hall).
      split; [done|]. split; [|split].
      * exists l. split; [done|]. split; [done|]. intros j. rewrite Hin.
        rewrite fmap_cons, elem_of_cons. split; [naive_solver|].
        intros [Hn [->|?]]; [congruence | done].
      * intros j e Hn He. destruct (Hnew j e Hn He) as (? & ? & r & ? & ? & ?).
        repeat split; try done. exists r. split; [by right | done].
      * intros r [->|Hr]%elem_of_cons; [|by apply Hall].
        rewrite (Hkeep _ _ Hlk). eauto.
    + set (e0 := {| dep_rule_name := name r0; deprecation_date := today;
                    stack_version := CurrentSchema_STACK_VERSION |}).
      destruct (IH (<[rule_id r0 := e0]> reg) (acc ++ [rule_id r0]))
        as (Hkeep & (l & Hl & Hnd & Hin) & Hnew & Hall).
      split; [|split; [|split]].
      * intros j e Hj. apply Hkeep. rewrite lookup_insert_ne; [done|]. congruence.
      * exists (rule_id r0 :: l). split; [by rewrite Hl, <- app_assoc|]. split.
        -- constructor; [|done]. rewrite Hin. rewrite lookup_insert_eq. naive_solver.
        -- intros j. rewrite elem_of_cons, Hin, fmap_cons, elem_of_cons.
           destruct (decide (j = rule_id r0)) as [->|Hne].
           ++ rewrite lookup_insert_eq. naive_solver.
           ++ rewrite lookup_insert_ne by done. naive_solver.
      * intros j e Hn He. destruct (decide (j = rule_id r0)) as [->|Hne].
        -- rewrite (Hkeep (rule_id r0) e0) in He by apply lookup_insert_eq.
           simplify_eq. repeat split; try done. exists r0. split; [left|done].
        -- destruct (Hnew j e) as (? & ? & r & ? & ? & ?); [by rewrite lookup_insert_ne|done|].
           repeat split; try done. exists r. split; [by right | done].
      * intros r [->|Hr]%elem_of_cons; [|by apply Hall].
        rewrite (Hkeep (rule_id r0) e0) by apply lookup_insert_eq. eauto.
Qed.

(** The ids found newly deprecated depend on the registry's ids only,
    not on the date. *)
Lemma deprecate_fold_ids today today' deprecated reg reg' acc :
  dom reg = dom reg' ->
  (foldl (fun st rule => deprecate_rule CurrentSchema_STACK_VERSION today rule st)
     (reg, acc) deprecated).2 =
  (foldl (fun st rule => deprecate_rule CurrentSchema_STACK_VERSION today' rule st)
     (reg', acc) deprecated).2.
Proof.
  revert reg reg' acc. induction deprecated as [|r0 rest IH]; intros reg reg' acc Hdom;
    cbn [foldl]; [done|].
  rewrite !deprecate_rule_eq.
  destruct (reg !! rule_id r0) as [e0|] eqn:Hlk.
  - assert (is_Some (reg' !! rule_id r0)) as [e1 ->].
    { apply elem_of_dom. rewrite <- Hdom. apply elem_of_dom. eauto. }
    by apply IH.
  - assert (reg' !! rule_id r0 = None) as ->.
    { apply not_elem_of_dom. rewrite <- Hdom. by apply not_elem_of_dom. }
    apply IH. by rewrite !dom_insert_L, Hdom.
Qed.

(** One call and the registry file: entries are kept as they are, ids
    are reported only when the registry lacks them, created entries
    carry today's date, and a saving call leaves every deprecated rule
    with an entry. *)
Lemma manage_versions_deprecations rules deprecated cva ex add_new save today w :
  let o := manage_versions rules deprecated cva ex add_new save today w in
  let reg := deprecated_rules_json w in
  let reg' := deprecated_rules_json (out_world o) in
  (forall j e, reg !! j = Some e -> reg' !! j = Some e) /\
  (forall c n d, out_result o = inr (c, n, d) ->
     NoDup d /\ forall j, j ∈ d -> reg !! j = None /\ j ∈ rule_id <$> deprecated) /\
  (forall j e, reg !! j = None -> reg' !! j = Some e ->
     deprecation_date e = today /\ stack_version e = CurrentSchema_STACK_VERSION /\
     exists r, r ∈ deprecated /\ rule_id r = j /\ dep_rule_name e = name r) /\
  (save = true -> forall r, r ∈ deprecated -> is_Some (reg' !! rule_id r)).
Proof.
  intros o reg reg'.
  destruct (manage_versions_parts rules deprecated cva ex add_new save today w)
    as (_ & _ & Hres & _ & _ & _ & Hfile).
  fold o in Hres, Hfile. fold reg reg' in Hfile.
  destruct deprecated as [|r0 rest].
  { simpl in Hfile, Hres. rewrite andb_false_r in Hfile. rewrite Hfile.
    split; [done|]. split; [|split].
    - intros c n d Hr. apply Hres in Hr. simplify_eq. split; [constructor|].
      intros j H. inversion H.
    - intros j e H1 H2. congruence.
    - intros _ r H. inversion H. }
  set (deprecated := r0 :: rest) in *.
  assert (manage_deprecations today deprecated w =
          foldl (fun st rule => deprecate_rule CurrentSchema_STACK_VERSION today rule st)
            (reg, []) deprecated) as Hdep by done.
  rewrite Hdep in Hfile, Hres.
  destruct (deprecate_fold today deprecated reg []) as (Hkeep & (l & Hl & Hnd & Hin) & Hnew & Hall).
  change ([] ++ l) with l in Hl. rewrite Hl in Hfile, Hres.
  split; [|split; [|split]].
  - intros j e Hj. rewrite Hfile. destruct (save && nonempty l); [by apply Hkeep | done].
  - intros c n d Hr. apply Hres in Hr. simplify_eq. split; [done|].
    intros j Hj. by apply Hin.
  - intros j e Hn He. rewrite Hfile in He.
    destruct (save && nonempty l); [by apply Hnew | congruence].
  - intros -> r Hr. rewrite Hfile. simpl. destruct l as [|j l]; simpl; [|by apply Hall].
    destruct (reg !! rule_id r) as [e|] eqn:Hlk; [eauto|].
    exfalso. assert (rule_id r ∈ @nil string) as H; [|inversion H].
    apply Hin. split; [done|]. apply list_elem_of_fmap. eauto.
Qed.

(** C5: the registry is append-only.  A call keeps every entry of the
    registry as it is and does not report its id; an entry is created
    only for a deprecated rule whose id the registry lacks, with the
    rule's name, today's date and the current stack version, and a call
    that does not save leaves the registry as it was; and after a saving
    call, another call with the same deprecated rules finds each of them
    in the registry, keeps its entry (date included) whatever the day,
    and does not report it as newly deprecated. *)
Theorem deprecation_append_only rules rules' deprecated cva cva' ex ex' add_new add_new'
    save save' today today' w :
  let o1 := manage_versions rules deprecated cva ex add_new save today w in
  let o2 := manage_versions rules' deprecated cva' ex' add_new' save' today' (out_world o1) in
  let reg := deprecated_rules_json w in
  let reg1 := deprecated_rules_json (out_world o1) in
  let reg2 := deprecated_rules_json (out_world o2) in
  (forall j e, reg !! j = Some e ->
     reg1 !! j = Some e /\ forall c n d, out_result o1 = inr (c, n, d) -> j ∉ d) /\
  (forall c n d, out_result o1 = inr (c, n, d) -> NoDup d) /\
  (forall j e, reg !! j = None -> reg1 !! j = Some e ->
     deprecation_date e = today /\ stack_version e = CurrentSchema_STACK_VERSION /\
     exists r, r ∈ deprecated /\ rule_id r = j /\ dep_rule_name e = name r) /\
  (save = false -> reg1 = reg) /\
  (save = true -> forall r, r ∈ deprecated ->
     exists e, reg1 !! rule_id r = Some e /\ reg2 !! rule_id r = Some e /\
       forall c n d, out_result o2 = inr (c, n, d) -> rule_id r ∉ d).
Proof.
  intros o1 o2 reg reg1 reg2.
  assert (save = false -> reg1 = reg) as Hnosave.
  { intros Hs. subst reg1 reg o2 o1. rewrite Hs.
    destruct (manage_versions_parts rules deprecated cva ex add_new false today w)
      as (_ & _ & _ & _ & _ & _ & Hfile).
    by rewrite Hfile. }
  destruct (manage_versions_deprecations rules deprecated cva ex add_new save today w)
    as (Hkeep1 & Hrep1 & Hnew1 & Hall1).
  destruct (manage_versions_deprecations rules' deprecated cva' ex' add_new' save' today'
              (out_world o1)) as (Hkeep2 & Hrep2 & _ & _).
  fold o1 in Hkeep1, Hrep1, Hnew1, Hall1, Hkeep2, Hrep2.
  fold o2 in Hkeep2, Hrep2. fold reg reg1 in Hkeep1, Hrep1, Hnew1, Hall1.
  fold reg1 reg2 in Hkeep2, Hrep2.
  split; [|split; [|split; [|split]]].
  - intros j e Hj. split; [by apply Hkeep1|].
    intros c n d Hr Hin. destruct (Hrep1 c n d Hr) as [_ H].
    destruct (H j Hin) as [Hnone _]. congruence.
  - intros c n d Hr. by destruct (Hrep1 c n d Hr).
  - done.
  - done.
  - intros Hs r Hr. destruct (Hall1 Hs r Hr) as [e He]. exists e.
    split; [done|]. split; [by apply Hkeep2|].
    intros c n d Hres Hin. destruct (Hrep2 c n d Hres) as [_ H].
    destruct (H _ Hin) as [Hnone _]. congruence.
Qed.

(** *** Calling twice *)

Lemma set_version_same r v : contents_version r = Some v -> set_version r v = r.
Proof. destruct r; simpl. by intros ->. Qed.

Lemma version_rules_settled ex rules st :
  Forall (settled (current_versions st)) rules ->
  (version_rules ex rules st).1 = rules /\
  current_versions (version_rules ex rules st).2 = current_versions st /\
  changed_rules (version_rules ex rules st).2 = changed_rules st.
Proof.
  revert st. induction rules as [|r rules IH]; intros st Hall; [done|].
  apply Forall_cons in Hall as [Hr Hall].
  rewrite version_rules_cons. simpl.
  assert ((version_rule dict_hash ex r st).1 = r /\
          current_versions (version_rule dict_hash ex r st).2 = current_versions st /\
          changed_rules (version_rule dict_hash ex r st).2 = changed_rules st)
    as (H1 & H2 & H3).
  { unfold settled in Hr. unfold version_rule.
    destruct (current_versions st !! rule_id r) as [info|]; simpl.
    - destruct Hr as [Hh Hv]. rewrite decide_False by (by rewrite Hh; intros H; apply H).
      simpl. by rewrite set_version_same.
    - by rewrite set_version_same. }
  destruct (IH (version_rule dict_hash ex r st).2) as (H4 & H5 & H6); [by rewrite H2|].
  rewrite H1, H4, H5, H6. done.
Qed.

Lemma version_rules_pending ex rules st :
  new_rules (version_rules ex rules st).2
  = pending (dom (current_versions st)) rules (new_rules st).
Proof.
  revert st. induction rules as [|r rules IH]; intros st; [done|].
  rewrite version_rules_cons. simpl. rewrite IH, version_rule_dom. f_equal.
  unfold version_rule.
  destruct (current_versions st !! rule_id r) as [info|] eqn:Hlk; simpl.
  - destruct (decide (rule_id r ∈ dom (current_versions st))) as [_|Hn].
    + by destruct (decide (get_hash r ≠ sha256 info)).
    + exfalso. apply Hn. by eapply elem_of_dom_2.
  - destruct (decide (rule_id r ∈ dom (current_versions st))) as [Hin|_]; [|done].
    exfalso. by apply not_elem_of_dom in Hlk.
Qed.

Lemma pending_versioned known rules rules' n :
  Forall2 (fun r r' => exists v, r' = set_version r v) rules rules' ->
  pending known rules' n = pending known rules n.
Proof.
  intros H. revert n. induction H as [|r r' rules rules' [v ->] _ IH]; intros n; [done|].
  simpl. apply IH.
Qed.

(** Without [exclude_version_update] and under distinct ids, the loop
    leaves every rule object settled with respect to the dictionary it
    leaves. *)
Lemma version_rules_settles rules cv0 :
  NoDup (rule_id <$> rules) ->
  let loop := version_rules false rules
                {| current_versions := cv0; new_rules := []; changed_rules := [] |} in
  Forall (settled (current_versions loop.2)) loop.1.
Proof.
  intros Hnd loop. apply Forall_lookup. intros i r1 Hr1.
  pose proof (version_rules_versioned dict_hash false rules
    {| current_versions := cv0; new_rules := []; changed_rules := [] |}) as Hver.
  fold loop in Hver.
  destruct (Forall2_lookup_r _ _ _ _ _ Hver Hr1) as (r & Hr & _).
  destruct (version_rules_lookup dict_hash false rules
    {| current_versions := cv0; new_rules := []; changed_rules := [] |} i r Hnd Hr)
    as (r' & Hr' & Hview).
  fold loop in Hr', Hview. rewrite Hr1 in Hr'. injection Hr' as <-.
  unfold expected, view in Hview. simpl in Hview. unfold settled.
  destruct (cv0 !! rule_id r) as [info|] eqn:Hlk; simpl in Hview.
  - destruct (decide (get_hash r ≠ sha256 info)) as [Hne|Heq];
      injection Hview as -> Hcur _ _; simpl; rewrite Hcur; simpl; [done|].
    split; [|done]. unfold get_hash. simpl.
    by destruct (decide (dict_hash (payload r) = sha256 info)); [|exfalso; auto].
  - injection Hview as -> Hcur _ _. simpl. by rewrite Hcur.
Qed.

Lemma manage_versions_nosave rules deprecated cva ex add_new today w :
  let loop := version_rules ex rules
                {| current_versions := (load_versions cva w).1;
                   new_rules := []; changed_rules := [] |} in
  manage_versions rules deprecated cva ex add_new false today w =
  {| out_rules := loop.1;
     out_versions := current_versions loop.2;
     out_world := commit_versions cva (current_versions loop.2) (load_versions cva w).2;
     out_result := inr (changed_rules loop.2, dict_keys (new_rules loop.2),
                        (manage_deprecations today deprecated
                           (commit_versions cva (current_versions loop.2)
                              (load_versions cva w).2)).2) |}.
Proof.
  unfold manage_versions. simpl.
  destruct (load_versions cva w) as [cv0 w0]. simpl.
  destruct (version_rules ex rules _) as [rules1 st]. simpl.
  destruct (manage_deprecations today deprecated _) as [deps newly]. simpl.
  by destruct (_ || _).
Qed.

(** The next call with the same argument gets the dictionary the call
    before it worked on: the memoised object, or the caller's own. *)
Lemma load_versions_again cva cv w :
  dom cv = dom (load_versions cva w).1 ->
  let w' := commit_versions cva cv (load_versions cva w).2 in
  load_versions (if uses_cache cva then cva else Some cv) w' = (cv, w').
Proof.
  intros Hdom. unfold commit_versions, load_versions in *.
  destruct (uses_cache cva) eqn:Hc; simpl.
  - rewrite Hc. by destruct (versions_cache w).
  - assert (cv ≠ ∅) as Hne.
    { destruct cva as [c0|]; [|done]. simpl in *. apply bool_decide_eq_false in Hc.
      intros ->. rewrite dom_empty_L in Hdom. symmetry in Hdom.
      by apply dom_empty_iff_L in Hdom. }
    by rewrite bool_decide_eq_false_2.
Qed.

(** C3, amended: without [exclude_version_update] and without saving,
    a second call on the rule objects and the lock dictionary the first
    call left returns the same new rules and newly deprecated rules and
    leaves every rule object and the lock dictionary as the first call
    left them, so no version is incremented twice; but it returns no
    changed rule, as the first call has already put the new hashes into
    the lock dictionary.  Rule ids are taken to be distinct. *)
Theorem manage_versions_twice rules deprecated cva add_new add_new' today today' w :
  NoDup (rule_id <$> rules) ->
  let o1 := manage_versions rules deprecated cva false add_new false today w in
  let cva' := if uses_cache cva then cva else Some (out_versions o1) in
  let o2 := manage_versions (out_rules o1) deprecated cva' false add_new' false today'
              (out_world o1) in
  exists c n d,
    out_result o1 = inr (c, n, d) /\ out_result o2 = inr ([], n, d) /\
    out_rules o2 = out_rules o1 /\ out_versions o2 = out_versions o1.
Proof.
  intros Hnd o1 cva' o2. subst o2 cva' o1.
  rewrite (manage_versions_nosave rules). simpl.
  set (loop := version_rules false rules
                 {| current_versions := (load_versions cva w).1;
                    new_rules := []; changed_rules := [] |}).
  set (w1 := commit_versions cva (current_versions loop.2) (load_versions cva w).2).
  rewrite manage_versions_nosave. simpl.
  assert (dom (current_versions loop.2) = dom (load_versions cva w).1) as Hdom.
  { unfold loop. by rewrite version_rules_dom. }
  pose proof (load_versions_again cva (current_versions loop.2) w Hdom) as Hload.
  fold w1 in Hload. simpl in Hload. rewrite Hload. simpl.
  pose proof (version_rules_settles rules (load_versions cva w).1 Hnd) as Hset.
  fold loop in Hset.
  destruct (version_rules_settled false loop.1
              {| current_versions := current_versions loop.2;
                 new_rules := []; changed_rules := [] |} Hset) as (H1 & H2 & H3).
  simpl in H2, H3. rewrite H1, H2, H3.
  assert (new_rules (version_rules false loop.1
            {| current_versions := current_versions loop.2;
               new_rules := []; changed_rules := [] |}).2 = new_rules loop.2) as Hnew.
  { rewrite version_rules_pending. simpl. unfold loop at 3.
    rewrite version_rules_pending. simpl. rewrite Hdom.
    apply pending_versioned. apply version_rules_versioned. }
  assert ((manage_deprecations today' deprecated
             (commit_versions
                (if uses_cache cva then cva else Some (current_versions loop.2))
                (current_versions loop.2) w1)).2
          = (manage_deprecations today deprecated w1).2) as Hdep.
  { unfold manage_deprecations. destruct deprecated as [|r0 rest]; [done|].
    apply deprecate_fold_ids.
    by destruct (commit_versions_frame
                   (if uses_cache cva then cva else Some (current_versions loop.2))
                   (current_versions loop.2) w1) as (_ & -> & _). }
  eexists _, _, _. split; [done|]. split; [|done].
  by rewrite Hnew, Hdep.
Qed.

(** *** Locking the changelog *)

Local Abbreviation transfer_rule :=
  (transfer_rule changelog_note get_version ChangelogEntry_Schema).
Local Abbreviation transfer_rules :=
  (transfer_rules changelog_note get_version ChangelogEntry_Schema).
Local Abbreviation versions_locked := (versions_locked dict_hash production_rules).

Lemma versions_locked_relogged rules rules' w w' :
  rules ≠ [] -> Forall2 relogged rules rules' ->
  version_lock_json w' = version_lock_json w ->
  versions_locked rules' w' = versions_locked_loop dict_hash (version_lock_json w) rules.
Proof.
  intros Hne Hrel Hw. unfold versions_locked, load_versions_bypass_cache. rewrite Hw.
  destruct Hrel as [|r r' rules rules' Hr Hrs]; [done|].
  apply versions_locked_loop_relogged. by constructor.
Qed.

(** C4: locking the changelog at the default path, not as a dry run,
    raises and leaves every changelog file as it was, whenever some rule
    of the set has no entry in the lock file or an entry with another
    hash. *)
Theorem update_and_lock_requires_lock rules w r rules' w' res :
  r ∈ rules ->
  (version_lock_json w !! rule_id r = None \/
   exists info, version_lock_json w !! rule_id r = Some info /\ get_hash r ≠ sha256 info) ->
  update_and_lock rules CHANGELOG_FILE false w = (rules', w', res) ->
  raised res = true /\ changelog_files w' = changelog_files w.
Proof.
  intros Hin Hun Hcall.
  assert (versions_locked_loop dict_hash (version_lock_json w) rules = false) as Hloop.
  { apply versions_locked_loop_false. exists r. split; [done|]. unfold unlocked.
    destruct Hun as [->|(info & -> & Hne)]; done. }
  assert (rules ≠ []) as Hne by (intros ->; inversion Hin).
  unfold update_and_lock in Hcall.
  destruct (load_changelog w) as [e|cl]; [by simplify_eq|].
  destruct (transfer_rules_frame changelog_note get_version ChangelogEntry_Schema
              false rules cl w) as (Hrel & (Hl & _) & Hc & _).
  destruct (t_error _) as [e|]; [by simplify_eq|].
  destruct (decide (CHANGELOG_FILE = CHANGELOG_FILE)); [|done].
  rewrite (versions_locked_relogged rules _ w _ Hne Hrel Hl), Hloop in Hcall.
  by simplify_eq.
Qed.

Lemma transfer_rule_drained r cl w r' cl' w' :
  transfer_rule false r cl w = (r', cl', w', None) ->
  substantive (default [] (changelog r)) ≠ [] ->
  changelog r' = (if decide (maturity r = "deprecated"%string) then None
                  else Some [changelog_note "_version_locked_"]) /\
  saved_rules w' = saved_rules w ++ [r'].
Proof.
  unfold transfer_rule. intros H Hsub.
  destruct (substantive (default [] (changelog r))) as [|c chg]; [done|].
  destruct (minimum_kibana_version r); [|done].
  destruct (ChangelogEntry_Schema _); [|done].
  simpl in H. destruct (decide (maturity r = "deprecated"%string)); by simplify_eq.
Qed.

Lemma transfer_rules_drained rules cl w i r :
  let t := transfer_rules false rules cl w in
  t_error t = None -> rules !! i = Some r ->
  substantive (default [] (changelog r)) ≠ [] ->
  exists r', t_rules t !! i = Some r' /\ rule_id r' = rule_id r /\
    changelog r' = (if decide (maturity r = "deprecated"%string) then None
                    else Some [changelog_note "_version_locked_"]) /\
    r' ∈ saved_rules (t_world t).
Proof.
  revert cl w i. induction rules as [|r0 rules IH]; intros cl w i; [done|].
  simpl. destruct (transfer_rule false r0 cl w) as [[[r0' cl'] w0'] err] eqn:Hstep.
  destruct err as [e|]; [done|]. simpl. intros Herr Hi Hsub.
  destruct i as [|i]; simpl in *.
  - simplify_eq. exists r0'.
    destruct (transfer_rule_frame _ _ _ _ _ _ _ _ _ _ _ Hstep) as (Hrel & _).
    apply relogged_fields in Hrel as (Hid & _).
    destruct (transfer_rule_drained _ _ _ _ _ _ Hstep Hsub) as (Hlog & Hsaved).
    repeat split; try done.
    destruct (transfer_rules_frame changelog_note get_version ChangelogEntry_Schema
                false rules cl' w0') as (_ & _ & _ & Hpre).
    eapply elem_of_prefix; [|exact Hpre]. rewrite Hsaved.
    apply elem_of_app. right. by apply list_elem_of_singleton.
  - by apply IH.
Qed.

(** C10: outside a dry run the per-rule loop has popped the local logs
    and saved the rule files before the lock is checked.  So when the
    check fails (the call raises the assertion), the path is the default
    one, no changelog file is written, and every rule that had
    substantive pending notes has lost them (its local log is the lone
    [_version_locked_] note, or absent for a deprecated rule) and has
    been saved in that state.  With another path the lock is not checked:
    the call never raises the assertion, and when it returns the
    changelog is written at that path. *)
Theorem update_and_lock_not_atomic rules save_path w rules' w' res :
  update_and_lock rules save_path false w = (rules', w', res) ->
  (forall msg, res = inl (AssertionError msg) ->
     save_path = CHANGELOG_FILE /\
     versions_locked rules' w' = false /\
     changelog_files w' = changelog_files w /\
     forall i r, rules !! i = Some r ->
       substantive (default [] (changelog r)) ≠ [] ->
       exists r', rules' !! i = Some r' /\ rule_id r' = rule_id r /\
         changelog r' = (if decide (maturity r = "deprecated"%string) then None
                         else Some [changelog_note "_version_locked_"]) /\
         r' ∈ saved_rules w') /\
  (res = inr tt -> is_Some (changelog_files w' !! save_path)) /\
  (save_path ≠ CHANGELOG_FILE -> forall msg, res ≠ inl (AssertionError msg)).
Proof.
  unfold update_and_lock. intros Hcall.
  destruct (load_changelog w) as [e|cl] eqn:Hload.
  { injection Hcall as <- <- <-.
    assert (forall msg, e ≠ AssertionError msg) as Hna.
    { intros msg ->. unfold load_changelog in Hload.
      destruct (changelog_files w !! CHANGELOG_FILE); simplify_eq. }
    split; [|split]; try done.
    - intros msg Hm. injection Hm as ->. by destruct (Hna msg).
    - intros _ msg Hm. injection Hm as ->. by destruct (Hna msg). }
  pose proof (transfer_rules_frame changelog_note get_version ChangelogEntry_Schema
                false rules cl w) as (Hrel & _ & Hc & _).
  pose proof (transfer_rules_drained rules cl w) as Hdr. simpl in Hdr.
  destruct (t_error (transfer_rules false rules cl w)) as [e|] eqn:Herr.
  { injection Hcall as <- <- <-.
    assert (forall msg, e ≠ AssertionError msg) as Hna.
    { intros msg ->. clear Hrel Hc Hdr Hload. revert cl w Herr.
      induction rules as [|r0 rules IH]; intros cl w; simpl; [done|].
      destruct (transfer_rule false r0 cl w) as [[[r0' cl'] w0'] err] eqn:Hstep.
      destruct err as [e|]; simpl; [|by apply IH].
      intros He. injection He as ->. unfold transfer_rule in Hstep.
      repeat case_match; simplify_eq. }
    split; [|split]; try done.
    - intros msg Hm. injection Hm as ->. by destruct (Hna msg).
    - intros _ msg Hm. injection Hm as ->. by destruct (Hna msg). }
  destruct (decide (save_path = CHANGELOG_FILE)) as [->|Hpath].
  - destruct (versions_locked _ _) eqn:Hlocked; injection Hcall as <- <- <-.
    + split; [done|]. split; [|done]. intros _. simpl. rewrite lookup_insert_eq. eauto.
    + split; [|done]. intros msg _. repeat split; try done.
      intros i r Hi Hsub. by apply Hdr.
  - injection Hcall as <- <- <-. split; [done|]. split; [|done].
    intros _. simpl. rewrite lookup_insert_eq. eauto.
Qed.

End ReconcileFacts.

(** ** Schema downgrade *)

Section SchemaFacts.

Variable Schema : Type.
Variable STACK_VERSION : Schema -> string.
Variable versioned : Schema -> Schema.
Variable Value : Type.
Variable schema_downgrade :
  Schema -> Schema -> gmap string Value -> option Value -> Exc (gmap string Value).
Variable Version : string -> list VersionPart.
Variable all_schemas : list Schema.

Local Abbreviation downgrade_loop :=
  (downgrade_loop Schema STACK_VERSION versioned Value schema_downgrade Version).
Local Abbreviation downgrade :=
  (downgrade Schema STACK_VERSION versioned Value schema_downgrade Version all_schemas).

(** An exception of the chain walk is the exception of one of its steps. *)
Lemma downgrade_loop_raises check_versioned target role schemas current_schema api_contents e :
  downgrade_loop check_versioned target role schemas current_schema api_contents = inl e ->
  exists cs ts p, schema_downgrade cs ts p role = inl e.
Proof.
  revert current_schema api_contents.
  induction schemas as [|s schemas IH]; intros current_schema api_contents; simpl; [done|].
  destruct current_schema as [cs|].
  - destruct (schema_downgrade cs _ api_contents role) as [e'|p'] eqn:Hstep.
    + intros H. simplify_eq. eauto.
    + destruct (decide _); [done|]. apply IH.
  - destruct (decide _); [done|]. apply IH.
Qed.

Lemma downgrade_loop_returns check_versioned target role schemas current_schema api_contents :
  (forall cs ts p r, raised (schema_downgrade cs ts p r) = false) ->
  exists p', downgrade_loop check_versioned target role schemas current_schema api_contents
             = inr p'.
Proof.
  intros Htotal.
  destruct (downgrade_loop check_versioned target role schemas current_schema api_contents)
    as [e|p'] eqn:Hloop; [|eauto].
  apply downgrade_loop_raises in Hloop as (cs & ts & p & Hstep).
  specialize (Htotal cs ts p role). by rewrite Hstep in Htotal.
Qed.

(** A target that is the version of the newest schema stops the walk
    at its first schema: no step runs and the payload is returned as it
    came. *)
Lemma downgrade_current api_contents target_version newest older :
  reverse all_schemas = newest :: older ->
  take 2 (Version target_version)
    ∈ (fun schema_cls => Version (STACK_VERSION schema_cls)) <$> all_schemas ->
  Version (STACK_VERSION
             (if bool_decide (is_Some (api_contents !! "version"%string))
              then versioned newest else newest))
    = take 2 (Version target_version) ->
  downgrade api_contents target_version = inr api_contents.
Proof.
  intros Hrev Hin Hcur. unfold downgrade.
  rewrite decide_False by (intros H; by apply H).
  rewrite Hrev. simpl. by rewrite decide_True.
Qed.

(** C7: a target whose first two components are the version of no
    schema of the chain makes [downgrade] raise, whatever the payload,
    and nothing is returned; for a target whose first two components are
    the version of a schema of the chain, [downgrade] raises only what
    one of the schemas' own steps raises, and returns a payload when the
    steps do not raise. *)
Theorem downgrade_target api_contents target_version :
  let versions := (fun schema_cls => Version (STACK_VERSION schema_cls)) <$> all_schemas in
  (take 2 (Version target_version) ∉ versions ->
     downgrade api_contents target_version
     = inl (unable_to_downgrade Schema STACK_VERSION all_schemas target_version)) /\
  (take 2 (Version target_version) ∈ versions ->
     (forall e, downgrade api_contents target_version = inl e ->
        exists cs ts p role, schema_downgrade cs ts p role = inl e) /\
     ((forall cs ts p r, raised (schema_downgrade cs ts p r) = false) ->
        exists p', downgrade api_contents target_version = inr p')).
Proof.
  intros versions. unfold downgrade. fold versions. split.
  - intros Hnot. by rewrite decide_True.
  - intros Hin. rewrite decide_False by (intros H; by apply H). split.
    + intros e He. apply downgrade_loop_raises in He as (cs & ts & p & Hstep). eauto.
    + apply downgrade_loop_returns.
Qed.

End SchemaFacts.

(** ** Rule loading *)

Lemma insert_by_name_perm r l : insert_by_name r l ≡ₚ r :: l.
Proof.
  induction l as [|x l IH]; simpl; [done|].
  destruct (String.leb (name r) (name x)); [done|].
  rewrite IH. apply Permutation_swap.
Qed.

Lemma sorted_by_name_perm l : sorted_by_name l ≡ₚ l.
Proof.
  unfold sorted_by_name. induction l as [|r l IH]; simpl; [done|].
  by rewrite insert_by_name_perm, IH.
Qed.

Section LoaderFacts.

Variable RuleContents : Type.
Variable Rule_init : string -> RuleContents -> Exc Rule.
Variable duplicate_key : Rule -> Exc (option string).
Variable load_rule_files : Exc (list (string * RuleContents)).

Local Abbreviation try_rule := (try_rule RuleContents Rule_init duplicate_key).
Local Abbreviation load_loop := (load_loop RuleContents Rule_init duplicate_key).
Local Abbreviation files_to_load := (files_to_load RuleContents load_rule_files).
Local Abbreviation load_rules :=
  (load_rules RuleContents Rule_init duplicate_key load_rule_files).

Lemma add_rule_inv st rule :
  loader_inv st -> rule_id rule ∉ rule_ids st -> name rule ∉ rule_names st ->
  loader_inv (add_rule st rule).
Proof.
  intros (Hid & Hnm & Hids & Hnames) Hi Hn. unfold loader_inv. simpl.
  rewrite !fmap_app. simpl. repeat split.
  - apply NoDup_app. split; [done|]. split; [|apply NoDup_singleton].
    intros j Hj ->%list_elem_of_singleton. apply Hi. by apply Hids.
  - apply NoDup_app. split; [done|]. split; [|apply NoDup_singleton].
    intros j Hj ->%list_elem_of_singleton. apply Hn. by apply Hnames.
  - rewrite elem_of_union, elem_of_singleton, elem_of_app, list_elem_of_singleton, Hids. done.
  - rewrite elem_of_union, elem_of_singleton, elem_of_app, list_elem_of_singleton, Hids. done.
  - rewrite elem_of_union, elem_of_singleton, elem_of_app, list_elem_of_singleton, Hnames. done.
  - rewrite elem_of_union, elem_of_singleton, elem_of_app, list_elem_of_singleton, Hnames. done.
Qed.

(** What one [try] block does: it raises and loads nothing, or it
    loads the constructed rule, whose id and name were not seen. *)
Lemma try_rule_cases rule_file rule_contents st st' err :
  try_rule rule_file rule_contents st = (st', err) ->
  (is_Some err /\ loaded st' = loaded st /\ rule_ids st' = rule_ids st /\
   rule_names st' = rule_names st) \/
  (err = None /\ exists rule, Rule_init rule_file rule_contents = inr rule /\
     (rule_id rule ∉ rule_ids st) /\ (name rule ∉ rule_names st) /\
     loaded st' = loaded st ++ [rule] /\
     rule_ids st' = rule_ids st ∪ {[rule_id rule]} /\
     rule_names st' = rule_names st ∪ {[name rule]}).
Proof.
  unfold try_rule. intros H.
  destruct (Rule_init rule_file rule_contents) as [e|rule]; [left; by simplify_eq|].
  destruct (decide (rule_id rule ∈ rule_ids st)); [left; by simplify_eq|].
  destruct (decide (name rule ∈ rule_names st)); [left; by simplify_eq|].
  destruct (duplicate_key rule) as [e|key]; [left; by simplify_eq|].
  destruct key as [k|].
  - destruct (decide (k ∈ queries st)); [left; by simplify_eq|].
    destruct (matches_FILE_PATTERN _); [|left; by simplify_eq].
    right. simplify_eq. split; [done|]. exists rule. by repeat split.
  - destruct (matches_FILE_PATTERN _); [|left; by simplify_eq].
    right. simplify_eq. split; [done|]. exists rule. by repeat split.
Qed.

Lemma try_rule_inv rule_file rule_contents st st' err :
  try_rule rule_file rule_contents st = (st', err) -> loader_inv st -> loader_inv st'.
Proof.
  intros H Hinv. apply try_rule_cases in H as [(_ & Hl & Hi & Hn)|(_ & rule & _ & Hi & Hn & Hl & Hids & Hnames)].
  - unfold loader_inv in *. by rewrite Hl, Hi, Hn.
  - pose proof (add_rule_inv st rule Hinv Hi Hn) as Hadd.
    unfold loader_inv in *. simpl in Hadd. by rewrite Hl, Hids, Hnames.
Qed.

Lemma load_loop_inv error files st st' :
  load_loop error files st = inr st' -> loader_inv st -> loader_inv st'.
Proof.
  revert st. induction files as [|[rule_file rule_contents] files IH]; intros st; simpl.
  - intros H. by simplify_eq.
  - destruct (try_rule rule_file rule_contents st) as [st1 [e|]] eqn:Htry.
    + destruct error; [done|]. intros H Hinv. apply (IH _ H).
      apply try_rule_inv in Htry; [|done]. done.
    + intros H Hinv. apply (IH _ H). by eapply try_rule_inv.
Qed.

Lemma empty_loader_inv : loader_inv empty_loader.
Proof. unfold loader_inv. simpl. repeat split; try constructor; set_solver. Qed.

Lemma ordered_dict_distinct d0 rules :
  NoDup (dict_keys d0 ++ (rule_id <$> rules)) ->
  foldl (fun d rule => dict_set (rule_id rule) rule d) d0 rules
  = d0 ++ ((fun rule => (rule_id rule, rule)) <$> rules).
Proof.
  revert d0. induction rules as [|r rules IH]; intros d0 Hnd; simpl.
  - by rewrite app_nil_r.
  - rewrite fmap_cons in Hnd.
    assert (rule_id r ∉ dict_keys d0) as Hfresh.
    { apply NoDup_app in Hnd as (_ & Hdis & _). intros Hin. apply (Hdis _ Hin). left. }
    rewrite dict_set_fresh by done. rewrite IH.
    + by rewrite <- app_assoc.
    + unfold dict_keys in *. rewrite fmap_app. simpl. rewrite <- app_assoc. done.
Qed.



(** Without [error], the loop skips the failing files and goes on. *)
Lemma load_loop_lenient files st : exists st', load_loop false files st = inr st'.
Proof.
  revert st. induction files as [|[f c] files IH]; intros st; simpl; [by eexists|].
  destruct (try_rule f c st) as [st1 [e|]]; apply IH.
Qed.

Lemma load_loop_agree files st st' :
  load_loop true files st = inr st' -> load_loop false files st = inr st'.
Proof.
  revert st. induction files as [|[f c] files IH]; intros st; simpl; [done|].
  destruct (try_rule f c st) as [st1 [e|]]; [done|apply IH].
Qed.




End LoaderFacts.

(** * Further properties *)

(** ** Reconciliation beyond single rules *)

Lemma dict_set_keys {V} (k j : string) (v : V) d :
  j ∈ dict_keys (dict_set k v d) <-> j = k \/ j ∈ dict_keys d.
Proof.
  rewrite !dict_get_keys. destruct (decide (k = j)) as [->|Hne].
  - rewrite dict_get_set_eq. split; eauto.
  - rewrite dict_get_set_ne by done. split; [by right|]. by intros [->|?].
Qed.

Section ReconcileMore.

Variable dict_hash : string -> string.
Variable changelog_note : string -> ChangeNote.
Variable get_version : World -> Rule -> Z.
Variable ChangelogEntry_Schema : ChangelogEntry -> option ChangelogEntry.
Variable production_rules : list Rule.
Variable CurrentSchema_STACK_VERSION : string.

Local Abbreviation get_hash := (get_hash dict_hash).
Local Abbreviation version_rule := (version_rule dict_hash).
Local Abbreviation version_rules := (version_rules dict_hash).
Local Abbreviation versions_locked := (versions_locked dict_hash production_rules).
Local Abbreviation transfer_rule :=
  (transfer_rule changelog_note get_version ChangelogEntry_Schema).
Local Abbreviation transfer_rules :=
  (transfer_rules changelog_note get_version ChangelogEntry_Schema).
Local Abbreviation update_and_lock :=
  (update_and_lock dict_hash changelog_note get_version ChangelogEntry_Schema production_rules).
Local Abbreviation manage_versions :=
  (manage_versions dict_hash changelog_note get_version ChangelogEntry_Schema
     production_rules CurrentSchema_STACK_VERSION).
Local Abbreviation pending := (pending dict_hash).

Lemma pending_keys known rules n j :
  j ∈ dict_keys (pending known rules n) <->
  j ∈ dict_keys n \/ (j ∈ rule_id <$> rules /\ j ∉ known).
Proof.
  revert n. induction rules as [|r rules IH]; intros n; simpl.
  - split; [by left|]. intros [?|[H _]]; [done|inversion H].
  - rewrite IH, elem_of_cons. destruct (decide (rule_id r ∈ known)) as [Hk|Hk].
    + split; [naive_solver|]. intros [?|[[->|?] ?]]; [by left|done|by right].
    + rewrite dict_set_keys. split; [naive_solver|].
      intros [?|[[->|?] ?]]; [left; by right|left; by left|by right].
Qed.

(** The ids the loop lists as new: those of the rules the lock lacks. *)
Lemma version_rules_new_keys ex rules cv0 j :
  j ∈ dict_keys (new_rules (version_rules ex rules
                   {| current_versions := cv0; new_rules := []; changed_rules := [] |}).2)
  <-> j ∈ rule_id <$> rules /\ cv0 !! j = None.
Proof.
  rewrite version_rules_pending, pending_keys. simpl.
  rewrite not_elem_of_dom. split; [intros [H|?]; [inversion H|done] | by right].
Qed.

(** The ids the loop lists as changed are ids of rules that the lock
    holds. *)
Lemma version_rules_changed_ids ex rules st j :
  j ∈ changed_rules (version_rules ex rules st).2 ->
  j ∈ changed_rules st \/ (j ∈ rule_id <$> rules /\ is_Some (current_versions st !! j)).
Proof.
  revert st. induction rules as [|r rules IH]; intros st; [by left|].
  rewrite version_rules_cons. simpl. intros Hj.
  apply IH in Hj as [Hj|[Hin Hsome]].
  - unfold version_rule in Hj.
    destruct (current_versions st !! rule_id r) as [info|] eqn:Hlk; simpl in Hj; [|by left].
    destruct (decide (get_hash r ≠ sha256 info)); simpl in Hj; [|by left].
    apply elem_of_app in Hj as [?|Hj]; [by left|].
    apply list_elem_of_singleton in Hj as ->.
    right. split; [apply elem_of_cons; by left|eauto].
  - right. split; [apply elem_of_cons; by right|].
    apply elem_of_dom. apply elem_of_dom in Hsome.
    by rewrite version_rule_dom in Hsome.
Qed.

(** The loop never lowers a stored version, and under
    [exclude_version_update] it leaves every stored version alone. *)
Lemma version_rules_monotone ex rules st j e :
  current_versions st !! j = Some e ->
  exists e', current_versions (version_rules ex rules st).2 !! j = Some e' /\
    version e <= version e' /\ (ex = true -> version e' = version e).
Proof.
  revert st e. induction rules as [|r rules IH]; intros st e Hj.
  - exists e. split; [done|]. split; [lia|done].
  - rewrite version_rules_cons. simpl.
    assert (exists e1, current_versions (version_rule ex r st).2 !! j = Some e1 /\
              version e <= version e1 /\ (ex = true -> version e1 = version e))
      as (e1 & He1 & Hle & Hex).
    { unfold version_rule.
      destruct (current_versions st !! rule_id r) as [info|] eqn:Hlk; simpl.
      - destruct (decide (get_hash r ≠ sha256 info)); simpl.
        + destruct (decide (j = rule_id r)) as [->|Hne].
          * rewrite lookup_insert_eq. eexists. split; [done|]. simpl.
            rewrite Hlk in Hj. injection Hj as ->. destruct ex; split; (lia || done).
          * rewrite lookup_insert_ne by done. exists e. split; [done|]. split; [lia|done].
        + exists e. split; [done|]. split; [lia|done].
      - exists e. split; [done|]. split; [lia|done]. }
    destruct (IH _ _ He1) as (e' & He' & Hle' & Hex').
    exists e'. split; [done|]. split; [lia|]. intros Hx. rewrite Hex', Hex; done.
Qed.

(** X1: without [save_changes], a call returns (it never raises),
    writes no file and saves no rule; what it does to the rule objects
    is to assign each its version. *)
Theorem manage_versions_no_save rules deprecated cva ex add_new today w :
  let o := manage_versions rules deprecated cva ex add_new false today w in
  raised (out_result o) = false /\
  version_lock_json (out_world o) = version_lock_json w /\
  deprecated_rules_json (out_world o) = deprecated_rules_json w /\
  changelog_files (out_world o) = changelog_files w /\
  saved_rules (out_world o) = saved_rules w /\
  Forall2 (fun r r' => exists v, r' = set_version r v) rules (out_rules o).
Proof.
  intros o. subst o.
  rewrite (manage_versions_nosave dict_hash changelog_note get_version ChangelogEntry_Schema
             production_rules CurrentSchema_STACK_VERSION). simpl.
  destruct (commit_versions_frame cva
    (current_versions (version_rules ex rules
       {| current_versions := (load_versions cva w).1;
          new_rules := []; changed_rules := [] |}).2) (load_versions cva w).2)
    as (-> & -> & -> & ->).
  destruct (load_versions_frame cva w) as (-> & -> & -> & ->).
  repeat split; try done. apply version_rules_versioned.
Qed.

(** X2: no entry is ever removed from the lock dictionary, and the
    entries of ids that are not ids of the given rules stay exactly as
    they were, whatever the flags and whatever the rule list. *)
Theorem manage_versions_lock_kept rules deprecated cva ex add_new save today w j :
  let o := manage_versions rules deprecated cva ex add_new save today w in
  (is_Some ((load_versions cva w).1 !! j) -> is_Some (out_versions o !! j)) /\
  (j ∉ rule_id <$> rules -> out_versions o !! j = (load_versions cva w).1 !! j).
Proof.
  intros o.
  destruct (manage_versions_parts dict_hash changelog_note get_version ChangelogEntry_Schema
              production_rules CurrentSchema_STACK_VERSION
              rules deprecated cva ex add_new save today w)
    as (_ & _ & _ & _ & Hout & _).
  fold o in Hout. rewrite Hout. clear Hout.
  set (st0 := {| current_versions := (load_versions cva w).1;
                 new_rules := []; changed_rules := [] |}).
  assert (NoDup (dict_keys (new_rules (version_rules ex rules st0).2))) as Hkeys.
  { apply version_rules_new_keys_NoDup. simpl. constructor. }
  assert (forall d, NoDup (dict_keys d) ->
            is_Some ((load_versions cva w).1 !! j) ->
            is_Some (map_update (current_versions (version_rules ex rules st0).2) d !! j))
    as Hsome.
  { intros d Hd Hj. rewrite map_update_lookup by done.
    destruct (dict_get j d); [eauto|].
    apply elem_of_dom. rewrite version_rules_dom. by apply elem_of_dom. }
  assert (j ∉ rule_id <$> rules ->
          current_versions (version_rules ex rules st0).2 !! j = (load_versions cva w).1 !! j)
    as Hother.
  { intros Hj. pose proof (version_rules_view_other dict_hash ex rules st0 j Hj) as Hv.
    unfold view in Hv. by injection Hv as -> _ _. }
  split.
  - intros Hj. destruct (lock_written _ _ _).
    + apply Hsome; [|done]. destruct add_new; [done|constructor].
    + apply elem_of_dom. rewrite version_rules_dom. by apply elem_of_dom.
  - intros Hj. destruct (lock_written _ _ _); [|by apply Hother].
    destruct add_new; simpl; [|by apply Hother].
    rewrite map_update_lookup by done.
    assert (dict_get j (new_rules (version_rules ex rules st0).2) = None) as ->.
    { apply dict_get_None_keys. unfold st0. rewrite version_rules_new_keys. naive_solver. }
    by apply Hother.
Qed.

(** X3: the version stored for an id never goes down, whatever the
    rule list (repeated ids included), and under
    [exclude_version_update] it does not move at all. *)
Theorem manage_versions_monotone rules deprecated cva ex add_new save today w j e :
  (load_versions cva w).1 !! j = Some e ->
  let o := manage_versions rules deprecated cva ex add_new save today w in
  exists e', out_versions o !! j = Some e' /\ version e <= version e' /\
    (ex = true -> version e' = version e).
Proof.
  intros Hj o.
  destruct (manage_versions_parts dict_hash changelog_note get_version ChangelogEntry_Schema
              production_rules CurrentSchema_STACK_VERSION
              rules deprecated cva ex add_new save today w)
    as (_ & _ & _ & _ & Hout & _).
  fold o in Hout. rewrite Hout. clear Hout.
  set (st0 := {| current_versions := (load_versions cva w).1;
                 new_rules := []; changed_rules := [] |}).
  destruct (version_rules_monotone ex rules st0 j e Hj) as (e' & He' & Hle & Hex).
  exists e'. split; [|done].
  destruct (lock_written _ _ _); [|done]. destruct add_new; simpl; [|done].
  rewrite map_update_lookup.
  - assert (dict_get j (new_rules (version_rules ex rules st0).2) = None) as ->; [|done].
    apply dict_get_None_keys. unfold st0. rewrite version_rules_new_keys, Hj. naive_solver.
  - apply version_rules_new_keys_NoDup. simpl. constructor.
Qed.

(** X4: of the returned collections, the new ids are exactly the ids of
    the rules the lock lacks, each listed once; the changed ids are ids
    of rules the lock holds; so no id is returned both as new and as
    changed. *)
Theorem manage_versions_report rules deprecated cva ex add_new save today w c n d :
  out_result (manage_versions rules deprecated cva ex add_new save today w) = inr (c, n, d) ->
  NoDup n /\
  (forall j, j ∈ n <-> j ∈ rule_id <$> rules /\ (load_versions cva w).1 !! j = None) /\
  (forall j, j ∈ c -> j ∈ rule_id <$> rules /\ is_Some ((load_versions cva w).1 !! j)) /\
  (forall j, j ∈ c -> j ∉ n).
Proof.
  intros Hres.
  destruct (manage_versions_parts dict_hash changelog_note get_version ChangelogEntry_Schema
              production_rules CurrentSchema_STACK_VERSION
              rules deprecated cva ex add_new save today w)
    as (_ & _ & Hr & _).
  apply Hr in Hres. injection Hres as -> -> _.
  set (st0 := {| current_versions := (load_versions cva w).1;
                 new_rules := []; changed_rules := [] |}).
  assert (forall j, j ∈ changed_rules (version_rules ex rules st0).2 ->
            j ∈ rule_id <$> rules /\ is_Some ((load_versions cva w).1 !! j)) as Hc.
  { intros j Hj. apply version_rules_changed_ids in Hj as [Hj|?]; [inversion Hj|done]. }
  split; [|split; [|split]].
  - apply version_rules_new_keys_NoDup. simpl. constructor.
  - intros j. apply version_rules_new_keys.
  - done.
  - intros j Hj Hn. apply Hc in Hj as [_ [e He]].
    apply version_rules_new_keys in Hn as [_ Hn]. congruence.
Qed.

(** *** Saving and the lock check *)

Lemma transfer_rules_error dry_run rules cl w e :
  t_error (transfer_rules dry_run rules cl w) = Some e ->
  forall msg, e ≠ AssertionError msg.
Proof.
  revert cl w. induction rules as [|r0 rules IH]; intros cl w; simpl; [done|].
  destruct (transfer_rule dry_run r0 cl w) as [[[r0' cl'] w0'] err] eqn:Hstep.
  destruct err as [e0|]; simpl; [|by apply IH].
  intros He msg ->. injection He as ->. unfold transfer_rule in Hstep.
  repeat case_match; simplify_eq.
Qed.

(** The assertion is the only source of an [AssertionError]. *)
Lemma update_and_lock_assertion rules save_path dry_run w rules' w' msg :
  update_and_lock rules save_path dry_run w = (rules', w', inl (AssertionError msg)) ->
  dry_run = false /\ save_path = CHANGELOG_FILE /\ versions_locked rules' w' = false.
Proof.
  unfold update_and_lock. intros Hcall.
  destruct (load_changelog w) as [e|cl] eqn:Hload.
  { unfold load_changelog in Hload.
    destruct (changelog_files w !! CHANGELOG_FILE); simplify_eq. }
  destruct (t_error (transfer_rules dry_run rules cl w)) as [e|] eqn:Herr.
  { injection Hcall as _ _ ->. by destruct (transfer_rules_error _ _ _ _ _ Herr msg). }
  destruct dry_run; [done|].
  destruct (decide (save_path = CHANGELOG_FILE)) as [->|]; [|done].
  destruct (versions_locked _ _) eqn:Hlocked; [done|].
  by injection Hcall as <- <- _.
Qed.

Lemma versions_locked_nonempty rules rules' w :
  rules ≠ [] -> Forall2 relogged rules rules' ->
  versions_locked rules' w = versions_locked_loop dict_hash (version_lock_json w) rules.
Proof.
  intros Hne Hrel.
  by apply (versions_locked_relogged dict_hash production_rules rules rules' w w).
Qed.

(** What a saving call is made of, when there is something to save:
    the lock check of [update_and_lock] runs on the versioned rules,
    after the lock file and the registry file have been written. *)
Lemma manage_versions_saving rules deprecated cva ex add_new today w :
  let o := manage_versions rules deprecated cva ex add_new true today w in
  let loop := version_rules ex rules
                {| current_versions := (load_versions cva w).1;
                   new_rules := []; changed_rules := [] |} in
  let dep := manage_deprecations CurrentSchema_STACK_VERSION today deprecated w in
  if nonempty (new_rules loop.2) || nonempty (changed_rules loop.2) || nonempty dep.2 then
    exists w3 res,
      changelog_files w3 = changelog_files w /\ saved_rules w3 = saved_rules w /\
      update_and_lock loop.1 CHANGELOG_FILE false w3 = (out_rules o, out_world o, res) /\
      out_result o = match res with
                     | inl e => inl e
                     | inr _ => inr (changed_rules loop.2, dict_keys (new_rules loop.2), dep.2)
                     end
  else
    out_rules o = loop.1 /\ changelog_files (out_world o) = changelog_files w /\
    saved_rules (out_world o) = saved_rules w /\
    out_result o = inr (changed_rules loop.2, dict_keys (new_rules loop.2), dep.2).
Proof.
  unfold manage_versions. simpl.
  destruct (load_versions cva w) as [cv0 w0] eqn:Hload.
  pose proof (load_versions_frame cva w) as (_ & Hf2 & Hf3 & Hf4). rewrite Hload in Hf2, Hf3, Hf4.
  simpl in *.
  destruct (version_rules ex rules _) as [rules1 st] eqn:Hloop. simpl.
  pose proof (commit_versions_frame cva (current_versions st) w0) as (_ & Hc2 & Hc3 & Hc4).
  assert (manage_deprecations CurrentSchema_STACK_VERSION today deprecated
            (commit_versions cva (current_versions st) w0)
          = manage_deprecations CurrentSchema_STACK_VERSION today deprecated w) as ->.
  { unfold manage_deprecations. by rewrite Hc2, Hf2. }
  destruct (manage_deprecations CurrentSchema_STACK_VERSION today deprecated w)
    as [deps newly] eqn:Hd. simpl.
  destruct (nonempty (new_rules st) || nonempty (changed_rules st) || nonempty newly).
  - pose proof (commit_versions_frame cva
                  (map_update (current_versions st) (if add_new then new_rules st else []))
                  (commit_versions cva (current_versions st) w0)) as (_ & _ & Hm3 & Hm4).
    destruct (nonempty (changed_rules st) || nonempty (new_rules st) && add_new);
      destruct (nonempty newly); simpl;
      match goal with
      | |- context [update_and_lock rules1 CHANGELOG_FILE false ?w3] =>
          exists w3; destruct (update_and_lock rules1 CHANGELOG_FILE false w3)
            as [[rules2 w4] res] eqn:Hu; exists res
      end; simpl; (split; [|split; [|done]]); simpl;
      rewrite ?Hm3, ?Hm4, ?Hc3, ?Hc4, ?Hf3, ?Hf4; done.
  - simpl. by rewrite Hc3, Hf3, Hc4, Hf4.
Qed.

Lemma version_rules_changed_grows ex rules st :
  changed_rules st `prefix_of` changed_rules (version_rules ex rules st).2.
Proof.
  revert st. induction rules as [|r rules IH]; intros st; [done|].
  rewrite version_rules_cons. simpl. etrans; [|apply IH].
  unfold version_rule. repeat case_match; simpl; try done; by apply prefix_app_r.
Qed.

(** A loop that lists no rule as changed has left the lock dictionary
    as it was. *)
Lemma version_rules_unchanged ex rules st :
  changed_rules st = [] -> changed_rules (version_rules ex rules st).2 = [] ->
  current_versions (version_rules ex rules st).2 = current_versions st.
Proof.
  revert st. induction rules as [|r rules IH]; intros st Hst; [done|].
  rewrite version_rules_cons. simpl. intros Hend.
  pose proof (version_rules_changed_grows ex rules (version_rule ex r st).2) as Hpre.
  rewrite Hend in Hpre. apply prefix_nil_inv in Hpre.
  rewrite IH by done. unfold version_rule in *.
  destruct (current_versions st !! rule_id r) as [info|]; simpl in *; [|done].
  destruct (decide (get_hash r ≠ sha256 info)); simpl in *; [|done].
  by destruct (changed_rules st).
Qed.

(** Under distinct ids, every versioned rule agrees with the lock
    dictionary extended by the new entries. *)
Lemma version_rules_locks ex rules cv0 (F : gmap string LockEntry) :
  NoDup (rule_id <$> rules) ->
  let loop := version_rules ex rules
                {| current_versions := cv0; new_rules := []; changed_rules := [] |} in
  (forall j, F !! j = match dict_get j (new_rules loop.2) with
                      | Some v => Some v
                      | None => current_versions loop.2 !! j
                      end) ->
  versions_locked_loop dict_hash F loop.1 = true.
Proof.
  intros Hnd loop HF. apply not_false_iff_true. intros Hfalse.
  apply versions_locked_loop_false in Hfalse as (r1 & Hin & Hun).
  apply list_elem_of_lookup in Hin as [i Hi].
  pose proof (version_rules_versioned dict_hash ex rules
    {| current_versions := cv0; new_rules := []; changed_rules := [] |}) as Hver.
  fold loop in Hver.
  destruct (Forall2_lookup_r _ _ _ _ _ Hver Hi) as (r & Hr & _).
  destruct (version_rules_lookup dict_hash ex rules
    {| current_versions := cv0; new_rules := []; changed_rules := [] |} i r Hnd Hr)
    as (r' & Hr' & Hview).
  fold loop in Hr', Hview. rewrite Hi in Hr'. injection Hr' as <-.
  unfold expected, view in Hview. simpl in Hview. unfold unlocked in Hun.
  destruct (cv0 !! rule_id r) as [info|] eqn:Hlk; simpl in Hview.
  - destruct (decide (get_hash r ≠ sha256 info)) as [Hne|Heq];
      injection Hview as -> Hcur Hnew _; simpl in Hun; rewrite HF, Hnew, Hcur in Hun.
    + by apply Hun.
    + apply Hun. change (get_hash r = sha256 info).
      by destruct (decide (get_hash r = sha256 info)).
  - injection Hview as -> Hcur Hnew _. simpl in Hun. rewrite HF, Hnew in Hun.
    by apply Hun.
Qed.

(** X5: a saving call with [add_new] on rules with distinct ids, working
    on the lock as the lock file has it, leaves the lock file in
    agreement with every rule ([versions_locked] holds afterwards); so
    the changelog step it ends with never fails the lock assertion. *)
Theorem manage_versions_save_locks rules deprecated cva ex today w :
  NoDup (rule_id <$> rules) -> rules ≠ [] ->
  (load_versions cva w).1 = version_lock_json w ->
  let o := manage_versions rules deprecated cva ex true true today w in
  versions_locked (out_rules o) (out_world o) = true /\
  forall msg, out_result o ≠ inl (AssertionError msg).
Proof.
  intros Hnd Hne Hsrc o.
  destruct (manage_versions_parts dict_hash changelog_note get_version ChangelogEntry_Schema
              production_rules CurrentSchema_STACK_VERSION
              rules deprecated cva ex true true today w)
    as (Hrel & _ & _ & _ & Hout & Hfile & _).
  pose proof (manage_versions_saving rules deprecated cva ex true today w) as Hsave.
  fold o in Hrel, Hout, Hfile, Hsave. simpl in Hsave.
  set (st0 := {| current_versions := (load_versions cva w).1;
                 new_rules := []; changed_rules := [] |}) in *.
  set (loop := version_rules ex rules st0) in *.
  assert (loop.1 ≠ []) as Hne1.
  { pose proof (version_rules_versioned dict_hash ex rules st0) as Hver.
    fold loop in Hver. destruct Hver; done. }
  assert (versions_locked_loop dict_hash (version_lock_json (out_world o)) loop.1 = true)
    as Hlocked.
  { apply (version_rules_locks ex rules (load_versions cva w).1); [done|].
    fold st0 loop. intros j. rewrite Hfile, Hout.
    assert (NoDup (dict_keys (new_rules loop.2))) as Hkeys.
    { apply version_rules_new_keys_NoDup. simpl. constructor. }
    unfold lock_written. simpl.
    destruct (nonempty (changed_rules loop.2) || nonempty (new_rules loop.2) && true)
      eqn:Hw.
    - by rewrite map_update_lookup.
    - apply orb_false_iff in Hw as [Hc Hn]. rewrite andb_true_r in Hn.
      destruct (new_rules loop.2) eqn:Hnew; [|done]. simpl.
      rewrite <- Hsrc. symmetry.
      apply (f_equal (fun m : gmap string LockEntry => m !! j)).
      apply (version_rules_unchanged ex rules st0); [done|].
      fold loop. by destruct (changed_rules loop.2). }
  assert (versions_locked (out_rules o) (out_world o) = true) as Hfinal.
  { by rewrite (versions_locked_nonempty loop.1). }
  split; [done|]. intros msg Hmsg.
  destruct (nonempty (new_rules loop.2) || nonempty (changed_rules loop.2) || _).
  - destruct Hsave as (w3 & res & _ & _ & Hcall & Hres).
    rewrite Hmsg in Hres. destruct res as [e|[]]; [|done]. injection Hres as <-.
    apply update_and_lock_assertion in Hcall as (_ & _ & Hno). congruence.
  - destruct Hsave as (_ & _ & _ & Hres). congruence.
Qed.

(** X6: a saving call with [add_new] off raises whenever some rule is
    new (neither the lock dictionary nor the lock file has its id): the
    lock check of the changelog step fails, or an earlier step of it
    does; no changelog file is written. *)
Theorem manage_versions_save_without_new rules deprecated cva ex today w r :
  r ∈ rules ->
  (load_versions cva w).1 !! rule_id r = None ->
  version_lock_json w !! rule_id r = None ->
  let o := manage_versions rules deprecated cva ex false true today w in
  raised (out_result o) = true /\ changelog_files (out_world o) = changelog_files w.
Proof.
  intros Hin Hnone Hfilenone o.
  destruct (manage_versions_parts dict_hash changelog_note get_version ChangelogEntry_Schema
              production_rules CurrentSchema_STACK_VERSION
              rules deprecated cva ex false true today w)
    as (_ & _ & _ & _ & Hout & Hfile & _).
  pose proof (manage_versions_saving rules deprecated cva ex false today w) as Hsave.
  fold o in Hout, Hfile, Hsave. simpl in Hsave.
  set (st0 := {| current_versions := (load_versions cva w).1;
                 new_rules := []; changed_rules := [] |}) in *.
  set (loop := version_rules ex rules st0) in *.
  assert (rule_id r ∈ dict_keys (new_rules loop.2)) as Hkey.
  { unfold loop, st0. apply version_rules_new_keys. split; [|done].
    apply list_elem_of_fmap. eauto. }
  assert (nonempty (new_rules loop.2) = true) as Hnew.
  { destruct (new_rules loop.2); [inversion Hkey|done]. }
  rewrite Hnew in Hsave. simpl in Hsave.
  destruct Hsave as (w3 & res & Hcl & _ & Hcall & Hres).
  assert (version_lock_json (out_world o) !! rule_id r = None) as Hfinal.
  { rewrite Hfile, Hout. unfold lock_written. simpl. rewrite andb_false_r, orb_false_r.
    destruct (nonempty (changed_rules loop.2)); [|done]. simpl.
    apply not_elem_of_dom. unfold loop. rewrite version_rules_dom.
    by apply not_elem_of_dom. }
  pose proof (update_and_lock_frame dict_hash changelog_note get_version
                ChangelogEntry_Schema production_rules _ _ _ _ _ _ _ Hcall)
    as (Hrel & (Hl3 & _) & _).
  assert (exists r1, r1 ∈ loop.1 /\ rule_id r1 = rule_id r) as (r1 & Hin1 & Hid1).
  { pose proof (version_rules_versioned dict_hash ex rules st0) as Hver. fold loop in Hver.
    apply list_elem_of_lookup in Hin as [i Hi].
    destruct (Forall2_lookup_l _ _ _ _ _ Hver Hi) as (r1 & Hr1 & v & ->).
    exists (set_version r v). split; [by eapply list_elem_of_lookup_2 | done]. }
  assert (loop.1 ≠ []) as Hne1 by (intros Heq; rewrite Heq in Hin1; inversion Hin1).
  assert (versions_locked_loop dict_hash (version_lock_json w3) loop.1 = false) as Hloop.
  { apply versions_locked_loop_false. exists r1. split; [done|]. unfold unlocked.
    by rewrite Hid1, <- Hl3, Hfinal. }
  enough (raised res = true /\ changelog_files (out_world o) = changelog_files w3) as [Hr Hc].
  { split; [|congruence]. rewrite Hres. by destruct res. }
  clear Hres. unfold update_and_lock in Hcall.
  destruct (load_changelog w3) as [e|cl]; [by injection Hcall as _ <- <-|].
  destruct (transfer_rules_frame changelog_note get_version ChangelogEntry_Schema
              false loop.1 cl w3) as (Hrel' & (Hl' & _) & Hc' & _).
  destruct (t_error _) as [e|]; [by injection Hcall as _ <- <-|].
  destruct (decide (CHANGELOG_FILE = CHANGELOG_FILE)); [|done].
  rewrite (versions_locked_relogged dict_hash production_rules loop.1 _ w3 _ Hne1 Hrel' Hl'),
    Hloop in Hcall.
  by injection Hcall as _ <- <-.
Qed.

(** *** The global changelog *)

Lemma transfer_rule_dry r cl w :
  (transfer_rule true r cl w).1.1.1 = r /\ (transfer_rule true r cl w).1.2 = w.
Proof.
  unfold transfer_rule. destruct (changelog r) as [log|] eqn:Hlog; [|done].
  destruct (substantive log); simpl.
  - split; [|done]. by rewrite <- Hlog, set_changelog_id.
  - by repeat case_match.
Qed.

Lemma transfer_rules_dry rules cl w :
  t_rules (transfer_rules true rules cl w) = rules /\
  t_world (transfer_rules true rules cl w) = w.
Proof.
  revert cl w. induction rules as [|r rules IH]; intros cl w; simpl; [done|].
  pose proof (transfer_rule_dry r cl w) as [Hr Hw].
  destruct (transfer_rule true r cl w) as [[[r' cl'] w'] err]. simpl in Hr, Hw. subst.
  destruct err; simpl; [done|]. destruct (IH cl' w) as [-> ->]. done.
Qed.

(** X7: a dry run changes nothing: whether it returns or raises, the
    rule objects and the world (files, saved rules, memo) are as they
    were. *)
Theorem update_and_lock_dry_run rules save_path w :
  (update_and_lock rules save_path true w).1 = (rules, w).
Proof.
  unfold update_and_lock. destruct (load_changelog w) as [e|cl]; [done|].
  destruct (transfer_rules_dry rules cl w) as [Hr Hw].
  destruct (t_error _); simpl; by rewrite Hr, Hw.
Qed.

Lemma transfer_rule_grows dry_run r cl w j :
  let cl' := (transfer_rule dry_run r cl w).1.1.2 in
  default [] (cl !! j) `prefix_of` default [] (cl' !! j) /\
  (j ≠ rule_id r -> cl' !! j = cl !! j).
Proof.
  unfold transfer_rule.
  assert (default [] (<[rule_id r := default [] (cl !! rule_id r)]> cl !! j)
          = default [] (cl !! j)) as Hsame.
  { destruct (decide (j = rule_id r)) as [->|Hne].
    - by rewrite lookup_insert_eq.
    - by rewrite lookup_insert_ne. }
  repeat case_match; simpl; (split; [|intros Hne; by rewrite ?lookup_insert_ne]);
    try done; try (by rewrite Hsame).
  all: destruct (decide (j = rule_id r)) as [->|Hne];
    [rewrite lookup_insert_eq; simpl; by apply prefix_app_r
    |by rewrite !lookup_insert_ne].
Qed.

Lemma transfer_rules_grows dry_run rules cl w j :
  let cl' := t_changelog (transfer_rules dry_run rules cl w) in
  default [] (cl !! j) `prefix_of` default [] (cl' !! j) /\
  (j ∉ rule_id <$> rules -> cl' !! j = cl !! j).
Proof.
  revert cl w. induction rules as [|r rules IH]; intros cl w; simpl; [done|].
  pose proof (transfer_rule_grows dry_run r cl w j) as [Hpre Hother].
  destruct (transfer_rule dry_run r cl w) as [[[r' cl'] w'] err]. simpl in Hpre, Hother.
  destruct err; simpl.
  - split; [done|]. intros Hj. apply Hother. intros ->. apply Hj. apply elem_of_cons. by left.
  - destruct (IH cl' w') as [Hpre' Hother']. split; [by etrans|].
    intros Hj. rewrite not_elem_of_cons in Hj. destruct Hj as [Hne Hj].
    rewrite Hother' by done. by apply Hother.
Qed.

(** X8: the global changelog is append-only.  When a call that is not
    a dry run returns, the file at [save_path] holds, for every id, the
    list the default changelog had, possibly with entries added at its
    end; the lists of ids that are not ids of the given rules are as
    they were, and no other changelog file is touched. *)
Theorem update_and_lock_appends rules save_path w rules' w' cl :
  load_changelog w = inr cl ->
  update_and_lock rules save_path false w = (rules', w', inr tt) ->
  exists cl', changelog_files w' !! save_path = Some cl' /\
    (forall j, default [] (cl !! j) `prefix_of` default [] (cl' !! j)) /\
    (forall j, j ∉ rule_id <$> rules -> cl' !! j = cl !! j) /\
    (forall p, p ≠ save_path -> changelog_files w' !! p = changelog_files w !! p).
Proof.
  unfold update_and_lock. intros -> Hcall.
  destruct (transfer_rules_frame changelog_note get_version ChangelogEntry_Schema
              false rules cl w) as (_ & _ & Hc & _).
  destruct (t_error _); [done|].
  exists (t_changelog (transfer_rules false rules cl w)).
  assert (w' = with_changelog_file (t_world (transfer_rules false rules cl w)) save_path
                 (t_changelog (transfer_rules false rules cl w))) as ->.
  { repeat case_match; by simplify_eq. }
  simpl. rewrite lookup_insert_eq. split; [done|].
  split; [intros j; apply transfer_rules_grows|].
  split; [intros j; apply transfer_rules_grows|].
  intros p Hp. rewrite lookup_insert_ne by done. by rewrite Hc.
Qed.

Lemma transfer_rule_entry dry_run r cl w r' cl' w' :
  transfer_rule dry_run r cl w = (r', cl', w', None) ->
  length (default [] (cl' !! rule_id r)) =
  (length (default [] (cl !! rule_id r))
   + (if nonempty (substantive (default [] (changelog r))) then 1 else 0))%nat.
Proof.
  unfold transfer_rule. intros H.
  destruct dry_run.
  - destruct (changelog r) as [log|]; [|done]. simpl.
    destruct (substantive log); simpl; [simplify_eq; lia|].
    repeat case_match; simplify_eq.
    rewrite lookup_insert_eq. simpl. rewrite length_app. simpl. lia.
  - destruct (substantive (default [] (changelog r))); simpl; [simplify_eq; lia|].
    repeat case_match; simplify_eq.
    all: rewrite lookup_insert_eq; simpl; rewrite length_app; simpl; lia.
Qed.

Lemma transfer_rules_entries dry_run rules cl w r :
  NoDup (rule_id <$> rules) -> r ∈ rules ->
  t_error (transfer_rules dry_run rules cl w) = None ->
  length (default [] (t_changelog (transfer_rules dry_run rules cl w) !! rule_id r)) =
  (length (default [] (cl !! rule_id r))
   + (if nonempty (substantive (default [] (changelog r))) then 1 else 0))%nat.
Proof.
  revert cl w. induction rules as [|r0 rules IH]; intros cl w Hnd Hin; [inversion Hin|].
  rewrite fmap_cons in Hnd. apply NoDup_cons in Hnd as [Hnin Hnd]. simpl.
  pose proof (transfer_rule_grows dry_run r0 cl w (rule_id r)) as [_ Hother].
  destruct (transfer_rule dry_run r0 cl w) as [[[r0' cl'] w0'] err] eqn:Hstep.
  destruct err; simpl; [done|]. intros Herr. simpl in Hother.
  apply elem_of_cons in Hin as [->|Hin].
  - pose proof (transfer_rules_grows dry_run rules cl' w0' (rule_id r0)) as [_ Hg].
    simpl in Hg. rewrite Hg by done. by eapply transfer_rule_entry.
  - rewrite IH by done. rewrite Hother; [done|].
    intros Heq. apply Hnin. rewrite <- Heq. apply list_elem_of_fmap. eauto.
Qed.

(** X9: one entry per changed rule.  When a call that is not a dry run
    returns, on rules with distinct ids, the list of a rule with
    substantive pending notes has grown by exactly one entry and the
    list of any other rule has kept its length. *)
Theorem update_and_lock_one_entry rules save_path w rules' w' cl r :
  NoDup (rule_id <$> rules) -> r ∈ rules ->
  load_changelog w = inr cl ->
  update_and_lock rules save_path false w = (rules', w', inr tt) ->
  exists cl', changelog_files w' !! save_path = Some cl' /\
    length (default [] (cl' !! rule_id r)) =
    (length (default [] (cl !! rule_id r))
     + (if nonempty (substantive (default [] (changelog r))) then 1 else 0))%nat.
Proof.
  unfold update_and_lock. intros Hnd Hin -> Hcall.
  pose proof (transfer_rules_entries false rules cl w r Hnd Hin) as Hlen.
  destruct (t_error _); [done|].
  exists (t_changelog (transfer_rules false rules cl w)).
  assert (w' = with_changelog_file (t_world (transfer_rules false rules cl w)) save_path
                 (t_changelog (transfer_rules false rules cl w))) as ->.
  { repeat case_match; by simplify_eq. }
  simpl. rewrite lookup_insert_eq. split; [done|]. by apply Hlen.
Qed.

End ReconcileMore.

(** ** Packages and the rules' local changelogs *)

Section PackageFacts.

Variable dict_hash : string -> string.
Variable changelog_note : string -> ChangeNote.
Variable get_version : World -> Rule -> Z.
Variable ChangelogEntry_Schema : ChangelogEntry -> option ChangelogEntry.
Variable production_rules : list Rule.
Variable CurrentSchema_STACK_VERSION : string.
Variable set_updated_date : Rule -> string -> Rule.

(** Setting the date leaves the local changelog alone. *)
Hypothesis set_updated_date_changelog :
  forall r d, changelog (set_updated_date r d) = changelog r.

Local Abbreviation get_hash := (get_hash dict_hash).
Local Abbreviation append_changelog_entry := (append_changelog_entry changelog_note).
Local Abbreviation initialize_rule_changelog :=
  (initialize_rule_changelog dict_hash changelog_note set_updated_date).
Local Abbreviation initialize_rule_changelogs_loop :=
  (initialize_rule_changelogs_loop dict_hash changelog_note set_updated_date).
Local Abbreviation initialize_rule_changelogs :=
  (initialize_rule_changelogs dict_hash changelog_note set_updated_date).
Local Abbreviation update_and_lock :=
  (update_and_lock dict_hash changelog_note get_version ChangelogEntry_Schema production_rules).
Local Abbreviation manage_versions :=
  (manage_versions dict_hash changelog_note get_version ChangelogEntry_Schema
     production_rules CurrentSchema_STACK_VERSION).
Local Abbreviation Package_init :=
  (Package_init dict_hash changelog_note get_version ChangelogEntry_Schema
     production_rules CurrentSchema_STACK_VERSION).

Lemma append_changelog_entry_has r msg : has_changelog (append_changelog_entry r msg).
Proof.
  unfold has_changelog, append_changelog_entry. simpl.
  by destruct (default [] (changelog r)).
Qed.

Lemma has_changelog_changelog r r' : changelog r' = changelog r -> has_changelog r -> has_changelog r'.
Proof. unfold has_changelog. by intros ->. Qed.

Lemma initialize_rule_changelog_has versions force flush today r w :
  has_changelog (initialize_rule_changelog versions force flush today r w).1.
Proof.
  unfold initialize_rule_changelog.
  destruct (nonempty (default [] (changelog r)) && negb force) eqn:Hskip; simpl.
  - by apply andb_true_iff in Hskip as [? _].
  - eapply has_changelog_changelog; [apply set_updated_date_changelog|].
    repeat case_match; apply append_changelog_entry_has.
Qed.

Lemma initialize_rule_changelogs_loop_cons versions force flush today r rules w :
  initialize_rule_changelogs_loop versions force flush today (r :: rules) w =
  let step := initialize_rule_changelog versions force flush today r w in
  let rest := initialize_rule_changelogs_loop versions force flush today rules step.2 in
  (step.1 :: rest.1, rest.2).
Proof.
  simpl. destruct (initialize_rule_changelog versions force flush today r w) as [r' w'].
  simpl. by destruct (initialize_rule_changelogs_loop versions force flush today rules w').
Qed.

Lemma initialize_rule_changelogs_loop_has versions force flush today rules w :
  Forall has_changelog (initialize_rule_changelogs_loop versions force flush today rules w).1.
Proof.
  revert w. induction rules as [|r rules IH]; intros w; [constructor|].
  rewrite initialize_rule_changelogs_loop_cons. simpl. constructor; [|apply IH].
  apply initialize_rule_changelog_has.
Qed.

Lemma initialize_rule_changelogs_loop_skip versions flush today rules w :
  Forall has_changelog rules ->
  initialize_rule_changelogs_loop versions false flush today rules w = (rules, w).
Proof.
  induction 1 as [|r rules Hr _ IH]; [done|].
  rewrite initialize_rule_changelogs_loop_cons.
  assert (initialize_rule_changelog versions false flush today r w = (r, w)) as ->.
  { unfold initialize_rule_changelog. unfold has_changelog in Hr. by rewrite Hr. }
  simpl. by rewrite IH.
Qed.

Lemma initialize_rule_changelogs_loop_cache versions force flush today rules w :
  versions_cache (initialize_rule_changelogs_loop versions force flush today rules w).2
  = versions_cache w.
Proof.
  revert w. induction rules as [|r rules IH]; intros w; [done|].
  rewrite initialize_rule_changelogs_loop_cons. simpl. rewrite IH.
  unfold initialize_rule_changelog. by case_match.
Qed.

Lemma initialize_rule_changelogs_has rules force flush today w :
  Forall has_changelog (initialize_rule_changelogs rules force flush today w).1.
Proof.
  unfold initialize_rule_changelogs.
  destruct (load_versions None w) as [versions w0]. simpl.
  apply initialize_rule_changelogs_loop_has.
Qed.

(** X10: after [initialize_rule_changelogs], whatever [force] and
    [flush], every rule has a local changelog that is not empty; and a
    second call without [force] is a no-op: it leaves the rule objects
    and the world as the first call left them, and saves no rule. *)
Theorem initialize_rule_changelogs_once rules force flush flush' today today' w :
  let first := initialize_rule_changelogs rules force flush today w in
  Forall has_changelog first.1 /\
  initialize_rule_changelogs first.1 false flush' today' first.2 = first.
Proof.
  unfold initialize_rule_changelogs.
  destruct (load_versions None w) as [versions w0] eqn:Hload. simpl.
  pose proof (initialize_rule_changelogs_loop_has versions force flush today rules w0) as Hall.
  split; [done|].
  pose proof (initialize_rule_changelogs_loop_cache versions force flush today rules w0)
    as Hcache.
  destruct (initialize_rule_changelogs_loop versions force flush today rules w0)
    as [rules1 w1]. simpl in *.
  assert (exists cv, versions_cache w0 = Some cv) as [cv Hcv].
  { unfold load_versions in Hload. simpl in Hload.
    destruct (versions_cache w) as [c|] eqn:Hc; injection Hload as <- <-; eauto. }
  assert (load_versions None w1 = (cv, w1)) as ->.
  { unfold load_versions. simpl. by rewrite Hcache, Hcv. }
  by apply initialize_rule_changelogs_loop_skip.
Qed.

Lemma transfer_rules_type_error rules cl w e :
  Forall (fun r => is_Some (changelog r)) rules ->
  t_error (transfer_rules changelog_note get_version ChangelogEntry_Schema true rules cl w)
  = Some e ->
  forall msg, e ≠ TypeError msg.
Proof.
  intros Hall. revert cl w. induction Hall as [|r rules [log Hlog] _ IH]; intros cl w; [done|].
  simpl.
  destruct (transfer_rule changelog_note get_version ChangelogEntry_Schema true r cl w)
    as [[[r' cl'] w'] err] eqn:Hstep.
  destruct err as [e0|]; simpl; [|by apply IH].
  intros He msg ->. injection He as ->. unfold transfer_rule in Hstep.
  rewrite Hlog in Hstep. repeat case_match; simplify_eq.
Qed.

(** X11: once the local changelogs are initialised, a dry run of
    [update_and_lock] cannot fail on a rule without a local changelog
    (the [TypeError] of iterating over [None]). *)
Theorem initialize_then_dry_run rules force flush today w save_path msg :
  let first := initialize_rule_changelogs rules force flush today w in
  (update_and_lock first.1 save_path true first.2).2 ≠ inl (TypeError msg).
Proof.
  intros first.
  assert (Forall (fun r => is_Some (changelog r)) first.1) as Hall.
  { pose proof (initialize_rule_changelogs_has rules force flush today w) as Hhas.
    fold first in Hhas.
    eapply Forall_impl; [exact Hhas|]. intros r Hr. unfold has_changelog in Hr.
    destruct (changelog r); [eauto|done]. }
  unfold update_and_lock.
  destruct (load_changelog first.2) as [e|cl] eqn:Hload.
  { unfold load_changelog in Hload.
    destruct (changelog_files first.2 !! CHANGELOG_FILE); simplify_eq. simpl. congruence. }
  destruct (t_error _) as [e|] eqn:Herr; simpl; [|done].
  intros Heq. injection Heq as ->.
  by destruct (transfer_rules_type_error _ _ _ _ Hall Herr msg).
Qed.

(** *** Packages *)

Lemma filter_versions_versioned min_version max_version rules :
  Forall (fun r => is_Some (contents_version r)) rules ->
  exists kept, filter_versions min_version max_version rules = inr kept /\
    kept `sublist_of` rules /\
    forall r, r ∈ kept <-> r ∈ rules /\ version_in_bounds min_version max_version r.
Proof.
  induction 1 as [|r rules [v Hv] _ (kept & Hkept & Hsub & Hiff)]; simpl.
  - exists []. split; [done|]. split; [done|].
    intros r. split; [intros H; inversion H | intros [H _]; inversion H].
  - rewrite Hv, Hkept.
    destruct ((int_or min_version 0 <=? v) && (v <=? int_or max_version v)) eqn:Hb.
    + exists (r :: kept). split; [done|]. split; [by constructor|].
      intros r0. rewrite !elem_of_cons, Hiff. split; [|naive_solver].
      intros [->|?]; [|naive_solver]. split; [by left|].
      exists v. apply andb_true_iff in Hb as [?%Z.leb_le ?%Z.leb_le]. done.
    + exists kept. split; [done|]. split; [by constructor|].
      intros r0. rewrite elem_of_cons, Hiff. split; [naive_solver|].
      intros [[->|?] Hin]; [|done]. exfalso.
      destruct Hin as (v' & Hv' & H1 & H2). rewrite Hv in Hv'. injection Hv' as <-.
      apply andb_false_iff in Hb as [?%Z.leb_gt|?%Z.leb_gt]; lia.
Qed.

Lemma manage_versions_versioned rules deprecated cva ex add_new save today w :
  Forall (fun r => is_Some (contents_version r))
    (out_rules (manage_versions rules deprecated cva ex add_new save today w)).
Proof.
  destruct (manage_versions_parts dict_hash changelog_note get_version ChangelogEntry_Schema
              production_rules CurrentSchema_STACK_VERSION
              rules deprecated cva ex add_new save today w) as (Hrel & _).
  pose proof (version_rules_versioned dict_hash ex rules
    {| current_versions := (load_versions cva w).1;
       new_rules := []; changed_rules := [] |}) as Hver.
  apply Forall_lookup. intros i r2 Hr2.
  destruct (Forall2_lookup_r _ _ _ _ _ Hrel Hr2) as (r1 & Hr1 & Hlog).
  destruct (Forall2_lookup_r _ _ _ _ _ Hver Hr1) as (r & _ & v & ->).
  apply relogged_fields in Hlog as (_ & _ & _ & -> & _). simpl. eauto.
Qed.

(** X12: building a package fails exactly when [manage_versions] fails:
    the version filter never raises, as every rule has been given a
    version by then.  A package that is built with a bound holds, in
    their order, exactly the reconciled rules whose version is within
    the bounds. *)
Theorem Package_init_versions rules pname deprecated release cva min_version max_version
    update_version_lock registry today w :
  let o := manage_versions rules deprecated cva false true update_version_lock today w in
  let built := Package_init rules pname deprecated release cva min_version max_version
                 update_version_lock registry today w in
  built.1 = out_world o /\
  (forall e, built.2 = inl e <-> out_result o = inl e) /\
  (forall pk, built.2 = inr pk ->
     pkg_rules pk `sublist_of` out_rules o /\
     (int_truthy min_version || int_truthy max_version = true ->
      forall r, r ∈ pkg_rules pk <->
                r ∈ out_rules o /\ version_in_bounds min_version max_version r) /\
     (int_truthy min_version || int_truthy max_version = false ->
      pkg_rules pk = out_rules o)).
Proof.
  intros o built. subst built. unfold Package_init. fold o.
  destruct (filter_versions_versioned min_version max_version (out_rules o)
              (manage_versions_versioned rules deprecated cva false true
                 update_version_lock today w)) as (kept & Hkept & Hsub & Hiff).
  fold o in Hkept, Hsub, Hiff.
  destruct (out_result o) as [e|[[c n] d]]; simpl.
  - split; [done|]. split; [intros e0; split; intros [= ->]; done|]. intros pk H. done.
  - destruct (int_truthy min_version || int_truthy max_version) eqn:Hb; simpl.
    + rewrite Hkept. simpl. split; [done|]. split; [by intros e; split|].
      intros pk H. injection H as <-. simpl. split; [done|]. split; [by intros _|done].
    + split; [done|]. split; [by intros e; split|].
      intros pk H. injection H as <-. simpl. split; [done|]. split; [done|by intros _].
Qed.

(** X13: a bound of 0 is no bound, as [0] is false for [or]: a package
    built with [min_version=0] or [max_version=0] is the package built
    without that bound. *)
Theorem Package_init_zero_bound rules pname deprecated release cva min_version max_version
    update_version_lock registry today w :
  Package_init rules pname deprecated release cva (Some 0) max_version
    update_version_lock registry today w
  = Package_init rules pname deprecated release cva None max_version
      update_version_lock registry today w /\
  Package_init rules pname deprecated release cva min_version (Some 0)
    update_version_lock registry today w
  = Package_init rules pname deprecated release cva min_version None
      update_version_lock registry today w.
Proof.
  unfold Package_init. split.
  - destruct (out_result _) as [e|[[c n] d]]; [done|]. simpl.
    assert (forall l, filter_versions (Some 0) max_version l
                      = filter_versions None max_version l) as Heq.
    { induction l as [|r l IH]; simpl; [done|]. by rewrite IH. }
    by rewrite Heq.
  - destruct (out_result _) as [e|[[c n] d]]; [done|]. simpl.
    assert (forall l, filter_versions min_version (Some 0) l
                      = filter_versions min_version None l) as Heq.
    { induction l as [|r l IH]; simpl; [done|]. by rewrite IH. }
    by rewrite Heq, !orb_false_r.
Qed.

End PackageFacts.

(** ** The rule loader beyond duplicates *)

Lemma ascii_compare_refl a : Ascii.compare a a = Eq.
Proof. unfold Ascii.compare. apply N.compare_refl. Qed.

Lemma string_compare_refl s : String.compare s s = Eq.
Proof. induction s as [|a s IH]; simpl; [done|]. by rewrite ascii_compare_refl. Qed.

Lemma string_compare_lt_trans s1 s2 s3 :
  String.compare s1 s2 = Lt -> String.compare s2 s3 = Lt -> String.compare s1 s3 = Lt.
Proof.
  revert s2 s3. induction s1 as [|a s1 IH]; intros [|b s2] [|c s3]; simpl; try done.
  destruct (Ascii.compare a b) eqn:Hab; try done;
    destruct (Ascii.compare b c) eqn:Hbc; try done.
  - apply Ascii.compare_eq_iff in Hab as ->. apply Ascii.compare_eq_iff in Hbc as ->.
    rewrite ascii_compare_refl. apply IH.
  - apply Ascii.compare_eq_iff in Hab as ->. by rewrite Hbc.
  - apply Ascii.compare_eq_iff in Hbc as ->. by rewrite Hab.
  - unfold Ascii.compare in *. apply N.compare_lt_iff in Hab, Hbc.
    assert (N.compare (N_of_ascii a) (N_of_ascii c) = Lt) as ->; [|done].
    apply N.compare_lt_iff. eapply N.lt_trans; [exact Hab|exact Hbc].
Qed.

Lemma string_leb_trans s1 s2 s3 :
  String.leb s1 s2 = true -> String.leb s2 s3 = true -> String.leb s1 s3 = true.
Proof.
  unfold String.leb.
  destruct (String.compare s1 s2) eqn:H12; try done; intros _.
  - by apply String.compare_eq_iff in H12 as ->.
  - destruct (String.compare s2 s3) eqn:H23; try done; intros _.
    + apply String.compare_eq_iff in H23 as <-. by rewrite H12.
    + by rewrite (string_compare_lt_trans _ _ _ H12 H23).
Qed.

Lemma insert_by_name_sorted r l :
  StronglySorted name_le l -> StronglySorted name_le (insert_by_name r l).
Proof.
  induction 1 as [|x l Hl IH Hx]; simpl.
  - repeat constructor.
  - destruct (String.leb (name r) (name x)) eqn:Hrx.
    + constructor; [by constructor|]. constructor; [done|].
      eapply Forall_impl; [exact Hx|]. intros y Hy. unfold name_le in *.
      by eapply string_leb_trans.
    + constructor; [done|]. rewrite insert_by_name_perm. constructor; [|done].
      unfold name_le. destruct (String.leb_total (name r) (name x)); congruence.
Qed.

Lemma sorted_by_name_sorted l : StronglySorted name_le (sorted_by_name l).
Proof.
  unfold sorted_by_name. induction l as [|r l IH]; simpl; [constructor|].
  by apply insert_by_name_sorted.
Qed.

Lemma dict_get_elem_of {V} (k : string) (v : V) d :
  NoDup (dict_keys d) -> dict_get k d = Some v <-> (k, v) ∈ d.
Proof.
  unfold dict_keys. induction d as [|[k' v'] d IH]; simpl; intros Hnd.
  - split; [done|]. intros H. inversion H.
  - apply NoDup_cons in Hnd as [Hnin Hnd]. rewrite elem_of_cons.
    destruct (decide (k = k')) as [->|Hne].
    + split; [intros [= ->]; by left|]. intros [[= ->]|Hin]; [done|].
      exfalso. apply Hnin. apply list_elem_of_fmap. by exists (k', v).
    + rewrite IH by done. split; [by right|]. intros [[= -> ->]|?]; done.
Qed.

Section LoaderMore.

Variable RuleContents : Type.
Variable Rule_init : string -> RuleContents -> Exc Rule.
Variable duplicate_key : Rule -> Exc (option string).
Variable load_rule_files : Exc (list (string * RuleContents)).

Local Abbreviation try_rule := (try_rule RuleContents Rule_init duplicate_key).
Local Abbreviation load_loop := (load_loop RuleContents Rule_init duplicate_key).
Local Abbreviation files_to_load := (files_to_load RuleContents load_rule_files).
Local Abbreviation load_rules :=
  (load_rules RuleContents Rule_init duplicate_key load_rule_files).
Local Abbreviation loader_checked := (loader_checked Rule_init duplicate_key).
Local Abbreviation get_rule :=
  (get_rule RuleContents Rule_init duplicate_key load_rule_files).

(** What [load_rules] returns: the loaded rules in name order, each
    under its id. *)
Lemma load_rules_shape file_lookup error d :
  load_rules file_lookup error = inr d ->
  exists files st, files_to_load file_lookup = inr files /\
    load_loop error files empty_loader = inr st /\ loader_inv st /\
    d = (fun rule => (rule_id rule, rule)) <$> sorted_by_name (loaded st).
Proof.
  unfold load_rules.
  destruct (files_to_load file_lookup) as [e|files]; [done|].
  destruct (load_loop error files empty_loader) as [e|st] eqn:Hloop; [done|].
  intros H. injection H as <-. exists files, st. split; [done|]. split; [done|].
  pose proof (load_loop_inv _ _ _ _ _ _ _ Hloop empty_loader_inv) as Hinv.
  split; [done|]. destruct Hinv as (Hids & _).
  unfold ordered_dict. rewrite ordered_dict_distinct; [done|].
  simpl. by rewrite sorted_by_name_perm.
Qed.

Lemma load_rules_values file_lookup error d :
  load_rules file_lookup error = inr d ->
  exists files st, files_to_load file_lookup = inr files /\
    load_loop error files empty_loader = inr st /\ loader_inv st /\
    d.*2 = sorted_by_name (loaded st) /\ dict_keys d = rule_id <$> sorted_by_name (loaded st).
Proof.
  intros (files & st & Hf & Hl & Hinv & ->)%load_rules_shape.
  exists files, st. do 3 (split; [done|]). split.
  - rewrite <- list_fmap_compose. apply list_fmap_id.
  - unfold dict_keys. by rewrite <- list_fmap_compose.
Qed.

Lemma NoDup_fmap_elem_eq {A B} (f : A -> B) (l : list A) x y :
  NoDup (f <$> l) -> x ∈ l -> y ∈ l -> f x = f y -> x = y.
Proof.
  induction l as [|a l IH]; simpl; intros Hnd Hx Hy Hf; [inversion Hx|].
  apply NoDup_cons in Hnd as [Hnin Hnd].
  apply elem_of_cons in Hx as [->|Hx]; apply elem_of_cons in Hy as [->|Hy]; try done.
  - exfalso. apply Hnin. rewrite Hf. apply list_elem_of_fmap. by exists y.
  - exfalso. apply Hnin. rewrite <- Hf. apply list_elem_of_fmap. by exists x.
  - by apply IH.
Qed.

Lemma elem_of_snoc {A} (l : list A) (x y : A) : y ∈ l ++ [x] <-> y ∈ l \/ y = x.
Proof. by rewrite elem_of_app, list_elem_of_singleton. Qed.

Lemma try_rule_checked files f c st st' err :
  (f, c) ∈ files -> try_rule f c st = (st', err) ->
  loader_checked files st -> loader_checked files st'.
Proof.
  intros Hin Htry [Hall Hkeys]. unfold try_rule in Htry.
  destruct (Rule_init f c) as [e|rule] eqn:Hinit; [by simplify_eq|].
  destruct (decide (rule_id rule ∈ rule_ids st)); [by simplify_eq|].
  destruct (decide (name rule ∈ rule_names st)); [by simplify_eq|].
  destruct (duplicate_key rule) as [e|key] eqn:Hkey; [by simplify_eq|].
  destruct key as [k|].
  - destruct (decide (k ∈ queries st)) as [|Hfresh]; [by simplify_eq|].
    assert (loader_checked files (with_queries st (queries st ++ [k]))) as [Hall1 Hkeys1].
    { split; simpl; [|done]. intros r Hr. destruct (Hall r Hr) as (? & ? & key & ? & Hq).
      do 2 (split; [done|]). exists key. split; [done|]. intros k' ->.
      apply elem_of_app. left. by apply Hq. }
    destruct (matches_FILE_PATTERN _) eqn:Hpat; [|by simplify_eq].
    injection Htry as <- <-. split; simpl.
    + intros r [Hr| ->]%elem_of_snoc; [by apply Hall1|].
      split; [done|]. split; [by exists f, c|]. exists (Some k). split; [done|].
      intros k' [= <-]. apply elem_of_app. right. by apply list_elem_of_singleton.
    + intros r1 r2 k' [H1| ->]%elem_of_snoc [H2| ->]%elem_of_snoc E1 E2.
      * by eapply Hkeys.
      * exfalso. rewrite Hkey in E2. injection E2 as <-.
        destruct (Hall r1 H1) as (_ & _ & key & Hk1 & Hq). rewrite E1 in Hk1.
        injection Hk1 as <-. by apply Hfresh, Hq.
      * exfalso. rewrite Hkey in E1. injection E1 as <-.
        destruct (Hall r2 H2) as (_ & _ & key & Hk2 & Hq). rewrite E2 in Hk2.
        injection Hk2 as <-. by apply Hfresh, Hq.
      * done.
  - destruct (matches_FILE_PATTERN _) eqn:Hpat; [|by simplify_eq].
    injection Htry as <- <-. split; simpl.
    + intros r [Hr| ->]%elem_of_snoc; [by apply Hall|].
      split; [done|]. split; [by exists f, c|]. exists None. by split.
    + intros r1 r2 k' [H1| ->]%elem_of_snoc [H2| ->]%elem_of_snoc E1 E2; try congruence.
      by eapply Hkeys.
Qed.

Lemma load_loop_checked error files0 files st st' :
  (forall x, x ∈ files -> x ∈ files0) ->
  load_loop error files st = inr st' ->
  loader_checked files0 st -> loader_checked files0 st'.
Proof.
  revert st. induction files as [|[f c] files IH]; intros st Hsub; simpl.
  - intros H. by simplify_eq.
  - assert ((f, c) ∈ files0) as Hfc by (apply Hsub; left).
    assert (forall x, x ∈ files -> x ∈ files0) as Hsub' by (intros x Hx; apply Hsub; by right).
    destruct (try_rule f c st) as [st1 [e|]] eqn:Htry.
    + destruct error; [done|]. intros H Hinv. apply (IH _ Hsub' H).
      by apply (try_rule_checked _ _ _ _ _ _ Hfc Htry) in Hinv.
    + intros H Hinv. apply (IH _ Hsub' H). by eapply try_rule_checked.
Qed.

Lemma empty_loader_checked files : loader_checked files empty_loader.
Proof. split; simpl; [intros r Hr|intros r1 r2 k Hr]; inversion Hr. Qed.

(** The rules a loop loads are those of a subsequence of its files, in
    file order; of all its files in fail-fast mode. *)
Lemma load_loop_origin error files st st' :
  load_loop error files st = inr st' ->
  exists kept rs, kept `sublist_of` files /\
    Forall2 (fun fc r => Rule_init fc.1 fc.2 = inr r) kept rs /\
    loaded st' = loaded st ++ rs /\ (error = true -> kept = files).
Proof.
  revert st. induction files as [|[f c] files IH]; intros st; simpl.
  - intros H. simplify_eq. exists [], []. by rewrite app_nil_r.
  - destruct (try_rule f c st) as [st1 [e|]] eqn:Htry.
    + destruct error; [done|]. intros (kept & rs & Hk & Hrs & Hl & _)%IH.
      apply try_rule_cases in Htry as [(_ & Hl1 & _)|(? & _)]; [|done].
      exists kept, rs. split; [by apply sublist_cons|]. split; [done|].
      simpl in Hl. rewrite Hl1 in Hl. by split.
    + intros (kept & rs & Hk & Hrs & Hl & He)%IH.
      apply try_rule_cases in Htry as [([? ?] & _)|(_ & rule & Hinit & _ & _ & Hl1 & _)];
        [done|].
      exists ((f, c) :: kept), (rule :: rs). split; [by apply sublist_skip|].
      split; [by constructor|]. split; [by rewrite Hl, Hl1, <- app_assoc|].
      intros Ht. by rewrite He.
Qed.

(** X14: the rules that [load_rules] returns are in non-decreasing
    order of their names, whatever the order of the files, and as the
    names are distinct no two neighbours are equal; the keys follow the
    same order. *)
Theorem load_rules_sorted file_lookup error d :
  load_rules file_lookup error = inr d ->
  StronglySorted name_le d.*2 /\ NoDup (name <$> d.*2) /\
  dict_keys d = rule_id <$> d.*2.
Proof.
  intros (files & st & _ & _ & (_ & Hnames & _) & Hv & Hk)%load_rules_values.
  rewrite Hk, Hv. split; [apply sorted_by_name_sorted|]. split; [|done].
  by rewrite sorted_by_name_perm.
Qed.

(** X15: every rule that [load_rules] returns was built from one of
    the files, has a file name that meets [FILE_PATTERN] and a query
    key that could be computed, and no two returned rules share a query
    key. *)
Theorem load_rules_checked file_lookup error files d :
  files_to_load file_lookup = inr files ->
  load_rules file_lookup error = inr d ->
  (forall k r, (k, r) ∈ d ->
     matches_FILE_PATTERN (basename (path r)) = true /\
     (exists f c, (f, c) ∈ files /\ Rule_init f c = inr r) /\
     exists key, duplicate_key r = inr key) /\
  (forall k1 r1 k2 r2 q, (k1, r1) ∈ d -> (k2, r2) ∈ d ->
     duplicate_key r1 = inr (Some q) -> duplicate_key r2 = inr (Some q) -> r1 = r2).
Proof.
  intros Hfiles (files' & st & Hf & Hl & _ & Hv & _)%load_rules_values.
  rewrite Hfiles in Hf. injection Hf as <-.
  pose proof (load_loop_checked _ files _ _ _ (fun x H => H) Hl (empty_loader_checked files))
    as [Hall Hkeys].
  assert (forall k r, (k, r) ∈ d -> r ∈ loaded st) as Hin.
  { intros k r Hkr. rewrite <- (sorted_by_name_perm (loaded st)), <- Hv.
    apply list_elem_of_fmap. by exists (k, r). }
  split.
  - intros k r Hkr. destruct (Hall r (Hin _ _ Hkr)) as (? & ? & key & ? & _). eauto.
  - intros k1 r1 k2 r2 q H1 H2. apply Hkeys; by eapply Hin.
Qed.

(** X16: the rules returned are those of a subsequence of the files;
    with [error] set it is all the files, one rule per file; without
    it, loading never raises on a rule, and gives the same result as
    with [error] whenever that one returns. *)
Theorem load_rules_files file_lookup files :
  files_to_load file_lookup = inr files ->
  (forall error d, load_rules file_lookup error = inr d ->
     exists kept rs, kept `sublist_of` files /\
       Forall2 (fun fc r => Rule_init fc.1 fc.2 = inr r) kept rs /\
       d.*2 ≡ₚ rs /\ (error = true -> kept = files /\ length d = length files)) /\
  (exists d, load_rules file_lookup false = inr d) /\
  (forall d, load_rules file_lookup true = inr d -> load_rules file_lookup false = inr d).
Proof.
  intros Hfiles. split; [|split].
  - intros error d (files' & st & Hf & Hl & _ & Hv & _)%load_rules_values.
    rewrite Hfiles in Hf. injection Hf as <-.
    apply load_loop_origin in Hl as (kept & rs & Hk & Hrs & Hl & He). simpl in Hl.
    exists kept, rs. split; [done|]. split; [done|].
    split; [by rewrite Hv, sorted_by_name_perm, Hl|].
    intros ->. split; [by apply He|].
    rewrite <- (length_fmap snd d), Hv, sorted_by_name_perm, Hl.
    rewrite <- (He eq_refl). symmetry. by eapply Forall2_length.
  - unfold load_rules. rewrite Hfiles.
    destruct (load_loop_lenient RuleContents Rule_init duplicate_key files empty_loader)
      as [st ->]. by eexists.
  - unfold load_rules. rewrite Hfiles. intros d.
    destruct (load_loop true files empty_loader) as [e|st] eqn:Hl; [done|].
    by rewrite (load_loop_agree _ _ _ _ _ _ Hl).
Qed.

(** X17: [get_rule] by id gives the loaded rule with that id and
    ignores the other two arguments; by name it gives the loaded rule
    with that name; either way there is exactly one candidate. With no
    argument at all it gives [None]. *)
Theorem get_rule_unambiguous d :
  load_rules [] true = inr d ->
  (forall i n f r, get_rule (Some i) n f = inr (Some r) <-> r ∈ d.*2 /\ rule_id r = i) /\
  (forall i n f, get_rule (Some i) n f = inr None <-> forall r, r ∈ d.*2 -> rule_id r <> i) /\
  (forall nm r, get_rule None (Some nm) None = inr (Some r) <-> r ∈ d.*2 /\ name r = nm) /\
  get_rule None None None = inr None.
Proof.
  intros Hd. unfold get_rule. rewrite Hd.
  pose proof Hd as (files & st & _ & _ & (Hids & Hnames & _) & Hv & Hk)%load_rules_values.
  pose proof Hd as (? & st' & _ & _ & _ & Hsh)%load_rules_shape.
  assert (NoDup (dict_keys d)) as Hnd by (by rewrite Hk, sorted_by_name_perm).
  assert (NoDup (name <$> d.*2)) as Hnn by (by rewrite Hv, sorted_by_name_perm).
  assert (forall k r, (k, r) ∈ d <-> r ∈ d.*2 /\ rule_id r = k) as Hkr.
  { intros k r. split.
    - intros Hin. split; [apply list_elem_of_fmap; by exists (k, r)|].
      rewrite Hsh in Hin. apply list_elem_of_fmap in Hin as (r0 & [= -> ->] & _). done.
    - intros [([k' r'] & -> & Hin)%list_elem_of_fmap <-]. simpl.
      pose proof Hin as Hin'. rewrite Hsh in Hin'.
      apply list_elem_of_fmap in Hin' as (r0 & [= -> ->] & _). done. }
  split; [|split; [|split]].
  - intros i n f r. rewrite <- Hkr, <- dict_get_elem_of by done.
    split; [by intros [= ->]|by intros ->].
  - intros i n f. split.
    + intros [= Hnone] r Hr Hi. apply dict_get_None_keys in Hnone. apply Hnone.
      unfold dict_keys. apply list_elem_of_fmap. exists (i, r). split; [done|].
      by apply Hkr.
    + intros Hno. f_equal. apply dict_get_None_keys. unfold dict_keys.
      intros ([k r] & -> & Hin)%list_elem_of_fmap. apply Hkr in Hin as [Hr Hi].
      by apply (Hno r).
  - intros nm r. split.
    + intros [= Hfind]. apply find_some in Hfind as [Hin Hf].
      split; [by apply list_elem_of_In|].
      apply orb_true_iff in Hf as [Hf|Hf]; [|done].
      apply bool_decide_eq_true in Hf. congruence.
    + intros [Hin Hnm]. f_equal.
      destruct (find _ d.*2) as [r'|] eqn:Hfind.
      * apply find_some in Hfind as [Hin' Hf]. f_equal.
        apply orb_true_iff in Hf as [Hf|Hf]; [|done]. apply bool_decide_eq_true in Hf.
        apply list_elem_of_In in Hin'.
        eapply (NoDup_fmap_elem_eq name); [exact Hnn|done|done|congruence].
      * exfalso. apply list_elem_of_In in Hin.
        pose proof (find_none _ _ Hfind _ Hin) as Hf. simpl in Hf.
        apply orb_false_iff in Hf as [Hf _]. apply bool_decide_eq_false in Hf.
        apply Hf. by rewrite Hnm.
  - f_equal. destruct (find _ d.*2) as [r'|] eqn:Hfind; [|done].
    apply find_some in Hfind as [_ Hf].
    by apply orb_true_iff in Hf as [Hf|Hf].
Qed.

End LoaderMore.

(** ** Filtering rules *)

Section FilterFacts.

Variable RuleContents : Type.
Variable Rule_init : string -> RuleContents -> Exc Rule.
Variable duplicate_key : Rule -> Exc (option string).
Variable load_rule_files : Exc (list (string * RuleContents)).
Variable str_lower : string -> string.
Variable flattened_contents : Rule -> gmap string FlatValue.
Variable unique_fields : Rule -> list string.
Variable contents_index : Rule -> option FlatValue.

Local Abbreviation lower_atom := (lower_atom str_lower).
Local Abbreviation rule_values := (rule_values str_lower).
Local Abbreviation filter_keys := (filter_keys str_lower).
Local Abbreviation excluded_by_fields := (excluded_by_fields unique_fields contents_index).
Local Abbreviation filter_rule :=
  (filter_rule str_lower flattened_contents unique_fields contents_index).
Local Abbreviation load_rules :=
  (load_rules RuleContents Rule_init duplicate_key load_rule_files).
Local Abbreviation get_production_rules :=
  (get_production_rules RuleContents Rule_init duplicate_key load_rule_files str_lower
     flattened_contents unique_fields contents_index).

Lemma filter_keys_spec flat config_filter :
  filter_keys flat config_filter = true <->
  forall key values, (key, values) ∈ config_filter ->
    exists rule_value a, flat !! key = Some rule_value /\
      a ∈ rule_values rule_value /\ a ∈ lower_atom <$> values.
Proof.
  induction config_filter as [|[key values] rest IH]; simpl.
  - split; [|done]. intros _ key values H. inversion H.
  - destruct (flat !! key) as [rv|] eqn:Hkey.
    + destruct (existsb _ (rule_values rv)) eqn:Hex.
      * rewrite IH. split.
        -- intros Hrest k v [[= -> ->]|Hin]%elem_of_cons; [|by apply Hrest].
           apply existsb_exists in Hex as (a & Ha & Hin).
           exists rv, a. split; [done|]. split; [by apply list_elem_of_In|].
           by apply bool_decide_eq_true in Hin.
        -- intros Hall k v Hin. apply Hall. by right.
      * split; [done|]. intros Hall. exfalso.
        destruct (Hall key values) as (rv' & a & Hrv & Ha & Hin); [by left|].
        rewrite Hkey in Hrv. injection Hrv as <-.
        assert (existsb (fun a => bool_decide (a ∈ lower_atom <$> values)) (rule_values rv)
                = true) as Htrue; [|congruence].
        apply existsb_exists. exists a. split; [by apply list_elem_of_In|].
        by apply bool_decide_eq_true.
    + split; [done|]. intros Hall. exfalso.
      destruct (Hall key values) as (rv' & a & Hrv & _); [by left|]. congruence.
Qed.

Lemma excluded_by_fields_no_unique rule exclude_fields :
  unique_fields rule = [] -> excluded_by_fields rule exclude_fields = inr false.
Proof.
  intros Hu. induction exclude_fields as [|[index fields] rest IH]; simpl; [done|].
  by rewrite Hu.
Qed.

Lemma filter_exc_total (f : Rule -> Exc bool) (g : Rule -> bool) rules :
  (forall r, f r = inr (g r)) ->
  filter_exc f rules = inr (filter (fun r => Is_true (g r)) rules).
Proof.
  intros Hf. induction rules as [|r rules IH]; simpl; [done|].
  rewrite Hf, IH. rewrite filter_cons. by destruct (g r).
Qed.

Lemma filter_sublist_impl {A} (P Q : A -> Prop) `{!forall x, Decision (P x)}
    `{!forall x, Decision (Q x)} (l : list A) :
  (forall x, P x -> Q x) -> filter P l `sublist_of` filter Q l.
Proof.
  intros HPQ. induction l as [|x l IH]; [done|]. rewrite !filter_cons.
  destruct (decide (P x)) as [HP|HP].
  - rewrite decide_True by auto. by apply sublist_skip.
  - destruct (decide (Q x)); [by apply sublist_cons|done].
Qed.

(** X18: [filter_rule] accepts a rule exactly when every key of the
    filter is a field of the flattened rule that shares a value with
    the filter, compared in lower case, and no exclusion applies. A
    rule that fails the filter is rejected before the exclusions are
    looked at, so a missing field never raises; a rule without unique
    fields is never excluded; and a rule with unique fields but no
    [index] raises [KeyError] at the first exclusion. *)
Theorem filter_rule_spec rule config_filter :
  (filter_rule rule config_filter [] = inr true <->
   forall key values, (key, values) ∈ config_filter ->
     exists rule_value a, flattened_contents rule !! key = Some rule_value /\
       a ∈ rule_values rule_value /\ a ∈ lower_atom <$> values) /\
  (forall key values exclude_fields, (key, values) ∈ config_filter ->
     flattened_contents rule !! key = None ->
     filter_rule rule config_filter exclude_fields = inr false) /\
  (forall exclude_fields, unique_fields rule = [] ->
     filter_rule rule config_filter exclude_fields = filter_rule rule config_filter []) /\
  (forall index fields rest, unique_fields rule <> [] -> contents_index rule = None ->
     filter_rule rule config_filter [] = inr true ->
     filter_rule rule config_filter ((index, fields) :: rest) = inl (KeyError "index")).
Proof.
  unfold filter_rule. split; [|split; [|split]].
  - rewrite <- filter_keys_spec. simpl.
    destruct (filter_keys (flattened_contents rule) config_filter); done.
  - intros key values ex Hin Hnone.
    destruct (filter_keys (flattened_contents rule) config_filter) eqn:Hk; [|done].
    exfalso. destruct (proj1 (filter_keys_spec _ _) Hk key values Hin) as (? & ? & ? & _).
    congruence.
  - intros ex Hu. by rewrite excluded_by_fields_no_unique.
  - intros index fields rest Hu Hi.
    destruct (filter_keys (flattened_contents rule) config_filter); [|done].
    intros _. simpl. destruct (unique_fields rule); [done|]. by rewrite Hi.
Qed.

(** X19: when loading succeeds [get_production_rules] does not raise;
    it keeps, in the name order of the loader, the loaded rules whose
    [maturity] field meets the filter, and asking for the deprecated
    rules as well only adds rules. When loading raises, it raises the
    same. *)
Theorem get_production_rules_spec :
  (forall e include_deprecated, load_rules [] true = inl e ->
     get_production_rules include_deprecated = inl e) /\
  (forall d, load_rules [] true = inr d ->
     exists prod both,
       get_production_rules false = inr prod /\ get_production_rules true = inr both /\
       prod `sublist_of` both /\ both `sublist_of` d.*2 /\
       (forall r, r ∈ prod <->
          r ∈ d.*2 /\
          filter_rule r [("maturity"%string, [AStr "production"])] [] = inr true) /\
       (forall r, r ∈ both <->
          r ∈ d.*2 /\
          filter_rule r [("maturity"%string, [AStr "production"; AStr "deprecated"])] []
          = inr true)).
Proof.
  split.
  - intros e incl He. unfold get_production_rules. by rewrite He.
  - intros d Hd. unfold get_production_rules. rewrite Hd. simpl.
    set (g := fun (m : list Atom) (r : Rule) =>
                filter_keys (flattened_contents r) [("maturity"%string, m)]).
    assert (forall m r, filter_rule r [("maturity"%string, m)] [] = inr (g m r)) as Hg.
    { intros m r. unfold filter_rule, g.
      destruct (filter_keys (flattened_contents r) [("maturity"%string, m)]); done. }
    rewrite (filter_exc_total _ (g [AStr "production"]) _ (Hg _)).
    rewrite (filter_exc_total _ (g [AStr "production"; AStr "deprecated"]) _ (Hg _)).
    eexists _, _. split; [done|]. split; [done|]. split; [|split; [|split]].
    + apply filter_sublist_impl. intros r Hr. apply Is_true_true in Hr.
      apply Is_true_true. unfold g in *.
      apply filter_keys_spec. intros key values [= -> ->]%list_elem_of_singleton.
      destruct (proj1 (filter_keys_spec _ _) Hr "maturity"%string [AStr "production"])
        as (rv & a & Hrv & Ha & Hin); [by left|].
      exists rv, a. split; [done|]. split; [done|].
      simpl in Hin. apply list_elem_of_singleton in Hin as ->.
      simpl. apply elem_of_cons. by left.
    + apply sublist_filter.
    + intros r. rewrite list_elem_of_filter, Hg, Is_true_true.
      split; intros [? ?]; split; congruence.
    + intros r. rewrite list_elem_of_filter, Hg, Is_true_true.
      split; intros [? ?]; split; congruence.
Qed.

End FilterFacts.

(** ** Schemas beyond the target check *)

Section SchemaMore.

Variable Schema : Type.
Variable STACK_VERSION : Schema -> string.
Variable versioned : Schema -> Schema.
Variable Value : Type.
Variable schema_downgrade :
  Schema -> Schema -> gmap string Value -> option Value -> Exc (gmap string Value).
Variable Version : string -> list VersionPart.
Variable all_schemas : list Schema.

Local Abbreviation downgrade_loop :=
  (downgrade_loop Schema STACK_VERSION versioned Value schema_downgrade Version).
Local Abbreviation downgrade :=
  (downgrade Schema STACK_VERSION versioned Value schema_downgrade Version all_schemas).
Local Abbreviation get_schema := (get_schema Schema STACK_VERSION all_schemas).
Local Abbreviation available_versions := (available_versions Schema STACK_VERSION all_schemas).
Local Abbreviation chain_steps := (chain_steps schema_downgrade).

(** The walk from a schema it has reached: it steps through the
    schemas up to the first one with the target version and does not
    look at the ones behind it. *)
Lemma downgrade_loop_walk (check_versioned : bool) target role before t behind cs
    api_contents :
  let variant := fun s : Schema => if check_versioned then versioned s else s in
  Version (STACK_VERSION (variant t)) = target ->
  (forall s, s ∈ before -> Version (STACK_VERSION (variant s)) <> target) ->
  downgrade_loop check_versioned target role (before ++ t :: behind) (Some cs) api_contents
  = chain_steps role cs (variant <$> (before ++ [t])) api_contents.
Proof.
  intros variant Ht. revert cs api_contents.
  induction before as [|s before IH]; intros cs api_contents Hbefore; simpl.
  - fold (variant t). destruct (schema_downgrade cs (variant t) api_contents role); [done|].
    by rewrite decide_True.
  - fold (variant s). destruct (schema_downgrade cs (variant s) api_contents role); [done|].
    rewrite decide_False by (apply Hbefore; left).
    apply IH. intros s' Hs'. apply Hbefore. by right.
Qed.

(** X20: a downgrade to the version of a schema [t] of the chain runs
    the steps from the newest schema down to [t], one after the other,
    each on the payload the one before returned and all with the role
    and the versioned variants fixed by the payload as it came; the
    schemas older than [t] play no part. *)
Theorem downgrade_walk api_contents target_version older t newer newest chain :
  let check_versioned := bool_decide (is_Some (api_contents !! "version"%string)) in
  let variant := fun s : Schema => if check_versioned then versioned s else s in
  all_schemas = older ++ t :: newer ->
  take 2 (Version target_version)
    ∈ (fun schema_cls => Version (STACK_VERSION schema_cls)) <$> all_schemas ->
  Version (STACK_VERSION (variant t)) = take 2 (Version target_version) ->
  (forall s, s ∈ newer -> Version (STACK_VERSION (variant s)) <> take 2 (Version target_version)) ->
  variant <$> reverse (t :: newer) = newest :: chain ->
  downgrade api_contents target_version
  = chain_steps (api_contents !! "type"%string) newest chain api_contents.
Proof.
  intros check_versioned variant Hall Hin Ht Hnewer Hchain. unfold downgrade.
  rewrite decide_False by (intros H; by apply H).
  rewrite Hall, reverse_app, reverse_cons, <- app_assoc. simpl.
  rewrite reverse_cons in Hchain.
  destruct (reverse newer) as [|s before] eqn:Hrev; simpl in *.
  - injection Hchain as <- <-. fold check_versioned. fold (variant t).
    by rewrite decide_True.
  - injection Hchain as <- <-. fold check_versioned. fold (variant s).
    assert (forall s', s' ∈ s :: before -> s' ∈ newer) as Hsub.
    { intros s' Hs'. apply elem_of_reverse. by rewrite Hrev. }
    rewrite decide_False by (apply Hnewer, Hsub; left).
    apply (downgrade_loop_walk check_versioned); [done|].
    intros s' Hs'. apply Hnewer, Hsub. by right.
Qed.

(** X21: [get_schema] gives a schema of the chain with the stack
    version asked for, and [None] exactly for a version that is not
    available; when the stack versions of the chain are distinct, every
    schema is found again under its own version. *)
Theorem get_schema_spec :
  (forall v s, get_schema v = Some s -> s ∈ all_schemas /\ STACK_VERSION s = v) /\
  (forall v, get_schema v = None <-> v ∉ available_versions) /\
  (forall s, NoDup available_versions -> s ∈ all_schemas ->
     get_schema (STACK_VERSION s) = Some s).
Proof.
  unfold get_schema, available_versions. split; [|split].
  - intros v s [Hin Hv]%find_some. split; [by apply list_elem_of_In|].
    by apply bool_decide_eq_true in Hv.
  - intros v. split.
    + intros Hnone (s & -> & Hin)%list_elem_of_fmap.
      apply list_elem_of_In in Hin. pose proof (find_none _ _ Hnone _ Hin) as Hf.
      simpl in Hf. by apply bool_decide_eq_false in Hf.
    + intros Hnot. destruct (find _ all_schemas) as [s|] eqn:Hfind; [|done].
      apply find_some in Hfind as [Hin Hv]. apply bool_decide_eq_true in Hv.
      exfalso. apply Hnot. apply list_elem_of_fmap. exists s. split; [done|].
      by apply list_elem_of_In.
  - intros s Hnd Hin.
    destruct (find _ all_schemas) as [s'|] eqn:Hfind.
    + apply find_some in Hfind as [Hin' Hv]. apply bool_decide_eq_true in Hv.
      f_equal. apply list_elem_of_In in Hin'.
      by eapply (NoDup_fmap_elem_eq STACK_VERSION).
    + exfalso. apply list_elem_of_In in Hin.
      pose proof (find_none _ _ Hfind _ Hin) as Hf. simpl in Hf.
      by apply bool_decide_eq_false in Hf.
Qed.

End SchemaMore.

(** ** The manifest registry *)

Section RegistryFacts.

Variable Manifest : Type.
Variable format_version : Manifest -> string.
Variable class_name : Manifest -> string.

Local Abbreviation register_manifest := (register_manifest Manifest format_version class_name).
Local Abbreviation get_manifest := (get_manifest Manifest).

(** X22: the registry is write-once: a manifest that is registered
    stays under its format version whatever is registered later, a
    second registration under a taken version raises [ValueError] and
    changes nothing, and a registration under a free version is found
    again by [get_manifest] and touches no other version. *)
Theorem register_manifest_write_once c _manifests :
  (forall v m, get_manifest v _manifests = Some m ->
     get_manifest v (register_manifest c _manifests).1 = Some m) /\
  (forall m, get_manifest (format_version c) _manifests = Some m ->
     register_manifest c _manifests
     = (_manifests,
        inl (ValueError (String.append "manifest format_version already exists in "
                           (class_name m))))) /\
  (get_manifest (format_version c) _manifests = None ->
     (register_manifest c _manifests).2 = inr tt /\
     get_manifest (format_version c) (register_manifest c _manifests).1 = Some c /\
     forall v, v <> format_version c ->
       get_manifest v (register_manifest c _manifests).1 = get_manifest v _manifests).
Proof.
  unfold register_manifest, get_manifest. split; [|split].
  - intros v m Hv. destruct (_manifests !! format_version c) as [m'|] eqn:Hc; simpl; [done|].
    rewrite lookup_insert_ne; [done|]. intros <-. congruence.
  - intros m ->. done.
  - intros ->. simpl. split; [done|]. split; [by rewrite lookup_insert_eq|].
    intros v Hv. by rewrite lookup_insert_ne.
Qed.

End RegistryFacts.

(** ** Grouping collected events *)

Section EventFacts.

Variable Source : Type.
Variable Agent : Type.
Variable source_agent : Source -> option Agent.
Variable agent_type : Agent -> option string.

Local Abbreviation source_type := (source_type Source Agent source_agent agent_type).
Local Abbreviation event_type := (event_type source_agent agent_type).
Local Abbreviation group_events_loop :=
  (group_events_loop Source Agent source_agent agent_type).
Local Abbreviation _group_events_by_type :=
  (_group_events_by_type Source Agent source_agent agent_type).
Local Abbreviation events_of_type := (events_of_type source_agent agent_type).

Lemma group_events_loop_typed sources d0 :
  Forall (fun s => raised (source_type s) = false) sources ->
  NoDup (dict_keys d0) ->
  (forall t l, dict_get t d0 = Some l -> l <> []) ->
  exists d, group_events_loop (Some <$> sources) d0 = inr d /\
    NoDup (dict_keys d) /\
    (forall t l, dict_get t d = Some l -> l <> []) /\
    (forall t, default [] (dict_get t d)
               = default [] (dict_get t d0) ++ events_of_type t sources).
Proof.
  intros Hall. revert d0. induction Hall as [|s sources Hs Hall IH]; intros d0 Hnd Hne.
  - simpl. exists d0. repeat split; try done. intros t. by rewrite app_nil_r.
  - cbn [fmap list_fmap group_events_loop].
    destruct (source_type s) as [e|t] eqn:Ht; [done|].
    destruct (IH (dict_set t (default [] (dict_get t d0) ++ [s]) d0))
      as (d & Hd & Hnd' & Hne' & Hget).
    + by apply dict_set_keys_NoDup.
    + intros t' l. destruct (decide (t = t')) as [<-|Hdiff].
      * rewrite dict_get_set_eq. intros [= <-]. by destruct (default [] (dict_get t d0)).
      * rewrite dict_get_set_ne by done. apply Hne.
    + exists d. split; [done|]. split; [done|]. split; [done|]. intros t'.
      rewrite Hget. unfold events_of_type. rewrite filter_cons.
      destruct (decide (t = t')) as [<-|Hdiff].
      * rewrite dict_get_set_eq. rewrite decide_True by done.
        change (default [] (Some ?l)) with l. by rewrite <- app_assoc.
      * rewrite dict_get_set_ne by done. rewrite decide_False by congruence. done.
Qed.

Lemma group_events_loop_first hits d0 e :
  group_events_loop hits d0 = inl e ->
  exists before hit behind, hits = before ++ hit :: behind /\
    Forall (fun h => raised (event_type h) = false) before /\ event_type hit = inl e.
Proof.
  revert d0. induction hits as [|hit hits IH]; intros d0; [done|].
  cbn [group_events_loop]. destruct hit as [s|].
  - destruct (source_type s) as [e'|t] eqn:Ht.
    + intros [= <-]. exists [], (Some s), hits. split; [done|]. split; [constructor|done].
    + intros (before & hit & behind & -> & Hb & Hh)%IH.
      exists (Some s :: before), hit, behind. split; [done|]. split; [|done].
      constructor; [|done]. simpl. by rewrite Ht.
  - intros [= <-]. exists [], None, hits. split; [done|]. split; [constructor|done].
Qed.

Lemma group_events_loop_prefix before hit others d0 e :
  Forall (fun h => raised (event_type h) = false) before -> event_type hit = inl e ->
  group_events_loop (before ++ hit :: others) d0 = inl e.
Proof.
  intros Hb Hh. revert d0. induction Hb as [|h before Hh' Hb IH]; intros d0; simpl.
  - unfold event_type in Hh. destruct hit as [s|]; [by rewrite Hh|by injection Hh as <-].
  - unfold event_type in Hh'. destruct h as [s|]; [|done].
    destruct (source_type s) as [e'|t]; [done|]. apply IH.
Qed.

Lemma group_events_loop_returns hits d0 :
  Forall (fun h => raised (event_type h) = false) hits ->
  raised (group_events_loop hits d0) = false.
Proof.
  intros Hall. revert d0. induction Hall as [|h hits Hh Hall IH]; intros d0; [done|].
  simpl. unfold event_type in Hh. destruct h as [s|]; [|done].
  destruct (source_type s) as [e|t]; [done|apply IH].
Qed.

(** X23: when every hit has a source whose agent has a type, grouping
    returns a dictionary that holds, under each type, the sources of
    that type in the order of the hits; a type with no event has no
    key, no key holds an empty list, and every source is under its own
    type. *)
Theorem group_events_by_type_spec sources :
  Forall (fun s => raised (source_type s) = false) sources ->
  exists d, _group_events_by_type (Some <$> sources) = inr d /\
    NoDup (dict_keys d) /\
    (forall t l, dict_get t d = Some l <-> l = events_of_type t sources /\ l <> []) /\
    (forall s t, s ∈ sources -> source_type s = inr t ->
       exists l, dict_get t d = Some l /\ s ∈ l).
Proof.
  intros Hall. unfold _group_events_by_type.
  destruct (group_events_loop_typed sources [] Hall) as (d & Hd & Hnd & Hne & Hget).
  { constructor. } { done. }
  simpl in Hget.
  exists d. split; [done|]. split; [done|].
  assert (forall t l, dict_get t d = Some l <-> l = events_of_type t sources /\ l <> [])
    as Hspec.
  { intros t l. split.
    - intros Hl. split; [|by eapply Hne]. rewrite <- Hget, Hl. done.
    - intros [-> Hl]. specialize (Hget t). destruct (dict_get t d) as [l'|]; simpl in Hget.
      + by rewrite Hget.
      + by rewrite <- Hget in Hl. }
  split; [done|].
  intros s t Hin Ht. exists (events_of_type t sources).
  assert (s ∈ events_of_type t sources) as Hs.
  { unfold events_of_type. by apply list_elem_of_filter. }
  split; [|done]. apply Hspec. split; [done|]. intros Hnil. rewrite Hnil in Hs. inversion Hs.
Qed.

(** X24: grouping raises exactly when some hit lacks [_source], its
    [agent] or the agent's [type], and the exception is the [KeyError]
    of the first such hit, naming the key that hit lacks; the hits
    behind it are not looked at. *)
Theorem group_events_by_type_raises hits :
  (raised (_group_events_by_type hits) = true <->
   exists hit, hit ∈ hits /\ raised (event_type hit) = true) /\
  (forall e, _group_events_by_type hits = inl e ->
     exists before hit behind, hits = before ++ hit :: behind /\
       Forall (fun h => raised (event_type h) = false) before /\
       (forall others, _group_events_by_type (before ++ hit :: others) = inl e) /\
       e = KeyError match hit with
                    | None => "_source"
                    | Some s => if source_agent s is Some _ then "type" else "agent"
                    end).
Proof.
  unfold _group_events_by_type. split.
  - split.
    + destruct (group_events_loop hits []) as [e|d] eqn:Hl; [|done]. intros _.
      apply group_events_loop_first in Hl as (before & hit & behind & -> & _ & Hh).
      exists hit. split; [|by rewrite Hh]. apply elem_of_app. right. by left.
    + intros (hit & Hin & Hh).
      destruct (group_events_loop hits []) as [e|d] eqn:Hl; [done|]. exfalso.
      assert (Forall (fun h => raised (event_type h) = false) hits) as Hall.
      { clear Hin Hh. revert Hl. generalize ([] : list (string * list Source)) as d0.
        induction hits as [|h hits IH]; intros d0; [constructor|].
        cbn [group_events_loop]. destruct h as [s|]; [|done].
        destruct (source_type s) as [e|t] eqn:Ht; [done|].
        intros Hl. constructor; [simpl; by rewrite Ht|by eapply IH]. }
      rewrite Forall_forall in Hall. specialize (Hall _ Hin). congruence.
  - intros e (before & hit & behind & -> & Hb & Hh)%group_events_loop_first.
    exists before, hit, behind. do 2 (split; [done|]). split.
    + intros others. by apply group_events_loop_prefix.
    + unfold event_type, source_type in Hh. destruct hit as [s|]; [|by injection Hh as <-].
      destruct (source_agent s) as [a|]; [|by injection Hh as <-].
      destruct (agent_type a); [done|by injection Hh as <-].
Qed.

End EventFacts.

(** * Scenarios *)

(** The spec's scenario "rule A in lock at version 3 with hash H1;
    content changed to hash H2": changed, and version 4. *)
Example scenario_changed :
  let o := example_manage_versions [rule_a1] [] None false true false "2021-06-01"
             example_world in
  out_result o = inr (["a1"%string], [], []) /\
  contents_version <$> out_rules o = [Some 4].
Proof. by vm_compute. Qed.

Lemma manage_versions_changed_witness :
  NoDup (rule_id <$> example_rules) /\
  example_rules !! 0%nat = Some rule_a1 /\
  (load_versions None example_world).1 !! rule_id rule_a1 = Some info_a1 /\
  get_hash example_hash rule_a1 ≠ sha256 info_a1 /\
  let o := example_manage_versions example_rules [] None true true false "2021-06-01"
             example_world in
  let entry := {| rule_name := name rule_a1;
                  version := if true then version info_a1 else version info_a1 + 1;
                  sha256 := get_hash example_hash rule_a1 |} in
  (exists r', out_rules o !! 0%nat = Some r' /\ rule_id r' = rule_id rule_a1 /\
     contents_version r' = Some (version info_a1 + 1)) /\
  out_versions o !! rule_id rule_a1 = Some entry /\
  (forall c n d, out_result o = inr (c, n, d) -> rule_id rule_a1 ∈ c) /\
  (false = false -> exists c n d, out_result o = inr (c, n, d) /\ rule_id rule_a1 ∈ c) /\
  (false = true -> version_lock_json (out_world o) !! rule_id rule_a1 = Some entry).
Proof.
  assert (NoDup (rule_id <$> example_rules)) as Hnd by compute_done.
  assert (get_hash example_hash rule_a1 ≠ sha256 info_a1) as Hne by compute_done.
  split; [done|]. split; [reflexivity|]. split; [reflexivity|]. split; [done|].
  exact (manage_versions_changed example_hash example_note example_get_version Some []
           "7.13.0" example_rules [] None true true false "2021-06-01" example_world
           0%nat rule_a1 info_a1 Hnd eq_refl eq_refl Hne).
Defined.

Lemma manage_versions_unchanged_witness :
  NoDup (rule_id <$> example_rules) /\
  example_rules !! 2%nat = Some rule_c1 /\
  (load_versions None example_world).1 !! rule_id rule_c1 = Some info_c1 /\
  get_hash example_hash rule_c1 = sha256 info_c1 /\
  let o := example_manage_versions example_rules [] None false true true "2021-06-01"
             example_world in
  (exists r', out_rules o !! 2%nat = Some r' /\ rule_id r' = rule_id rule_c1 /\
     contents_version r' = Some (version info_c1)) /\
  out_versions o !! rule_id rule_c1 = Some info_c1 /\
  (forall c n d, out_result o = inr (c, n, d) ->
     (rule_id rule_c1 ∉ c) /\ (rule_id rule_c1 ∉ n)) /\
  (version_lock_json (out_world o) !! rule_id rule_c1 = Some info_c1 \/
   version_lock_json (out_world o) = version_lock_json example_world).
Proof.
  assert (NoDup (rule_id <$> example_rules)) as Hnd by compute_done.
  split; [done|]. split; [reflexivity|]. split; [reflexivity|]. split; [reflexivity|].
  exact (manage_versions_unchanged example_hash example_note example_get_version Some []
           "7.13.0" example_rules [] None false true true "2021-06-01" example_world
           2%nat rule_c1 info_c1 Hnd eq_refl eq_refl eq_refl).
Defined.

(** C2 as stated fails: by default nothing is saved, and then the lock
    holds no entry for the new rule, neither the dictionary nor the
    file, although the rule is returned as new. *)
Lemma manage_versions_new_not_recorded :
  let o := example_manage_versions example_rules [] None false true false "2021-06-01"
             example_world in
  out_result o = inr (["a1"%string], ["b1"%string], []) /\
  out_versions o !! "b1"%string = None /\
  version_lock_json (out_world o) !! "b1"%string = None.
Proof. by vm_compute. Qed.

Lemma manage_versions_new_witness :
  NoDup (rule_id <$> example_rules) /\
  example_rules !! 1%nat = Some rule_b1 /\
  (load_versions None example_world).1 !! rule_id rule_b1 = None /\
  let o := example_manage_versions example_rules [] None false true true "2021-06-01"
             example_world in
  let entry := {| rule_name := name rule_b1; version := 1;
                  sha256 := get_hash example_hash rule_b1 |} in
  (exists r', out_rules o !! 1%nat = Some r' /\ rule_id r' = rule_id rule_b1 /\
     contents_version r' = Some 1) /\
  (forall c n d, out_result o = inr (c, n, d) ->
     rule_id rule_b1 ∈ n /\ (rule_id rule_b1 ∉ c)) /\
  (true = false -> exists c n d, out_result o = inr (c, n, d) /\ rule_id rule_b1 ∈ n) /\
  (true && true = true ->
     out_versions o !! rule_id rule_b1 = Some entry /\
     version_lock_json (out_world o) !! rule_id rule_b1 = Some entry) /\
  (true && true = false -> out_versions o !! rule_id rule_b1 = None).
Proof.
  assert (NoDup (rule_id <$> example_rules)) as Hnd by compute_done.
  split; [done|]. split; [reflexivity|]. split; [reflexivity|].
  exact (manage_versions_new example_hash example_note example_get_version Some []
           "7.13.0" example_rules [] None false true true "2021-06-01" example_world
           1%nat rule_b1 Hnd eq_refl eq_refl).
Defined.

(** C3 as stated fails: the second call no longer classifies [a1] as
    changed. *)
Lemma manage_versions_twice_differs :
  let o1 := example_manage_versions example_rules [] None false true false "2021-06-01"
              example_world in
  let o2 := example_manage_versions (out_rules o1) [] None false true false "2021-06-01"
              (out_world o1) in
  out_result o1 = inr (["a1"%string], ["b1"%string], []) /\
  out_result o2 = inr ([], ["b1"%string], []) /\
  out_result o2 ≠ out_result o1.
Proof. by vm_compute. Qed.

(** Under [exclude_version_update] the second call also takes the
    bumped version back: 4, then 3. *)
Example manage_versions_twice_frozen :
  let o1 := example_manage_versions [rule_a1] [] None true true false "2021-06-01"
              example_world in
  let o2 := example_manage_versions (out_rules o1) [] None true true false "2021-06-01"
              (out_world o1) in
  contents_version <$> out_rules o1 = [Some 4] /\
  contents_version <$> out_rules o2 = [Some 3].
Proof. by vm_compute. Qed.

Lemma manage_versions_twice_witness :
  NoDup (rule_id <$> example_rules) /\
  let o1 := example_manage_versions example_rules [rule_d1] None false true false
              "2021-06-01" example_world in
  let cva' := if uses_cache None then None else Some (out_versions o1) in
  let o2 := example_manage_versions (out_rules o1) [rule_d1] cva' false false false
              "2021-06-02" (out_world o1) in
  exists c n d,
    out_result o1 = inr (c, n, d) /\ out_result o2 = inr ([], n, d) /\
    out_rules o2 = out_rules o1 /\ out_versions o2 = out_versions o1.
Proof.
  assert (NoDup (rule_id <$> example_rules)) as Hnd by compute_done.
  split; [done|].
  exact (manage_versions_twice example_hash example_note example_get_version Some []
           "7.13.0" example_rules [rule_d1] None true false "2021-06-01" "2021-06-02"
           example_world Hnd).
Defined.

Lemma update_and_lock_requires_lock_witness :
  let out := example_update_and_lock example_rules CHANGELOG_FILE false example_world in
  rule_b1 ∈ example_rules /\
  (version_lock_json example_world !! rule_id rule_b1 = None \/
   exists info, version_lock_json example_world !! rule_id rule_b1 = Some info /\
     get_hash example_hash rule_b1 ≠ sha256 info) /\
  example_update_and_lock example_rules CHANGELOG_FILE false example_world
    = (out.1.1, out.1.2, out.2) /\
  raised out.2 = true /\ changelog_files out.1.2 = changelog_files example_world.
Proof.
  intros out.
  assert (rule_b1 ∈ example_rules) as Hin by compute_done.
  assert (example_update_and_lock example_rules CHANGELOG_FILE false example_world
          = (out.1.1, out.1.2, out.2)) as Hcall by reflexivity.
  split; [done|]. split; [by left|]. split; [done|].
  exact (update_and_lock_requires_lock example_hash example_note example_get_version Some []
           example_rules example_world rule_b1 out.1.1 out.1.2 out.2
           Hin (or_introl eq_refl) Hcall).
Defined.

(** The failed lock of the scenario has already drained and saved
    [a1], the one rule with a substantive pending note. *)
Example scenario_not_atomic :
  let out := example_update_and_lock example_rules CHANGELOG_FILE false example_world in
  raised out.2 = true /\
  changelog <$> out.1.1 !! 0%nat = Some (Some [example_note "_version_locked_"]) /\
  length (saved_rules out.1.2) = 1%nat /\
  changelog_files out.1.2 = changelog_files example_world.
Proof. by vm_compute. Qed.

(** With another path the same unlocked rules are written. *)
Example scenario_other_path :
  let out := example_update_and_lock example_rules "etc/preview.json" false example_world in
  out.2 = inr tt /\ is_Some (changelog_files out.1.2 !! "etc/preview.json"%string).
Proof. vm_compute. eauto. Qed.

Lemma update_and_lock_not_atomic_witness :
  let out := example_update_and_lock example_rules CHANGELOG_FILE false example_world in
  example_update_and_lock example_rules CHANGELOG_FILE false example_world
    = (out.1.1, out.1.2, out.2) /\
  out.2 = inl (AssertionError
                 "Rule versions must be locked before locking the primary changelog") /\
  (forall msg, out.2 = inl (AssertionError msg) ->
     CHANGELOG_FILE = CHANGELOG_FILE /\
     versions_locked example_hash [] out.1.1 out.1.2 = false /\
     changelog_files out.1.2 = changelog_files example_world /\
     forall i r, example_rules !! i = Some r ->
       substantive (default [] (changelog r)) ≠ [] ->
       exists r', out.1.1 !! i = Some r' /\ rule_id r' = rule_id r /\
         changelog r' = (if decide (maturity r = "deprecated"%string) then None
                         else Some [example_note "_version_locked_"]) /\
         r' ∈ saved_rules out.1.2) /\
  (out.2 = inr tt -> is_Some (changelog_files out.1.2 !! CHANGELOG_FILE)) /\
  (CHANGELOG_FILE ≠ CHANGELOG_FILE -> forall msg, out.2 ≠ inl (AssertionError msg)).
Proof.
  intros out.
  assert (example_update_and_lock example_rules CHANGELOG_FILE false example_world
          = (out.1.1, out.1.2, out.2)) as Hcall by reflexivity.
  split; [done|]. split; [reflexivity|].
  exact (update_and_lock_not_atomic example_hash example_note example_get_version Some []
           example_rules CHANGELOG_FILE example_world out.1.1 out.1.2 out.2 Hcall).
Defined.

Lemma deprecation_append_only_witness :
  let o1 := example_manage_versions [] [rule_d1] None false true true "2021-06-01"
              example_world in
  let o2 := example_manage_versions [] [rule_d1] None false true true "2021-07-15"
              (out_world o1) in
  out_result o1 = inr ([], [], ["d1"%string]) /\
  out_result o2 = inr ([], [], []) /\
  exists e, deprecated_rules_json (out_world o1) !! "d1"%string = Some e /\
    deprecated_rules_json (out_world o2) !! "d1"%string = Some e /\
    forall c n d, out_result o2 = inr (c, n, d) -> "d1"%string ∉ d.
Proof.
  intros o1 o2. split; [by vm_compute|]. split; [by vm_compute|].
  assert (rule_d1 ∈ [rule_d1]) as Hin by compute_done.
  exact (proj2 (proj2 (proj2 (proj2
    (deprecation_append_only example_hash example_note example_get_version Some []
       "7.13.0" [] [] [rule_d1] None None false false true true true true
       "2021-06-01" "2021-07-15" example_world)))) eq_refl rule_d1 Hin).
Defined.

(** The spec's scenario: the unknown target "99.99" raises. *)
Example scenario_unknown_target :
  example_downgrade example_payload "99.99"
  = inl (ValueError "Unable to downgrade from 7.13 to 99.99").
Proof. by vm_compute. Qed.

Example scenario_current_target :
  example_downgrade example_payload "7.13.1" = inr example_payload.
Proof. by vm_compute. Qed.

Example scenario_known_target :
  example_downgrade example_payload "7.10.2"
  = inr (<["downgraded_to"%string := "7.10"%string]> example_payload).
Proof. by vm_compute. Qed.

Lemma downgrade_target_witness :
  let versions := (fun s => read_version s) <$> example_chain in
  (take 2 (read_version "99.99") ∉ versions) /\
  take 2 (read_version "7.10.2") ∈ versions /\
  (forall cs ts p r, raised (example_step cs ts p r) = false) /\
  example_downgrade example_payload "99.99"
    = inl (unable_to_downgrade string (fun s => s) example_chain "99.99") /\
  exists p', example_downgrade example_payload "7.10.2" = inr p'.
Proof.
  intros versions.
  assert (take 2 (read_version "99.99") ∉ versions) as Hout by compute_done.
  assert (take 2 (read_version "7.10.2") ∈ versions) as Hin by compute_done.
  assert (forall cs ts p r, raised (example_step cs ts p r) = false) as Htotal by done.
  split; [done|]. split; [done|]. split; [done|]. split.
  - exact (proj1 (downgrade_target string (fun s => s) (fun s => s) string example_step
                    read_version example_chain example_payload "99.99") Hout).
  - exact (proj2 (proj2 (downgrade_target string (fun s => s) (fun s => s) string
                           example_step read_version example_chain example_payload
                           "7.10.2") Hin) Htotal).
Defined.



(** ** Scenarios of the further properties *)

Lemma manage_versions_lock_kept_witness :
  let o := example_manage_versions example_rules [] None false true true "2021-06-01"
             example_world in
  is_Some ((load_versions None example_world).1 !! "c1"%string) /\
  ("d1"%string ∉ rule_id <$> example_rules) /\
  is_Some (out_versions o !! "c1"%string) /\
  out_versions o !! "d1"%string = (load_versions None example_world).1 !! "d1"%string.
Proof.
  intros o.
  assert (is_Some ((load_versions None example_world).1 !! "c1"%string)) as Hc
    by (exists info_c1; reflexivity).
  assert ("d1"%string ∉ rule_id <$> example_rules) as Hd by compute_done.
  split; [done|]. split; [done|]. split.
  - exact (proj1 (manage_versions_lock_kept example_hash example_note example_get_version
                    Some [] "7.13.0" example_rules [] None false true true "2021-06-01"
                    example_world "c1") Hc).
  - exact (proj2 (manage_versions_lock_kept example_hash example_note example_get_version
                    Some [] "7.13.0" example_rules [] None false true true "2021-06-01"
                    example_world "d1") Hd).
Defined.

Lemma manage_versions_monotone_witness :
  (load_versions None example_world).1 !! "a1"%string = Some info_a1 /\
  let o := example_manage_versions example_rules [] None false true false "2021-06-01"
             example_world in
  exists e', out_versions o !! "a1"%string = Some e' /\ version info_a1 <= version e' /\
    (false = true -> version e' = version info_a1).
Proof.
  split; [reflexivity|].
  exact (manage_versions_monotone example_hash example_note example_get_version Some []
           "7.13.0" example_rules [] None false true false "2021-06-01" example_world
           "a1" info_a1 eq_refl).
Defined.

Lemma manage_versions_report_witness :
  out_result (example_manage_versions example_rules [] None false true false "2021-06-01"
                example_world)
  = inr (["a1"%string], ["b1"%string], []) /\
  NoDup ["b1"%string] /\
  (forall j, j ∈ ["b1"%string] <->
     j ∈ rule_id <$> example_rules /\ (load_versions None example_world).1 !! j = None) /\
  (forall j, j ∈ ["a1"%string] ->
     j ∈ rule_id <$> example_rules /\ is_Some ((load_versions None example_world).1 !! j)) /\
  (forall j, j ∈ ["a1"%string] -> j ∉ ["b1"%string]).
Proof.
  assert (out_result (example_manage_versions example_rules [] None false true false
                        "2021-06-01" example_world)
          = inr (["a1"%string], ["b1"%string], [])) as Hres by (by vm_compute).
  split; [done|].
  exact (manage_versions_report example_hash example_note example_get_version Some []
           "7.13.0" example_rules [] None false true false "2021-06-01" example_world
           _ _ _ Hres).
Defined.

Lemma manage_versions_save_locks_witness :
  NoDup (rule_id <$> example_rules) /\ example_rules ≠ [] /\
  (load_versions None example_world).1 = version_lock_json example_world /\
  let o := example_manage_versions example_rules [] None false true true "2021-06-01"
             example_world in
  versions_locked example_hash [] (out_rules o) (out_world o) = true /\
  forall msg, out_result o ≠ inl (AssertionError msg).
Proof.
  assert (NoDup (rule_id <$> example_rules)) as Hnd by compute_done.
  assert (example_rules ≠ []) as Hne by done.
  split; [done|]. split; [done|]. split; [reflexivity|].
  exact (manage_versions_save_locks example_hash example_note example_get_version Some []
           "7.13.0" example_rules [] None false "2021-06-01" example_world
           Hnd Hne eq_refl).
Defined.

Lemma manage_versions_save_without_new_witness :
  rule_b1 ∈ example_rules /\
  (load_versions None example_world).1 !! rule_id rule_b1 = None /\
  version_lock_json example_world !! rule_id rule_b1 = None /\
  let o := example_manage_versions example_rules [] None false false true "2021-06-01"
             example_world in
  raised (out_result o) = true /\
  changelog_files (out_world o) = changelog_files example_world.
Proof.
  assert (rule_b1 ∈ example_rules) as Hin by compute_done.
  split; [done|]. split; [reflexivity|]. split; [reflexivity|].
  exact (manage_versions_save_without_new example_hash example_note example_get_version
           Some [] "7.13.0" example_rules [] None false "2021-06-01" example_world
           rule_b1 Hin eq_refl eq_refl).
Defined.

Lemma update_and_lock_appends_witness :
  let out := example_update_and_lock example_rules "etc/preview.json" false example_world in
  load_changelog example_world = inr ∅ /\
  example_update_and_lock example_rules "etc/preview.json" false example_world
    = (out.1.1, out.1.2, inr tt) /\
  exists cl', changelog_files out.1.2 !! "etc/preview.json"%string = Some cl' /\
    (forall j, default [] ((∅ : gmap string (list ChangelogEntry)) !! j)
               `prefix_of` default [] (cl' !! j)) /\
    (forall j, j ∉ rule_id <$> example_rules ->
       cl' !! j = (∅ : gmap string (list ChangelogEntry)) !! j) /\
    (forall p, p ≠ "etc/preview.json"%string ->
       changelog_files out.1.2 !! p = changelog_files example_world !! p).
Proof.
  intros out.
  assert (load_changelog example_world = inr ∅) as Hload by reflexivity.
  assert (example_update_and_lock example_rules "etc/preview.json" false example_world
          = (out.1.1, out.1.2, inr tt)) as Hcall by (by vm_compute).
  split; [done|]. split; [done|].
  exact (update_and_lock_appends example_hash example_note example_get_version Some []
           example_rules "etc/preview.json" example_world out.1.1 out.1.2 ∅ Hload Hcall).
Defined.

Lemma update_and_lock_one_entry_witness :
  let out := example_update_and_lock example_rules "etc/preview.json" false example_world in
  NoDup (rule_id <$> example_rules) /\ rule_a1 ∈ example_rules /\
  load_changelog example_world = inr ∅ /\
  example_update_and_lock example_rules "etc/preview.json" false example_world
    = (out.1.1, out.1.2, inr tt) /\
  exists cl', changelog_files out.1.2 !! "etc/preview.json"%string = Some cl' /\
    length (default [] (cl' !! rule_id rule_a1)) =
    (length (default [] ((∅ : gmap string (list ChangelogEntry)) !! rule_id rule_a1))
     + (if nonempty (substantive (default [] (changelog rule_a1))) then 1 else 0))%nat.
Proof.
  intros out.
  assert (NoDup (rule_id <$> example_rules)) as Hnd by compute_done.
  assert (rule_a1 ∈ example_rules) as Hin by compute_done.
  assert (load_changelog example_world = inr ∅) as Hload by reflexivity.
  assert (example_update_and_lock example_rules "etc/preview.json" false example_world
          = (out.1.1, out.1.2, inr tt)) as Hcall by (by vm_compute).
  split; [done|]. split; [done|]. split; [done|]. split; [done|].
  exact (update_and_lock_one_entry example_hash example_note example_get_version Some []
           example_rules "etc/preview.json" example_world out.1.1 out.1.2 ∅ rule_a1
           Hnd Hin Hload Hcall).
Defined.

(** A rule without a local changelog gets one; a second call leaves
    it alone. *)
Example scenario_initialize :
  let first := example_initialize [rule_d1] false false "2021/06/01" example_world in
  changelog <$> first.1 = [Some [example_note "_rule_created_"]] /\
  length (saved_rules first.2) = 1%nat.
Proof. by vm_compute. Qed.

Lemma initialize_rule_changelogs_once_witness :
  (forall r d, changelog (example_set_updated_date r d) = changelog r) /\
  let first := example_initialize [rule_d1; rule_a1] false false "2021/06/01"
                 example_world in
  Forall has_changelog first.1 /\
  example_initialize first.1 false true "2021/06/02" first.2 = first.
Proof.
  assert (forall r d, changelog (example_set_updated_date r d) = changelog r) as Hdate
    by done.
  split; [done|].
  exact (initialize_rule_changelogs_once example_hash example_note example_set_updated_date
           Hdate [rule_d1; rule_a1] false false true "2021/06/01" "2021/06/02"
           example_world).
Defined.

Lemma initialize_then_dry_run_witness :
  (forall r d, changelog (example_set_updated_date r d) = changelog r) /\
  let first := example_initialize [rule_d1; rule_a1] false false "2021/06/01"
                 example_world in
  (example_update_and_lock first.1 CHANGELOG_FILE true first.2).2
  ≠ inl (TypeError "missing changelog").
Proof.
  assert (forall r d, changelog (example_set_updated_date r d) = changelog r) as Hdate
    by done.
  split; [done|].
  exact (initialize_then_dry_run example_hash example_note example_get_version Some []
           example_set_updated_date Hdate [rule_d1; rule_a1] false false "2021/06/01"
           example_world CHANGELOG_FILE "missing changelog").
Defined.

(** A package of the rules at version 2 or more leaves out the new
    rule [b1], which has version 1. *)
Lemma Package_init_versions_witness :
  let o := example_manage_versions example_rules [] None false true false "2021-06-01"
             example_world in
  let built := example_Package_init example_rules "preview" [] false None (Some 2) None
                 false ∅ "2021-06-01" example_world in
  exists pk, built.2 = inr pk /\
    rule_id <$> pkg_rules pk = ["a1"; "c1"]%string /\
    forall r, r ∈ pkg_rules pk <->
              r ∈ out_rules o /\ version_in_bounds (Some 2) None r.
Proof.
  intros o built.
  destruct (built.2) as [e|pk] eqn:Hbuilt; [by vm_compute in Hbuilt|].
  exists pk. split; [done|]. split.
  - vm_compute in Hbuilt. injection Hbuilt as <-. reflexivity.
  - exact (proj1 (proj2 (proj2 (proj2 (Package_init_versions example_hash example_note
                                         example_get_version Some [] "7.13.0" example_rules
                                         "preview" [] false None (Some 2) None false ∅
                                         "2021-06-01" example_world)) pk Hbuilt))
             eq_refl).
Defined.

(** The loader returns [a1] before [c1], by name, whatever the order
    of the files. *)
Example scenario_load_order :
  example_load_rules example_files_ok true = inr example_loaded.
Proof. by vm_compute. Qed.

Lemma load_rules_sorted_witness :
  example_load_rules example_files_ok true = inr example_loaded /\
  StronglySorted name_le example_loaded.*2 /\ NoDup (name <$> example_loaded.*2) /\
  dict_keys example_loaded = rule_id <$> example_loaded.*2.
Proof.
  assert (example_load_rules example_files_ok true = inr example_loaded) as Hload
    by (by vm_compute).
  split; [done|].
  exact (load_rules_sorted Rule example_init example_key (inr []) example_files_ok true
           example_loaded Hload).
Defined.

Lemma load_rules_checked_witness :
  files_to_load Rule (inr []) example_files = inr example_files /\
  example_load_rules example_files false = inr example_loaded /\
  (forall k r, (k, r) ∈ example_loaded ->
     matches_FILE_PATTERN (basename (path r)) = true /\
     (exists f c, (f, c) ∈ example_files /\ example_init f c = inr r) /\
     exists key, example_key r = inr key) /\
  (forall k1 r1 k2 r2 q, (k1, r1) ∈ example_loaded -> (k2, r2) ∈ example_loaded ->
     example_key r1 = inr (Some q) -> example_key r2 = inr (Some q) -> r1 = r2).
Proof.
  assert (example_load_rules example_files false = inr example_loaded) as Hload
    by (by vm_compute).
  split; [reflexivity|]. split; [done|].
  exact (load_rules_checked Rule example_init example_key (inr []) example_files false
           example_files example_loaded eq_refl Hload).
Defined.

Lemma load_rules_files_witness :
  files_to_load Rule (inr []) example_files_ok = inr example_files_ok /\
  example_load_rules example_files_ok true = inr example_loaded /\
  (exists d, example_load_rules example_files_ok false = inr d) /\
  example_load_rules example_files_ok false = inr example_loaded.
Proof.
  assert (example_load_rules example_files_ok true = inr example_loaded) as Hload
    by (by vm_compute).
  split; [reflexivity|]. split; [done|]. split.
  - exact (proj1 (proj2 (load_rules_files Rule example_init example_key (inr [])
                           example_files_ok example_files_ok eq_refl))).
  - exact (proj2 (proj2 (load_rules_files Rule example_init example_key (inr [])
                           example_files_ok example_files_ok eq_refl))
             example_loaded Hload).
Defined.

Lemma get_rule_unambiguous_witness :
  load_rules Rule example_init example_key (inr example_files_ok) [] true
    = inr example_loaded /\
  (forall i n f r,
     example_get_rule (Some i) n f = inr (Some r) <->
     r ∈ example_loaded.*2 /\ rule_id r = i) /\
  (forall nm r,
     example_get_rule None (Some nm) None = inr (Some r) <->
     r ∈ example_loaded.*2 /\ name r = nm).
Proof.
  assert (load_rules Rule example_init example_key (inr example_files_ok) [] true
          = inr example_loaded) as Hload by (by vm_compute).
  split; [done|]. split.
  - exact (proj1 (get_rule_unambiguous Rule example_init example_key
                    (inr example_files_ok) example_loaded Hload)).
  - exact (proj1 (proj2 (proj2 (get_rule_unambiguous Rule example_init example_key
                                  (inr example_files_ok) example_loaded Hload)))).
Defined.

Lemma filter_rule_spec_witness :
  (("tags"%string, [AStr "Windows"]) ∈
     [("maturity"%string, [AStr "production"]); ("tags"%string, [AStr "Windows"])]) /\
  example_flattened rule_a1 !! "tags"%string = None /\
  example_filter_rule rule_a1
    [("maturity"%string, [AStr "production"]); ("tags"%string, [AStr "Windows"])]
    [("any"%string, ["process.name"%string])]
  = inr false.
Proof.
  assert ((("tags"%string, [AStr "Windows"]) ∈
     [("maturity"%string, [AStr "production"]); ("tags"%string, [AStr "Windows"])]))
    as Hin by compute_done.
  split; [done|]. split; [reflexivity|].
  exact (proj1 (proj2 (filter_rule_spec (fun s => s) example_flattened (fun _ => [])
                         (fun _ => None) rule_a1
                         [("maturity"%string, [AStr "production"]);
                          ("tags"%string, [AStr "Windows"])]))
           "tags"%string [AStr "Windows"] [("any"%string, ["process.name"%string])]
           Hin eq_refl).
Defined.

Lemma get_production_rules_spec_witness :
  load_rules Rule example_init example_key (inr example_files_ok) [] true
    = inr example_loaded /\
  exists prod both,
    example_get_production_rules false = inr prod /\
    example_get_production_rules true = inr both /\
    prod `sublist_of` both /\ both `sublist_of` example_loaded.*2 /\
    (forall r, r ∈ prod <->
       r ∈ example_loaded.*2 /\
       example_filter_rule r [("maturity"%string, [AStr "production"])] [] = inr true) /\
    (forall r, r ∈ both <->
       r ∈ example_loaded.*2 /\
       example_filter_rule r
         [("maturity"%string, [AStr "production"; AStr "deprecated"])] [] = inr true).
Proof.
  assert (load_rules Rule example_init example_key (inr example_files_ok) [] true
          = inr example_loaded) as Hload by (by vm_compute).
  split; [done|].
  exact (proj2 (get_production_rules_spec Rule example_init example_key
                  (inr example_files_ok) (fun s => s) example_flattened (fun _ => [])
                  (fun _ => None)) example_loaded Hload).
Defined.

Lemma downgrade_walk_witness :
  example_chain = ["7.8"; "7.9"; "7.10"; "7.11"]%string ++ "7.12"%string :: ["7.13"%string] /\
  take 2 (read_version "7.12.0") ∈ (fun s => read_version s) <$> example_chain /\
  read_version "7.12" = take 2 (read_version "7.12.0") /\
  (forall s, s ∈ ["7.13"%string] -> read_version s <> take 2 (read_version "7.12.0")) /\
  example_downgrade example_payload "7.12.0"
  = chain_steps example_step (example_payload !! "type"%string) "7.13"%string
      ["7.12"%string] example_payload.
Proof.
  assert (take 2 (read_version "7.12.0") ∈ (fun s => read_version s) <$> example_chain)
    as Hin by compute_done.
  assert (forall s, s ∈ ["7.13"%string] ->
            read_version s <> take 2 (read_version "7.12.0")) as Hnewer.
  { intros s Hs. apply list_elem_of_singleton in Hs as ->. by vm_compute. }
  split; [reflexivity|]. split; [done|]. split; [reflexivity|]. split; [done|].
  exact (downgrade_walk string (fun s => s) (fun s => s) string example_step read_version
           example_chain example_payload "7.12.0" ["7.8"; "7.9"; "7.10"; "7.11"]%string
           "7.12"%string ["7.13"%string] "7.13"%string ["7.12"%string]
           eq_refl Hin eq_refl Hnewer eq_refl).
Defined.

Lemma get_schema_spec_witness :
  NoDup (available_versions string (fun s => s) example_chain) /\
  "7.10"%string ∈ example_chain /\
  example_get_schema "7.10" = Some "7.10"%string /\
  ("7.14"%string ∉ available_versions string (fun s => s) example_chain) /\
  example_get_schema "7.14" = None.
Proof.
  assert (NoDup (available_versions string (fun s => s) example_chain)) as Hnd
    by compute_done.
  assert ("7.10"%string ∈ example_chain) as Hin by compute_done.
  assert ("7.14"%string ∉ available_versions string (fun s => s) example_chain) as Hout
    by compute_done.
  split; [done|]. split; [done|]. split; [|split; [done|]].
  - exact (proj2 (proj2 (get_schema_spec string (fun s => s) example_chain))
             "7.10"%string Hnd Hin).
  - exact (proj2 (proj1 (proj2 (get_schema_spec string (fun s => s) example_chain))
                    "7.14"%string) Hout).
Defined.

Lemma register_manifest_write_once_witness :
  let c := ("1.0.0"%string, "ManifestV1Dot0"%string) in
  let again := ("1.0.0"%string, "ManifestV1Dot0Again"%string) in
  let registry := (example_register c ∅).1 in
  get_manifest (string * string) "1.0.0" ∅ = None /\
  get_manifest (string * string) "1.0.0" registry = Some c /\
  example_register again registry
  = (registry, inl (ValueError "manifest format_version already exists in ManifestV1Dot0")).
Proof.
  intros c again registry.
  assert (get_manifest (string * string) "1.0.0" registry = Some c) as Hc.
  { exact (proj1 (proj2 (proj2 (proj2 (register_manifest_write_once (string * string)
                                         fst snd c ∅)) eq_refl))). }
  split; [reflexivity|]. split; [done|].
  exact (proj1 (proj2 (register_manifest_write_once (string * string) fst snd again
                         registry)) c Hc).
Defined.

Lemma group_events_by_type_spec_witness :
  Forall (fun s => raised (example_source_type s) = false) example_sources /\
  exists d, example_group (Some <$> example_sources) = inr d /\
    NoDup (dict_keys d) /\
    (forall t l, dict_get t d = Some l <->
       l = events_of_type snd Some t example_sources /\ l <> []) /\
    (forall s t, s ∈ example_sources -> example_source_type s = inr t ->
       exists l, dict_get t d = Some l /\ s ∈ l).
Proof.
  assert (Forall (fun s => raised (example_source_type s) = false) example_sources)
    as Hall by (repeat constructor).
  split; [done|].
  exact (group_events_by_type_spec (nat * option string) string snd Some example_sources
           Hall).
Defined.

(** The groups keep the order of the hits, and the keys the order in
    which the types first occur. *)
Example scenario_group_events :
  example_group (Some <$> example_sources)
  = inr [("auditbeat"%string, [(1%nat, Some "auditbeat"%string);
                               (3%nat, Some "auditbeat"%string)]);
         ("winlogbeat"%string, [(2%nat, Some "winlogbeat"%string)])].
Proof. by vm_compute. Qed.

Lemma group_events_by_type_raises_witness :
  let hits := [Some (1%nat, Some "auditbeat"%string); Some (2%nat, None); None] in
  example_group hits = inl (KeyError "agent") /\
  exists before hit behind, hits = before ++ hit :: behind /\
    Forall (fun h => raised (event_type snd Some h) = false) before /\
    (forall others, example_group (before ++ hit :: others) = inl (KeyError "agent")) /\
    KeyError "agent" = KeyError match hit with
                                | None => "_source"
                                | Some s => if snd s is Some _ then "type" else "agent"
                                end.
Proof.
  intros hits.
  assert (example_group hits = inl (KeyError "agent")) as Hraise by reflexivity.
  split; [done|].
  exact (proj2 (group_events_by_type_raises (nat * option string) string snd Some hits)
           (KeyError "agent") Hraise).
Defined.
